(** * MemoryVault: the event reducer, the knowledge filter, auto-hide and
    location links, embedded from the JavaScript sources.

  Conventions of the embedding.
  - JavaScript numbers are the integers [Z]; a value computed by the code
    that need not be an integer is a [number], the integers extended with
    NaN and the two infinities.
  - Strings are [string]s of bytes; letter case and white space are the
    ASCII ones.
  - Objects used as dictionaries are [gmap string _]; arrays are lists.
  - [Date.now()] and the id generator are arguments of the functions that
    call them. Logging, toasts and saving the chat are left out: they do not
    touch the data the functions below read. *)

From Stdlib Require Import ZArith String Ascii DecimalString.
From stdpp Require Import base tactics option list gmap strings.

Set Warnings "-register-all".

Local Open Scope string_scope.
Local Open Scope list_scope.
Local Open Scope Z_scope.

(* ===================================================================== *)
(** ** Strings *)
(* ===================================================================== *)

Module Str.

(** [String.prototype.toLowerCase], on the letters A to Z. *)
Definition lowerChar (c : ascii) : ascii :=
  let n := nat_of_ascii c in
  if ((65 <=? n)%nat && (n <=? 90)%nat)%bool then ascii_of_nat (n + 32) else c.

Fixpoint toLowerCase (s : string) : string :=
  match s with
  | EmptyString => EmptyString
  | String c s' => String (lowerChar c) (toLowerCase s')
  end.

(** [String.prototype.includes]: [sub] occurs somewhere in [s]. *)
Fixpoint includes (s sub : string) : bool :=
  String.prefix sub s ||
  match s with
  | EmptyString => false
  | String _ s' => includes s' sub
  end.

(** White space as [trim] and the regular expression class [\s] see it:
    tab, line feed, vertical tab, form feed, carriage return, space. *)
Definition isSpace (c : ascii) : bool :=
  let n := nat_of_ascii c in
  ((9 <=? n)%nat && (n <=? 13)%nat) || (n =? 32)%nat.

Definition isDigit (c : ascii) : bool :=
  let n := nat_of_ascii c in (48 <=? n)%nat && (n <=? 57)%nat.

Definition isLower (c : ascii) : bool :=
  let n := nat_of_ascii c in (97 <=? n)%nat && (n <=? 122)%nat.

Fixpoint trimStart (s : string) : string :=
  match s with
  | String c s' => if isSpace c then trimStart s' else s
  | EmptyString => EmptyString
  end.

(** Drops the white space that ends [s]. *)
Fixpoint trimEnd (s : string) : string :=
  match s with
  | EmptyString => EmptyString
  | String c s' =>
      match trimEnd s' with
      | EmptyString => if isSpace c then EmptyString else String c EmptyString
      | t => String c t
      end
  end.

Definition trim (s : string) : string := trimEnd (trimStart s).

(** The decimal numeral of an integer, as [String(n)] prints it. *)
Definition ofZ (z : Z) : string := NilZero.string_of_int (Z.to_int z).

End Str.

(* ===================================================================== *)
(** ** JavaScript values *)
(* ===================================================================== *)

(** A value read from JSON text, and [undefined] for a property that is not
  there. An object lists its own properties in enumeration order. *)
Inductive jsval : Type :=
| JUndefined
| JNull
| JBool (b : bool)
| JNum (z : Z)
| JStr (s : string)
| JArr (l : list jsval)
| JObj (o : list (string * jsval)).

(** A number the code computes: an integer, NaN or an infinity. *)
Inductive number : Type :=
| NaN
| NegInf
| Fin (z : Z)
| PosInf.

Module JS.

Fixpoint assoc (k : string) (o : list (string * jsval)) : option jsval :=
  match o with
  | [] => None
  | (k', v) :: o' => if String.eqb k k' then Some v else assoc k o'
  end.

(** [v.k] for a [v] that is neither [null] nor [undefined]; none of the
    property names the code reads is one the prototypes define. *)
Definition prop (v : jsval) (k : string) : jsval :=
  match v with
  | JObj o => default JUndefined (assoc k o)
  | _ => JUndefined
  end.

(** [v] has an own property [k] (what the spread [...v] copies). *)
Definition ownProp (v : jsval) (k : string) : option jsval :=
  match v with
  | JObj o => assoc k o
  | _ => None
  end.

Definition truthy (v : jsval) : bool :=
  match v with
  | JUndefined | JNull => false
  | JBool b => b
  | JNum z => negb (z =? 0)
  | JStr s => negb (String.eqb s "")
  | JArr _ | JObj _ => true
  end.

(** [a || b]. *)
Definition or (a b : jsval) : jsval := if truthy a then a else b.

(** [typeof v === 'object' && v !== null]. *)
Definition isObject (v : jsval) : bool :=
  match v with
  | JArr _ | JObj _ => true
  | _ => false
  end.

Definition isNullish (v : jsval) : bool :=
  match v with
  | JUndefined | JNull => true
  | _ => false
  end.

(** [String(v)]. *)
Fixpoint toString (v : jsval) : string :=
  match v with
  | JUndefined => "undefined"
  | JNull => "null"
  | JBool true => "true"
  | JBool false => "false"
  | JNum z => Str.ofZ z
  | JStr s => s
  | JArr l =>
      String.concat ","
        (List.map (fun e => if isNullish e then "" else toString e) l)
  | JObj _ => "[object Object]"
  end.

(** Digits of a decimal numeral, most significant first. *)
Fixpoint digits (acc : Z) (s : string) : option Z :=
  match s with
  | EmptyString => Some acc
  | String c s' =>
      if Str.isDigit c
      then digits (10 * acc + Z.of_nat (nat_of_ascii c - 48)) s'
      else None
  end.

Definition unsignedLiteral (s : string) : number :=
  if String.eqb s "Infinity" then PosInf
  else match s with
       | EmptyString => NaN
       | _ => match digits 0 s with Some z => Fin z | None => NaN end
       end.

Definition negate (n : number) : number :=
  match n with
  | NaN => NaN
  | NegInf => PosInf
  | Fin z => Fin (- z)
  | PosInf => NegInf
  end.

(** [Number(s)] for a string: surrounding white space is dropped, the empty
    string is 0, and an optionally signed decimal integer or [Infinity] is
    its value; every other text read here is NaN. Numerals with a fraction,
    an exponent or a radix prefix are not integers of this embedding and no
    statement below is about them. *)
Definition stringToNumber (s : string) : number :=
  match Str.trim s with
  | EmptyString => Fin 0
  | String "+" t => unsignedLiteral t
  | String "-" t => negate (unsignedLiteral t)
  | t => unsignedLiteral t
  end.

(** [Number(v)], the conversion [Math.max] and [Math.min] apply to their
    arguments. *)
Definition toNumber (v : jsval) : number :=
  match v with
  | JUndefined => NaN
  | JNull => Fin 0
  | JBool b => Fin (if b then 1 else 0)
  | JNum z => Fin z
  | JStr s => stringToNumber s
  | JArr _ => stringToNumber (toString v)
  | JObj _ => NaN
  end.

Definition min (a b : number) : number :=
  match a, b with
  | NaN, _ | _, NaN => NaN
  | NegInf, _ | _, NegInf => NegInf
  | PosInf, x | x, PosInf => x
  | Fin x, Fin y => Fin (Z.min x y)
  end.

Definition max (a b : number) : number :=
  match a, b with
  | NaN, _ | _, NaN => NaN
  | PosInf, _ | _, PosInf => PosInf
  | NegInf, x | x, NegInf => x
  | Fin x, Fin y => Fin (Z.max x y)
  end.

(** [Math.min(...ids)] over integers: [Infinity] for no argument. *)
Definition minOf (ids : list Z) : number :=
  match ids with
  | [] => PosInf
  | x :: xs => Fin (foldl Z.min x xs)
  end.

(** [a * b] and [a + b] where the right operand is a finite integer. *)
Definition mulFin (a : number) (k : Z) : number :=
  match a with
  | NaN => NaN
  | Fin x => Fin (x * k)
  | PosInf => if 0 <? k then PosInf else if k <? 0 then NegInf else NaN
  | NegInf => if 0 <? k then NegInf else if k <? 0 then PosInf else NaN
  end.

Definition addFin (a : number) (k : Z) : number :=
  match a with
  | Fin x => Fin (x + k)
  | other => other
  end.

End JS.

(** What a call does: it returns, or it throws a [TypeError]. *)
Inductive outcome (A : Type) : Type :=
| Returns (a : A)
| Throws.
Arguments Returns {A} a.
Arguments Throws {A}.

(* ===================================================================== *)
(** ** extraction/parser.js: relationships *)
(* ===================================================================== *)

(** An entry of a relationship's history. *)
Record RelationshipHistoryEntry : Type := {
  rh_event_id : jsval;
  rh_impact : jsval;
  rh_timestamp : Z;
  rh_message_id : option Z;
  rh_direction : string;
}.

(** A relationship as [updateRelationshipsFromEvents] creates it. *)
Record Relationship : Type := {
  character_a : string;
  character_b : string;
  trust_level : Z;
  tension_level : Z;
  respect_level : Z;
  attraction_level : Z;
  fear_level : Z;
  loyalty_level : Z;
  familiarity_level : Z;
  relationship_type : string;
  history : list RelationshipHistoryEntry;
  last_updated_message_id : option Z;
}.

Module Rel.

Definition setTrust (v : Z) (r : Relationship) : Relationship :=
  {| character_a := character_a r; character_b := character_b r;
     trust_level := v; tension_level := tension_level r;
     respect_level := respect_level r; attraction_level := attraction_level r;
     fear_level := fear_level r; loyalty_level := loyalty_level r;
     familiarity_level := familiarity_level r;
     relationship_type := relationship_type r; history := history r;
     last_updated_message_id := last_updated_message_id r |}.

Definition setTension (v : Z) (r : Relationship) : Relationship :=
  {| character_a := character_a r; character_b := character_b r;
     trust_level := trust_level r; tension_level := v;
     respect_level := respect_level r; attraction_level := attraction_level r;
     fear_level := fear_level r; loyalty_level := loyalty_level r;
     familiarity_level := familiarity_level r;
     relationship_type := relationship_type r; history := history r;
     last_updated_message_id := last_updated_message_id r |}.

Definition setRespect (v : Z) (r : Relationship) : Relationship :=
  {| character_a := character_a r; character_b := character_b r;
     trust_level := trust_level r; tension_level := tension_level r;
     respect_level := v; attraction_level := attraction_level r;
     fear_level := fear_level r; loyalty_level := loyalty_level r;
     familiarity_level := familiarity_level r;
     relationship_type := relationship_type r; history := history r;
     last_updated_message_id := last_updated_message_id r |}.

Definition setAttraction (v : Z) (r : Relationship) : Relationship :=
  {| character_a := character_a r; character_b := character_b r;
     trust_level := trust_level r; tension_level := tension_level r;
     respect_level := respect_level r; attraction_level := v;
     fear_level := fear_level r; loyalty_level := loyalty_level r;
     familiarity_level := familiarity_level r;
     relationship_type := relationship_type r; history := history r;
     last_updated_message_id := last_updated_message_id r |}.

Definition setFear (v : Z) (r : Relationship) : Relationship :=
  {| character_a := character_a r; character_b := character_b r;
     trust_level := trust_level r; tension_level := tension_level r;
     respect_level := respect_level r; attraction_level := attraction_level r;
     fear_level := v; loyalty_level := loyalty_level r;
     familiarity_level := familiarity_level r;
     relationship_type := relationship_type r; history := history r;
     last_updated_message_id := last_updated_message_id r |}.

Definition setLoyalty (v : Z) (r : Relationship) : Relationship :=
  {| character_a := character_a r; character_b := character_b r;
     trust_level := trust_level r; tension_level := tension_level r;
     respect_level := respect_level r; attraction_level := attraction_level r;
     fear_level := fear_level r; loyalty_level := v;
     familiarity_level := familiarity_level r;
     relationship_type := relationship_type r; history := history r;
     last_updated_message_id := last_updated_message_id r |}.

Definition setFamiliarity (v : Z) (r : Relationship) : Relationship :=
  {| character_a := character_a r; character_b := character_b r;
     trust_level := trust_level r; tension_level := tension_level r;
     respect_level := respect_level r; attraction_level := attraction_level r;
     fear_level := fear_level r; loyalty_level := loyalty_level r;
     familiarity_level := v;
     relationship_type := relationship_type r; history := history r;
     last_updated_message_id := last_updated_message_id r |}.

End Rel.

(** The relationship stored for a pair of names seen for the first time. *)
Definition newRelationship (a b : string) : Relationship :=
  {| character_a := a; character_b := b;
     trust_level := 5; tension_level := 0;
     respect_level := 5; attraction_level := 0;
     fear_level := 0; loyalty_level := 5;
     familiarity_level := 1;
     relationship_type := "acquaintance"; history := [];
     last_updated_message_id := None |}.

Definition clamp (value lo hi : Z) : Z := Z.min hi (Z.max lo value).

(** One line of [applyStructuredImpact]: when [impact.field] is a number,
    the dimension read by [get] moves by it and is clamped to 0..10. *)
Definition applyDelta (impact : jsval) (field : string)
    (get : Relationship -> Z) (set : Z -> Relationship -> Relationship)
    (rel : Relationship) : Relationship :=
  match JS.prop impact field with
  | JNum d => set (clamp (get rel + d) 0 10) rel
  | _ => rel
  end.

Definition applyStructuredImpact (rel : Relationship) (impact : jsval)
    : Relationship :=
  let rel := applyDelta impact "trust" trust_level Rel.setTrust rel in
  let rel := applyDelta impact "tension" tension_level Rel.setTension rel in
  let rel := applyDelta impact "respect" respect_level Rel.setRespect rel in
  let rel :=
    applyDelta impact "attraction" attraction_level Rel.setAttraction rel in
  let rel := applyDelta impact "fear" fear_level Rel.setFear rel in
  let rel := applyDelta impact "loyalty" loyalty_level Rel.setLoyalty rel in
  applyDelta impact "familiarity" familiarity_level Rel.setFamiliarity rel.

Definition applyLegacyImpact (rel : Relationship) (impactStr : string)
    : Relationship :=
  let impactLower := Str.toLowerCase impactStr in
  let has := Str.includes impactLower in
  (* Trust *)
  let rel :=
    if has "trust" && (has "increas" || has "deepen" || has "gain")
    then Rel.setTrust (Z.min 10 (trust_level rel + 1)) rel
    else if has "trust" && (has "decreas" || has "lost" || has "betray")
    then Rel.setTrust (Z.max 0 (trust_level rel - 1)) rel
    else rel in
  (* Tension *)
  let rel :=
    if has "tension" && has "increas"
    then Rel.setTension (Z.min 10 (tension_level rel + 1)) rel
    else if has "tension" && has "decreas"
    then Rel.setTension (Z.max 0 (tension_level rel - 1)) rel
    else rel in
  (* Respect *)
  let rel :=
    if has "respect" && (has "gain" || has "increas" || has "shown")
    then Rel.setRespect (Z.min 10 (respect_level rel + 1)) rel
    else if has "respect" && (has "lost" || has "decreas")
    then Rel.setRespect (Z.max 0 (respect_level rel - 1)) rel
    else rel in
  (* Attraction *)
  let rel :=
    if has "attract" || has "desire" || has "romantic" || has "intimacy"
    then Rel.setAttraction (Z.min 10 (attraction_level rel + 1)) rel
    else rel in
  (* Fear *)
  let rel :=
    if has "fear" || has "intimidat" || has "threat"
    then Rel.setFear (Z.min 10 (fear_level rel + 1)) rel
    else if has "reassur" || has "comfort"
    then Rel.setFear (Z.max 0 (fear_level rel - 1)) rel
    else rel in
  (* Loyalty *)
  let rel :=
    if has "loyal" || has "devotion" || has "commit"
    then Rel.setLoyalty (Z.min 10 (loyalty_level rel + 1)) rel
    else if has "betray" || has "abandon"
    then Rel.setLoyalty (Z.max 0 (loyalty_level rel - 1)) rel
    else rel in
  (* Familiarity always increases with interaction *)
  Rel.setFamiliarity (Z.min 10 (familiarity_level rel + 1)) rel.

(** The branch of [updateRelationshipsFromEvents] that applies one impact:
    an object goes to [applyStructuredImpact], anything else to
    [applyLegacyImpact] as a string. *)
Definition applyImpact (rel : Relationship) (impact : jsval) : Relationship :=
  if JS.isObject impact
  then applyStructuredImpact rel impact
  else applyLegacyImpact rel (JS.toString impact).

(** The relationship after each impact of a sequence, in order. *)
Fixpoint relationshipStates (rel : Relationship) (impacts : list jsval)
    : list Relationship :=
  match impacts with
  | [] => []
  | impact :: rest =>
      let rel' := applyImpact rel impact in
      rel' :: relationshipStates rel' rest
  end.

(* ===================================================================== *)
(** ** extraction/parser.js: parseExtractionResult *)
(* ===================================================================== *)

(** A source message of an extraction batch; [m.id] is its index in the
    chat. *)
Record SourceMessage : Type := {
  msg_id : Z;
  msg_text : string;
}.

(** An event as [parseExtractionResult] returns it. The fields the code
    copies from the model's JSON keep the value found there; [ev_source]
    is the event the spread [...event] copies the other properties from. *)
Record ExtractedEvent : Type := {
  ev_id : jsval;
  ev_source : jsval;
  ev_message_ids : list Z;
  ev_sequence : number;
  ev_created_at : Z;
  ev_batch_id : option string;
  ev_characters_involved : jsval;
  ev_witnesses : jsval;
  ev_location : jsval;
  ev_is_secret : jsval;
  ev_known_by : jsval;
  ev_importance : number;
  ev_emotional_tone : jsval;
  ev_emotional_valence : Z;
  ev_emotional_impact : jsval;
  ev_relationship_impact : jsval;
  ev_promise : jsval;
  ev_goal : jsval;
  ev_skill : jsval;
  ev_pinned : bool;
}.

Section Parser.

(** [safeParseJSON] and [generateId] are utils.js's, which is not among the
    sources: the parser answers a value for every text, a falsy one when the
    text cannot be parsed (the guard [!parsed] below), and [generateId i] is
    the id drawn for the event at index [i]. [now] is [Date.now()]. *)
Variable safeParseJSON : string -> jsval.
Variable generateId : nat -> string.
Variable now : Z.

(** The callback of [events.map]: reading a property of [null] or
    [undefined] throws. *)
Definition enrichEvent (messageIds : list Z) (minMessageId : number)
    (batchId : option string) (index : nat) (event : jsval)
    : outcome ExtractedEvent :=
  if JS.isNullish event then Throws
  else
    let p := JS.prop event in
    Returns
      {| ev_id := default (JStr (generateId index)) (JS.ownProp event "id");
         ev_source := event;
         ev_message_ids := messageIds;
         ev_sequence :=
           JS.addFin (JS.mulFin minMessageId 1000) (Z.of_nat index);
         ev_created_at := now;
         ev_batch_id := batchId;
         ev_characters_involved := JS.or (p "characters_involved") (JArr []);
         ev_witnesses :=
           JS.or (p "witnesses") (JS.or (p "characters_involved") (JArr []));
         ev_location := JS.or (p "location") JNull;
         ev_is_secret := JS.or (p "is_secret") (JBool false);
         ev_known_by :=
           if JS.truthy (p "is_secret")
           then JS.or (p "known_by")
                  (JS.or (p "witnesses")
                     (JS.or (p "characters_involved") (JArr [])))
           else JNull;
         ev_importance :=
           JS.min (Fin 5)
             (JS.max (Fin 1) (JS.toNumber (JS.or (p "importance") (JNum 3))));
         ev_emotional_tone := JS.or (p "emotional_tone") (JArr []);
         ev_emotional_valence :=
           match p "emotional_valence" with
           | JNum v => Z.min 1 (Z.max (-1) v)
           | _ => 0
           end;
         ev_emotional_impact := JS.or (p "emotional_impact") (JObj []);
         ev_relationship_impact := JS.or (p "relationship_impact") (JObj []);
         ev_promise := JS.or (p "promise") JNull;
         ev_goal := JS.or (p "goal") JNull;
         ev_skill := JS.or (p "skill") JNull;
         ev_pinned := false |}.

(** [events.map(callback)]: the callback runs on the events in order, from
    index [index] on, and the first throw ends the call. *)
Fixpoint mapEvents (f : nat -> jsval -> outcome ExtractedEvent)
    (index : nat) (events : list jsval) : outcome (list ExtractedEvent) :=
  match events with
  | [] => Returns []
  | event :: rest =>
      match f index event with
      | Throws => Throws
      | Returns e =>
          match mapEvents f (S index) rest with
          | Throws => Throws
          | Returns es => Returns (e :: es)
          end
      end
  end.

Definition parseExtractionResult (jsonString : string)
    (messages : list SourceMessage) (characterName userName : string)
    (batchId : option string) : outcome (list ExtractedEvent) :=
  let parsed := safeParseJSON jsonString in
  if negb (JS.truthy parsed) then Returns []
  else
    let events := match parsed with JArr l => l | _ => [parsed] end in
    let messageIds := List.map msg_id messages in
    let minMessageId := JS.minOf messageIds in
    mapEvents (enrichEvent messageIds minMessageId batchId) 0%nat events.

End Parser.

(** A parser given by the texts it reads; every other text is unparseable. *)
Definition parseTable (table : list (string * jsval)) (s : string) : jsval :=
  default JNull (JS.assoc s table).

(** Ids [e0], [e1], ... *)
Definition sampleId (i : nat) : string := String.append "e" (Str.ofZ (Z.of_nat i)).

(* ===================================================================== *)
(** ** The vault: memories, character states, locations *)
(* ===================================================================== *)

(** A stored memory, with the fields the reducers and the knowledge filter
    read. A field the code guards with [|| default] or a truthiness test is
    an [option]: [None] is a missing or falsy value. *)
Record Memory : Type := {
  mem_id : string;
  summary : string;
  event_type : string;
  witnesses : option (list string);
  location : option string;
  is_secret : bool;
  known_by : option (list string);
  importance : Z;
  emotional_tone : option (list string);
  emotional_valence : Z;
  emotional_impact : option (list (string * string));
  message_ids : option (list Z);
  pinned : bool;
}.

Record MessageRange : Type := {
  range_min : Z;
  range_max : Z;
}.

Record EmotionHistoryEntry : Type := {
  emotion : string;
  timestamp : Z;
  event_id : string;
  message_range : option MessageRange;
  entry_event_type : string;
  entry_emotional_tone : list string;
  valence : Z;
}.

(** [emotion_history] is [None] for a state stored before the field
    existed. *)
Record CharacterState : Type := {
  cs_name : string;
  current_emotion : string;
  emotion_intensity : Z;
  known_events : list string;
  emotion_history : option (list EmotionHistoryEntry);
  last_updated : option Z;
  emotion_from_messages : option MessageRange;
}.

Record Location : Type := {
  loc_id : string;
  loc_name : string;
  aliases : list string;
  description : string;
  first_visit : Z;
  last_visit : Z;
  visit_count : Z;
  memory_ids : list string;
  parent_location : option string;
  tags : list string;
}.

(** The vault of a chat; a section is [None] until it is first written. *)
Record Vault : Type := {
  memories : list Memory;
  characters : option (gmap string CharacterState);
  locations : option (gmap string Location);
}.

Definition setCharacters (c : gmap string CharacterState) (data : Vault)
    : Vault :=
  {| memories := memories data; characters := Some c;
     locations := locations data |}.

Definition setLocations (l : gmap string Location) (data : Vault) : Vault :=
  {| memories := memories data; characters := characters data;
     locations := Some l |}.

(* ===================================================================== *)
(** ** extraction/parser.js: updateCharacterStatesFromEvents *)
(* ===================================================================== *)

Definition MAX_EMOTION_HISTORY : nat := 50.

Definition newCharacterState (charName : string) : CharacterState :=
  {| cs_name := charName; current_emotion := "neutral";
     emotion_intensity := 5; known_events := [];
     emotion_history := Some []; last_updated := None;
     emotion_from_messages := None |}.

(** [{min: Math.min(...ids), max: Math.max(...ids)}], or [null] for no id. *)
Definition messageRangeOf (messageIds : list Z) : option MessageRange :=
  match messageIds with
  | [] => None
  | x :: xs =>
      Some {| range_min := foldl Z.min x xs; range_max := foldl Z.max x xs |}
  end.

(** [l.slice(-n)]: the last [n] elements, all of [l] when it has fewer. *)
Definition sliceLast {A : Type} (n : nat) (l : list A) : list A :=
  drop (length l - n) l.

Definition historyEntryOf (now : Z) (event : Memory)
    (messageRange : option MessageRange) (emo : string)
    : EmotionHistoryEntry :=
  {| emotion := emo; timestamp := now; event_id := mem_id event;
     message_range := messageRange;
     entry_event_type := event_type event;
     entry_emotional_tone := default [] (emotional_tone event);
     valence := emotional_valence event |}.

(** The history after [push] and the trim that follows it. *)
Definition pushTrimmed (h : list EmotionHistoryEntry)
    (e : EmotionHistoryEntry) : list EmotionHistoryEntry :=
  let pushed := h ++ [e] in
  if (MAX_EMOTION_HISTORY <? length pushed)%nat
  then sliceLast MAX_EMOTION_HISTORY pushed
  else pushed.

(** The names that every object finds through [Object.prototype]. *)
Definition prototypeNames : list string :=
  [ "constructor"; "hasOwnProperty"; "isPrototypeOf"; "propertyIsEnumerable";
    "toLocaleString"; "toString"; "valueOf"; "__proto__";
    "__defineGetter__"; "__defineSetter__"; "__lookupGetter__";
    "__lookupSetter__" ].

(** [chars[name]] is not a state of the store but what the prototype holds
    under the name: a function of the runtime, or [Object.prototype]
    itself; it is truthy and has no [known_events]. *)
Definition inheritedName (chars : gmap string CharacterState)
    (name : string) : bool :=
  bool_decide (chars !! name = None) && bool_decide (name ∈ prototypeNames).

(** What a loop of the reducer does: it ends with a store; it throws a
    [TypeError], the store being as given; or it writes to an object of
    the runtime, found under an inherited name, and not to the store. What
    the program does after such a write is not a matter of the store, and
    the embedding ends there. *)
Inductive reduced (A : Type) : Type :=
| Ended (a : A)
| Threw (a : A)
| WroteToRuntime.
Arguments Ended {A} a.
Arguments Threw {A} a.
Arguments WroteToRuntime {A}.

Definition andThen {A : Type} (r : reduced A) (next : A → reduced A)
    : reduced A :=
  match r with
  | Ended a => next a
  | Threw a => Threw a
  | WroteToRuntime => WroteToRuntime
  end.

(** [for (const x of l) body], on the store [a]. *)
Fixpoint forEach {A B : Type} (body : A → B → reduced A) (a : A)
    (l : list B) : reduced A :=
  match l with
  | [] => Ended a
  | x :: rest => andThen (body a x) (fun a' => forEach body a' rest)
  end.

(** The store after the body of the loop over
    [Object.entries(event.emotional_impact)], for a character whose name is
    not an inherited one. *)
Definition emotionRecorded (now : Z) (event : Memory)
    (messageRange : option MessageRange)
    (chars : gmap string CharacterState) (entry : string * string)
    : gmap string CharacterState :=
  let charName := entry.1 in
  let emo := entry.2 in
  let charState := default (newCharacterState charName) (chars !! charName) in
  let historyEntry := historyEntryOf now event messageRange emo in
  <[charName :=
      {| cs_name := cs_name charState;
         current_emotion := emo;
         emotion_intensity := emotion_intensity charState;
         known_events := known_events charState;
         emotion_history :=
           Some (pushTrimmed (default [] (emotion_history charState))
                   historyEntry);
         last_updated := Some now;
         emotion_from_messages :=
           match messageRange with
           | Some r => Some r
           | None => emotion_from_messages charState
           end |}]> chars.

(** The body of the loop over [Object.entries(event.emotional_impact)].
    Under an inherited name the test [!data[CHARACTERS_KEY][charName]]
    fails, no state is created, and the history and the emotion are
    written to the object of the runtime. *)
Definition recordEmotion (now : Z) (event : Memory)
    (messageRange : option MessageRange)
    (chars : gmap string CharacterState) (entry : string * string)
    : reduced (gmap string CharacterState) :=
  if inheritedName chars entry.1 then WroteToRuntime
  else Ended (emotionRecorded now event messageRange chars entry).

(** The store after the body of the loop over the witnesses of an event,
    for a witness whose name is not an inherited one. *)
Definition witnessRecorded (eventId : string)
    (chars : gmap string CharacterState) (witness : string)
    : gmap string CharacterState :=
  let chars :=
    match chars !! witness with
    | Some _ => chars
    | None => <[witness := newCharacterState witness]> chars
    end in
  match chars !! witness with
  | Some st =>
      if bool_decide (eventId ∈ known_events st) then chars
      else
        <[witness :=
            {| cs_name := cs_name st;
               current_emotion := current_emotion st;
               emotion_intensity := emotion_intensity st;
               known_events := known_events st ++ [eventId];
               emotion_history := emotion_history st;
               last_updated := last_updated st;
               emotion_from_messages := emotion_from_messages st |}]> chars
  | None => chars
  end.

(** The body of the loop over the witnesses of an event. Under an
    inherited name no state is created, and reading [known_events.includes]
    of what the prototype holds throws. *)
Definition recordWitness (eventId : string)
    (chars : gmap string CharacterState) (witness : string)
    : reduced (gmap string CharacterState) :=
  if inheritedName chars witness then Threw chars
  else Ended (witnessRecorded eventId chars witness).

(** One turn of the loop over the events. *)
Definition reduceEvent (now : Z) (chars : gmap string CharacterState)
    (event : Memory) : reduced (gmap string CharacterState) :=
  let messageIds := default [] (message_ids event) in
  let messageRange := messageRangeOf messageIds in
  andThen
    match emotional_impact event with
    | Some entries => forEach (recordEmotion now event messageRange) chars entries
    | None => Ended chars
    end
    (fun chars =>
       forEach (recordWitness (mem_id event)) chars
         (default [] (witnesses event))).

(** [updateCharacterStatesFromEvents(events, data)]: the vault when the
    call ends or throws. *)
Definition updateCharacterStatesFromEvents (now : Z) (events : list Memory)
    (data : Vault) : reduced Vault :=
  match forEach (reduceEvent now) (default ∅ (characters data)) events with
  | Ended chars => Ended (setCharacters chars data)
  | Threw chars => Threw (setCharacters chars data)
  | WroteToRuntime => WroteToRuntime
  end.

(** The store after a turn of the loop over the events that ends. *)
Definition eventReduced (now : Z) (chars : gmap string CharacterState)
    (event : Memory) : gmap string CharacterState :=
  let messageIds := default [] (message_ids event) in
  let messageRange := messageRangeOf messageIds in
  let chars :=
    match emotional_impact event with
    | Some entries =>
        foldl (emotionRecorded now event messageRange) chars entries
    | None => chars
    end in
  foldl (witnessRecorded (mem_id event)) chars (default [] (witnesses event)).

(* ===================================================================== *)
(** ** systems/secrets.js: filterMemoriesByKnowledge *)
(* ===================================================================== *)

(** [characterName] is [None] for [null]; the guard [!characterName] also
    takes the empty string. *)
Definition filterMemoriesByKnowledge (memories : list Memory)
    (characterName : option string) : list Memory :=
  match characterName with
  | None => memories
  | Some c =>
      if String.eqb c "" then memories
      else
        List.filter
          (fun memory =>
             if negb (is_secret memory) then true
             else match known_by memory with
                  | Some knowers => bool_decide (c ∈ knowers)
                  | None => false
                  end)
          memories
  end.

(* ===================================================================== *)
(** ** systems/locations.js *)
(* ===================================================================== *)

(** [.replace(/[^a-z0-9\s]/g, '')] *)
Fixpoint keepNameChars (s : string) : string :=
  match s with
  | EmptyString => EmptyString
  | String c s' =>
      if Str.isLower c || Str.isDigit c || Str.isSpace c
      then String c (keepNameChars s')
      else keepNameChars s'
  end.

(** [.replace(/\s+/g, '_')]; [inRun] says that the character before was
    white space. *)
Fixpoint underscoreRuns (inRun : bool) (s : string) : string :=
  match s with
  | EmptyString => EmptyString
  | String c s' =>
      if Str.isSpace c
      then if inRun then underscoreRuns true s'
           else String "_" (underscoreRuns true s')
      else String c (underscoreRuns false s')
  end.

Definition normalizeLocationName (name : string) : string :=
  underscoreRuns false (keepNameChars (Str.trim (Str.toLowerCase name))).

(** [data?.[LOCATIONS_KEY] || {}], for the vault [getOpenVaultData()]
    answers ([None] when no chat is open). *)
Definition getLocations (data : option Vault) : gmap string Location :=
  default ∅ (data ≫= locations).

Definition hasAlias (normalized : string) (loc : Location) : bool :=
  existsb (fun a => String.eqb (normalizeLocationName a) normalized)
    (aliases loc).

(** The location stored under the normalized name, else one that lists the
    name among its aliases, else [None] for [null]. Which of several
    locations with the alias is answered depends on the enumeration order of
    the object, which a [gmap] does not keep; the callers below only test
    the answer for [null]. *)
Definition getLocation (data : option Vault) (name : string)
    : option Location :=
  let locs := getLocations data in
  let normalized := normalizeLocationName name in
  match locs !! normalized with
  | Some loc => Some loc
  | None =>
      snd <$> List.find (fun kv => hasAlias normalized kv.2) (map_to_list locs)
  end.

(** [upsertLocation(name)], with the default empty options: the vault after
    the call and the location it answers. *)
Definition upsertLocation (now : Z) (data : option Vault) (name : string)
    : option Vault * option Location :=
  match data with
  | None => (None, None)
  | Some d =>
      let locs := default ∅ (locations d) in
      let normalized := normalizeLocationName name in
      match locs !! normalized with
      | Some existing =>
          let updated :=
            {| loc_id := loc_id existing; loc_name := loc_name existing;
               aliases := aliases existing;
               description := description existing;
               first_visit := first_visit existing;
               last_visit := now;
               visit_count := visit_count existing + 1;
               memory_ids := memory_ids existing;
               parent_location := parent_location existing;
               tags := tags existing |} in
          (Some (setLocations (<[normalized := updated]> locs) d),
           Some updated)
      | None =>
          let created :=
            {| loc_id := normalized; loc_name := Str.trim name;
               aliases := []; description := "";
               first_visit := now; last_visit := now; visit_count := 1;
               memory_ids := []; parent_location := None; tags := [] |} in
          (Some (setLocations (<[normalized := created]> locs) d),
           Some created)
      end
  end.

Definition pushMemoryId (memoryId : string) (loc : Location) : Location :=
  {| loc_id := loc_id loc; loc_name := loc_name loc; aliases := aliases loc;
     description := description loc; first_visit := first_visit loc;
     last_visit := last_visit loc; visit_count := visit_count loc;
     memory_ids := memory_ids loc ++ [memoryId];
     parent_location := parent_location loc; tags := tags loc |}.

(** [linkMemoryToLocation(memoryId, locationName)]: the vault after the
    call, and what the call does. Reading [memory_ids] of a location that
    is not stored under the normalized name throws. *)
Definition linkMemoryToLocation (now : Z) (data : option Vault)
    (memoryId locationName : string) : option Vault * outcome bool :=
  match data with
  | None => (None, Returns false)
  | Some _ =>
      let data :=
        match getLocation data locationName with
        | Some _ => data
        | None => (upsertLocation now data locationName).1
        end in
      let normalized := normalizeLocationName locationName in
      match data with
      | None => (data, Throws)
      | Some d =>
          match locations d with
          | None => (data, Throws)
          | Some locs =>
              match locs !! normalized with
              | None => (data, Throws)
              | Some loc =>
                  if bool_decide (memoryId ∈ memory_ids loc)
                  then (data, Returns true)
                  else
                    (Some (setLocations
                             (<[normalized := pushMemoryId memoryId loc]> locs)
                             d),
                     Returns true)
              end
          end
      end
  end.

(** The memory ids linked to the location stored under [key]. *)
Definition linkedMemories (data : option Vault) (key : string)
    : option (list string) :=
  memory_ids <$> (getLocations data !! key).

(* ===================================================================== *)
(** ** auto-hide.js *)
(* ===================================================================== *)

(** A chat message of the host; a field is [None] when the message does not
    have it. *)
Record ChatMessage : Type := {
  is_system : option bool;
  is_user : option bool;
  name : option string;
  mes : string;
}.

Record Settings : Type := {
  autoHideEnabled : bool;
  autoHideThreshold : option Z;
}.

(** [!m.is_system] *)
Definition isVisible (m : ChatMessage) : bool :=
  match is_system m with
  | Some true => false
  | _ => true
  end.

Definition setSystem (b : bool) (m : ChatMessage) : ChatMessage :=
  {| is_system := Some b; is_user := is_user m; name := name m;
     mes := mes m |}.

(** The indices of the visible messages of [chat], whose first message has
    index [start]. *)
Fixpoint visibleFrom (start : nat) (chat : list ChatMessage) : list nat :=
  match chat with
  | [] => []
  | m :: rest =>
      if isVisible m then start :: visibleFrom (S start) rest
      else visibleFrom (S start) rest
  end.

Definition visibleMessages (chat : list ChatMessage) : list nat :=
  visibleFrom 0 chat.

(** [settings.autoHideThreshold || 50] *)
Definition thresholdOf (settings : Settings) : Z :=
  match autoHideThreshold settings with
  | Some t => if t =? 0 then 50 else t
  | None => 50
  end.

(** [Math.floor(toHideCount / 2) * 2] *)
Definition messagesToHide (visibleCount threshold : Z) : Z :=
  (visibleCount - threshold) / 2 * 2.

(** What the hiding loop carries. *)
Record HideLoop : Type := {
  hl_chat : list ChatMessage;
  hiddenCount : nat;
  skippedCount : nat;
}.

(** The body of the hiding loop, for the visible message of index
    [msgIdx]. *)
Definition hideStep (extractedMessageIds : gset nat) (st : HideLoop)
    (msgIdx : nat) : HideLoop :=
  if bool_decide (msgIdx ∈ extractedMessageIds)
  then {| hl_chat := alter (setSystem true) msgIdx (hl_chat st);
          hiddenCount := S (hiddenCount st);
          skippedCount := skippedCount st |}
  else {| hl_chat := hl_chat st;
          hiddenCount := hiddenCount st;
          skippedCount := S (skippedCount st) |}.

(** [getExtractedMessageIds] is extraction/scheduler.js's, which is not
    among the sources: the set it answers is the argument
    [extractedMessageIds]. *)
Definition autoHideOldMessages (settings : Settings)
    (extractedMessageIds : gset nat) (chat : list ChatMessage) : HideLoop :=
  let unchanged :=
    {| hl_chat := chat; hiddenCount := 0; skippedCount := 0 |} in
  if negb (autoHideEnabled settings) then unchanged
  else
    let threshold := thresholdOf settings in
    let visible := visibleMessages chat in
    if Z.of_nat (length visible) <=? threshold then unchanged
    else
      let toHide := messagesToHide (Z.of_nat (length visible)) threshold in
      if toHide <=? 0 then unchanged
      else
        foldl (hideStep extractedMessageIds) unchanged
          (take (Z.to_nat toHide) visible).

(** What [unhideMessagesForBranch] answers. *)
Record UnhideResult : Type := {
  unhiddenCount : nat;
  rehiddenCount : nat;
}.

(** [chat[i].is_user !== undefined || chat[i].name !== undefined] *)
Definition isAutoHidden (m : ChatMessage) : bool :=
  bool_decide (is_user m ≠ None) || bool_decide (name m ≠ None).

(** The messages the first pass of [unhideMessagesForBranch] unmarks. *)
Definition unhides (m : ChatMessage) : bool :=
  bool_decide (is_system m = Some true) && isAutoHidden m.

(** The chat after the call, and the counts it answers. *)
Definition unhideMessagesForBranch (chat : list ChatMessage)
    : list ChatMessage * UnhideResult :=
  match chat with
  | [] => (chat, {| unhiddenCount := 0; rehiddenCount := 0 |})
  | _ =>
      (List.map (fun m => if unhides m then setSystem false m else m) chat,
       {| unhiddenCount := length (List.filter unhides chat);
          rehiddenCount := 0 |})
  end.

(** The indices from [start] on at which [P] holds of the messages of the
    chat before and after a call. *)
Fixpoint changedFrom (P : ChatMessage -> ChatMessage -> bool) (start : nat)
    (before after : list ChatMessage) : list nat :=
  match before, after with
  | m :: before', m' :: after' =>
      if P m m' then start :: changedFrom P (S start) before' after'
      else changedFrom P (S start) before' after'
  | _, _ => []
  end.

(** The messages a call hid: visible before, not visible after. *)
Definition newlyHidden (before after : list ChatMessage) : list nat :=
  changedFrom (fun m m' => isVisible m && negb (isVisible m')) 0 before after.

(** The messages a call made visible again. *)
Definition newlyShown (before after : list ChatMessage) : list nat :=
  changedFrom (fun m m' => negb (isVisible m) && isVisible m') 0 before after.




(* ===================================================================== *)
(** ** Predicates and sample data of the statements *)
(* ===================================================================== *)

Definition inRange (v : Z) : Prop := 0 ≤ v ≤ 10.

(** The seven dimensions of a relationship lie in 0..10. *)
Definition dimensionsInRange (r : Relationship) : Prop :=
  inRange (trust_level r) ∧ inRange (tension_level r) ∧
  inRange (respect_level r) ∧ inRange (attraction_level r) ∧
  inRange (fear_level r) ∧ inRange (loyalty_level r) ∧
  inRange (familiarity_level r).

(** An [if / else if] block of [applyLegacyImpact]: one step up, capped at
    10, when [up]; else one step down, floored at 0, when [down]. *)
Definition bump (up down : bool)
    (get : Relationship -> Z) (set : Z -> Relationship -> Relationship)
    (rel : Relationship) : Relationship :=
  if up then set (Z.min 10 (get rel + 1)) rel
  else if down then set (Z.max 0 (get rel - 1)) rel
  else rel.

Definition preservesRange (f : Relationship -> Relationship) : Prop :=
  ∀ r, dimensionsInRange r → dimensionsInRange (f r).

(** Impacts of both formats. *)
Definition sampleImpacts : list jsval :=
  [ JStr "Trust deepens between them";
    JObj [("change", JStr "a quarrel"); ("trust", JNum (-40));
          ("tension", JNum 25)];
    JStr "Lost respect, fear and betrayal";
    JNum 3 ].

(** The legacy impact of the scenario of the specification. *)
Definition trustDeepens : string := "Trust deepens between them".

(** The importance of each event a call returned. *)
Definition importances (r : outcome (list ExtractedEvent)) : list number :=
  match r with
  | Returns es => List.map ev_importance es
  | Throws => []
  end.

(** JSON text, written here with ['] where the text has a double quote. *)
Fixpoint jsonText (s : string) : string :=
  match s with
  | EmptyString => EmptyString
  | String c s' =>
      String (if Ascii.eqb c "'" then ascii_of_nat 34 else c) (jsonText s')
  end.

(** An extraction output whose event rates its importance in words. *)
Definition wordyText : string :=
  jsonText "[{'summary':'Alice confides in Bob','importance':'high'}]".

Definition wordyParsed : jsval :=
  JArr [JObj [("summary", JStr "Alice confides in Bob");
              ("importance", JStr "high")]].

(** An extraction output that is an array holding [null]. *)
Definition nullArrayText : string := "[null]".

Definition twoEventsText : string :=
  jsonText "[{'summary':'a','importance':9},{'summary':'b'}]".

Definition twoEventsParsed : jsval :=
  JArr [JObj [("summary", JStr "a"); ("importance", JNum 9)];
        JObj [("summary", JStr "b")]].

Definition oneEventText : string := jsonText "{'summary':'c'}".

Definition oneEventParsed : jsval := JObj [("summary", JStr "c")].

(** A parser that reads the sample texts as [JSON.parse] reads the JSON
    they stand for, and no other text. *)
Definition sampleParser : string -> jsval :=
  parseTable [ (wordyText, wordyParsed);
               (nullArrayText, JArr [JNull]);
               (twoEventsText, twoEventsParsed);
               (oneEventText, oneEventParsed) ].

Definition messagesFrom (first : Z) : list SourceMessage :=
  [ {| msg_id := first + 1; msg_text := "second" |};
    {| msg_id := first; msg_text := "first" |} ].

Definition notNullish (v : jsval) : Prop := JS.isNullish v = false.

(** A secret memory that only Alice knows, and a memory that is no secret. *)
Definition aliceSecret : Memory :=
  {| mem_id := "m1"; summary := "Alice hides the letter";
     event_type := "revelation"; witnesses := Some ["Alice"];
     location := None; is_secret := true; known_by := Some ["Alice"];
     importance := 4; emotional_tone := None; emotional_valence := 0;
     emotional_impact := None; message_ids := Some [3; 4];
     pinned := false |}.

Definition openMemory : Memory :=
  {| mem_id := "m2"; summary := "Bob arrives at the inn";
     event_type := "action"; witnesses := Some ["Alice"; "Bob"];
     location := Some "inn"; is_secret := false; known_by := None;
     importance := 2; emotional_tone := None; emotional_valence := 0;
     emotional_impact := None; message_ids := Some [5];
     pinned := false |}.

(** [characterName] may see [memory]: it is no secret, or the character is
    among those who know it. *)
Definition visibleTo (characterName : string) (memory : Memory) : Prop :=
  is_secret memory = false ∨
  ∃ knowers, known_by memory = Some knowers ∧ characterName ∈ knowers.

(** The number of entries of a character's emotion history. *)
Definition historyLength (st : CharacterState) : nat :=
  length (default [] (emotion_history st)).

(** No character has more than [MAX_EMOTION_HISTORY] history entries. *)
Definition historiesBounded (chars : gmap string CharacterState) : Prop :=
  ∀ charName st,
    chars !! charName = Some st → (historyLength st ≤ MAX_EMOTION_HISTORY)%nat.

(** The history [chars] holds for [charName]; empty when there is none. *)
Definition historyOf (chars : gmap string CharacterState)
    (charName : string) : list EmotionHistoryEntry :=
  default [] (chars !! charName ≫= emotion_history).

(** An event that moves Alice and Bob, witnessed by both. *)
Definition innEvent : Memory :=
  {| mem_id := "m7"; summary := "A quarrel at the inn";
     event_type := "emotion_shift"; witnesses := Some ["Alice"; "Bob"];
     location := Some "inn"; is_secret := false; known_by := None;
     importance := 3; emotional_tone := Some ["tense"];
     emotional_valence := -1;
     emotional_impact := Some [("Alice", "angry"); ("Bob", "ashamed")];
     message_ids := Some [8; 9]; pinned := false |}.

Definition emptyVault : Vault :=
  {| memories := []; characters := None; locations := None |}.

(** No location lists a memory id twice. *)
Definition locationsNoDup (data : option Vault) : Prop :=
  ∀ key loc, getLocations data !! key = Some loc → NoDup (memory_ids loc).

(** [memoryId] is linked to the location stored under [key]. *)
Definition linkedAt (data : option Vault) (key memoryId : string) : Prop :=
  ∃ ids, linkedMemories data key = Some ids ∧ memoryId ∈ ids.

(** A vault with an inn to which memory [m1] is linked. *)
Definition innLocation : Location :=
  {| loc_id := "the_inn"; loc_name := "The Inn"; aliases := ["The Pub"];
     description := ""; first_visit := 10; last_visit := 20;
     visit_count := 2; memory_ids := ["m1"]; parent_location := None;
     tags := [] |}.

Definition innVault : Vault :=
  {| memories := []; characters := None;
     locations := Some {[ "the_inn" := innLocation ]} |}.

(** A chat message of a user, visible. *)
Definition userMessage (text : string) : ChatMessage :=
  {| is_system := Some false; is_user := Some true; name := Some "User";
     mes := text |}.


(** Sixty visible messages, all of them extracted, and threshold 50. *)
Definition sixtyMessages : list ChatMessage := replicate 60 (userMessage "hi").

Definition sixtyExtracted : gset nat := list_to_set (seq 0 60).

Definition thresholdFifty : Settings :=
  {| autoHideEnabled := true; autoHideThreshold := Some 50 |}.


(* ===================================================================== *)
(** ** Further predicates and sample data of the statements *)
(* ===================================================================== *)

(** The ids of the messages are indices of a chat for which
    [min * 1000 + index], for an index below 1000, is below 2^53: the
    arithmetic of the numbers of JavaScript is exact there. *)
Definition safeMessageIds (messages : list SourceMessage) : Prop :=
  ∀ m, m ∈ messages → 0 ≤ msg_id m ≤ 9007199254739.

(** Ids [e100], [e101], ..., which [sampleId] does not draw for the first
    hundred events. *)
Definition laterId (i : nat) : string := sampleId (i + 100).

(** Sixty-one visible messages, all of them extracted, and settings that
    leave the threshold to its default. *)
Definition sixtyOneMessages : list ChatMessage :=
  replicate 61 (userMessage "hi").

Definition sixtyOneExtracted : gset nat := list_to_set (seq 0 61).

Definition defaultThreshold : Settings :=
  {| autoHideEnabled := true; autoHideThreshold := None |}.

(** [P] holds of what a loop leaves, when it ends and when it throws. *)
Definition afterwards {A : Type} (P : A → Prop) (r : reduced A) : Prop :=
  match r with
  | Ended a | Threw a => P a
  | WroteToRuntime => True
  end.

(** No character that the event moves and no witness of it has the name of
    a property of [Object.prototype]. *)
Definition ordinaryNames (event : Memory) : Prop :=
  (∀ entry, entry ∈ default [] (emotional_impact event) →
            entry.1 ∉ prototypeNames) ∧
  (∀ witness, witness ∈ default [] (witnesses event) →
              witness ∉ prototypeNames).

(** The event of id [e<i>] that makes Alice angry, seen by her. *)
Definition angerEvent (i : nat) : Memory :=
  {| mem_id := sampleId i; summary := "Alice loses her temper";
     event_type := "emotion_shift"; witnesses := Some ["Alice"];
     location := None; is_secret := false; known_by := None;
     importance := 3; emotional_tone := None; emotional_valence := -1;
     emotional_impact := Some [("Alice", "angry")];
     message_ids := Some [Z.of_nat i]; pinned := false |}.

(** Fifty-one such events, [e0] to [e50]. *)
Definition fiftyOneEvents : list Memory := angerEvent <$> seq 0 51.

(** An event seen by a character called [constructor]. *)
Definition constructorEvent : Memory :=
  {| mem_id := "m8"; summary := "The constructor looks on";
     event_type := "action"; witnesses := Some ["constructor"];
     location := None; is_secret := false; known_by := None;
     importance := 3; emotional_tone := None; emotional_valence := 0;
     emotional_impact := None; message_ids := Some [10]; pinned := false |}.




(* ===================================================================== *)
(** ** Further predicates: what the characters know *)
(* ===================================================================== *)

(** No character lists an event twice among its known events. *)
Definition knownEventsNoDup (chars : gmap string CharacterState) : Prop :=
  ∀ charName st, chars !! charName = Some st → NoDup (known_events st).

(** [charName] has a state that lists [eventId] among its known events. *)
Definition knowsEvent (chars : gmap string CharacterState)
    (charName eventId : string) : Prop :=
  ∃ st, chars !! charName = Some st ∧ eventId ∈ known_events st.

(* ===================================================================== *)
(** ** Further predicates: chats *)
(* ===================================================================== *)


(** [m'] is [m] but for the visibility flag. *)
Definition sameButFlag (m m' : ChatMessage) : Prop :=
  is_user m' = is_user m ∧ name m' = name m ∧ mes m' = mes m.

(* ===================================================================== *)
(** ** systems/secrets.js: the secrets *)
(* ===================================================================== *)

Module Secret.

(** A secret, as the head of the file documents it; [revealed_at] is [None]
    for [null]. *)
Record t : Type := {
  id : string;
  content : string;
  known_by : list string;
  created_at : Z;
  source_memory_id : option string;
  revealed_at : option Z;
  importance : Z;
  tags : list string;
}.


Definition setRevealedAt (r : option Z) (s : t) : t :=
  {| id := id s; content := content s; known_by := known_by s;
     created_at := created_at s; source_memory_id := source_memory_id s;
     revealed_at := r; importance := importance s; tags := tags s |}.

(** [s.revealed_at] is truthy: a time stamp other than 0. *)
Definition revealed (s : t) : Prop :=
  match revealed_at s with
  | Some time => time ≠ 0
  | None => False
  end.

#[global] Instance revealed_dec s : Decision (revealed s).
Proof. unfold revealed. destruct (revealed_at s); apply _. Defined.

(** The argument of [createSecret]; a field is [None] when it is missing
    or falsy. *)
Record data : Type := {
  d_content : string;
  d_known_by : option (list string);
  d_source_memory_id : option string;
  d_importance : option Z;
  d_tags : option (list string);
}.

End Secret.

(** The sections of the vault that hold secrets and relationships; a
    section is [None] until it is first written. *)
Record Stores : Type := {
  secrets : option (gmap string Secret.t);
  relationships : option (gmap string Relationship);
}.

Definition setSecrets (s : gmap string Secret.t) (data : Stores) : Stores :=
  {| secrets := Some s; relationships := relationships data |}.

Definition setRelationships (r : gmap string Relationship) (data : Stores)
    : Stores :=
  {| secrets := secrets data; relationships := Some r |}.

(** [Object.values(o)] of a dictionary; the order of enumeration is not
    that of the object, and the statements below do not depend on it. *)
Definition values {A : Type} (o : gmap string A) : list A :=
  (map_to_list o).*2.

(** [data?.[SECRETS_KEY] || {}] *)
Definition getSecrets (data : option Stores) : gmap string Secret.t :=
  default ∅ (data ≫= secrets).

Definition getSecretsKnownBy (data : option Stores) (characterName : string)
    : list Secret.t :=
  filter
    (fun s => (characterName ∈ Secret.known_by s) ∧ ¬ Secret.revealed s)
    (values (getSecrets data)).

Definition getSecretsUnknownTo (data : option Stores)
    (characterName : string) : list Secret.t :=
  filter
    (fun s => (characterName ∉ Secret.known_by s) ∧ ¬ Secret.revealed s)
    (values (getSecrets data)).

(** [createSecret(secretData)]; [newId] is the id [generateSecretId()]
    draws and [now] is [Date.now()]. *)
Definition createSecret (newId : string) (now : Z) (data : option Stores)
    (secretData : Secret.data) : option Stores * option Secret.t :=
  match data with
  | None => (None, None)
  | Some d =>
      let secret :=
        {| Secret.id := newId;
           Secret.content := Secret.d_content secretData;
           Secret.known_by := default [] (Secret.d_known_by secretData);
           Secret.created_at := now;
           Secret.source_memory_id := Secret.d_source_memory_id secretData;
           Secret.revealed_at := None;
           Secret.importance :=
             match Secret.d_importance secretData with
             | Some i => if i =? 0 then 3 else i
             | None => 3
             end;
           Secret.tags := default [] (Secret.d_tags secretData) |} in
      (Some (setSecrets (<[newId := secret]> (default ∅ (secrets d))) d),
       Some secret)
  end.

(** The secret stored under [secretId], for the guard
    [!data?.[SECRETS_KEY]?.[secretId]]. *)
Definition findSecret (data : option Stores) (secretId : string)
    : option Secret.t :=
  match data with
  | Some d =>
      match secrets d with
      | Some s => s !! secretId
      | None => None
      end
  | None => None
  end.

Definition storeSecret (data : option Stores) (secretId : string)
    (s : Secret.t) : option Stores :=
  (fun d => setSecrets (<[secretId := s]> (default ∅ (secrets d))) d)
    <$> data.


Definition revealSecretPublicly (now : Z) (data : option Stores)
    (secretId : string) : option Stores * bool :=
  match findSecret data secretId with
  | None => (data, false)
  | Some secret =>
      (storeSecret data secretId (Secret.setRevealedAt (Some now) secret),
       true)
  end.

Definition deleteSecret (data : option Stores) (secretId : string)
    : option Stores * bool :=
  match findSecret data secretId with
  | None => (data, false)
  | Some _ =>
      ((fun d => setSecrets (delete secretId (default ∅ (secrets d))) d)
         <$> data,
       true)
  end.

(** [memories.find(m => m.id === memoryId)], with the index of the memory
    found. *)
Fixpoint findMemory (memoryId : string) (memories : list Memory)
    : option (nat * Memory) :=
  match memories with
  | [] => None
  | m :: rest =>
      if String.eqb (mem_id m) memoryId then Some (0%nat, m)
      else (fun r => (S r.1, r.2)) <$> findMemory memoryId rest
  end.

Definition setSecrecy (secret : bool) (knowers : option (list string))
    (m : Memory) : Memory :=
  {| mem_id := mem_id m; summary := summary m; event_type := event_type m;
     witnesses := witnesses m; location := location m;
     is_secret := secret; known_by := knowers;
     importance := importance m; emotional_tone := emotional_tone m;
     emotional_valence := emotional_valence m;
     emotional_impact := emotional_impact m; message_ids := message_ids m;
     pinned := pinned m |}.

Definition setMemories (l : list Memory) (data : Vault) : Vault :=
  {| memories := l; characters := characters data;
     locations := locations data |}.

Definition markMemoryAsSecret (data : option Vault) (memoryId : string)
    (knownBy : list string) : option Vault * bool :=
  match data with
  | None => (data, false)
  | Some d =>
      match findMemory memoryId (memories d) with
      | None => (data, false)
      | Some (i, m) =>
          (Some (setMemories
                   (<[i := setSecrecy true (Some knownBy) m]> (memories d)) d),
           true)
      end
  end.

Definition unmarkMemoryAsSecret (data : option Vault) (memoryId : string)
    : option Vault * bool :=
  match data with
  | None => (data, false)
  | Some d =>
      match findMemory memoryId (memories d) with
      | None => (data, false)
      | Some (i, m) =>
          (Some (setMemories
                   (<[i := setSecrecy false None m]> (memories d)) d),
           true)
      end
  end.

(** What the argument to [createSecret] says of a secret told to Alice. *)
Definition letterSecret : Secret.data :=
  {| Secret.d_content := "The letter is forged";
     Secret.d_known_by := Some ["Alice"];
     Secret.d_source_memory_id := Some "m1";
     Secret.d_importance := None;
     Secret.d_tags := None |}.

Definition emptyStores : Stores :=
  {| secrets := None; relationships := None |}.

(** The stores after the secret of the letter was created under [s1]. *)
Definition letterStores : option Stores :=
  (createSecret "s1" 100 (Some emptyStores) letterSecret).1.

(** A vault that holds the two sample memories. *)
Definition twoMemories : Vault :=
  {| memories := [openMemory; aliceSecret]; characters := None;
     locations := None |}.

(* ===================================================================== *)
(** ** systems/locations.js: the other functions *)
(* ===================================================================== *)

(** [getMemoriesAtLocation(locationName)] *)
Definition getMemoriesAtLocation (data : option Vault)
    (locationName : string) : list Memory :=
  match data with
  | None => []
  | Some d =>
      match getLocation data locationName with
      | None => []
      | Some loc =>
          List.filter (fun m => bool_decide (mem_id m ∈ memory_ids loc))
            (memories d)
      end
  end.




Definition pushAlias (alias : string) (loc : Location) : Location :=
  {| loc_id := loc_id loc; loc_name := loc_name loc;
     aliases := aliases loc ++ [alias];
     description := description loc; first_visit := first_visit loc;
     last_visit := last_visit loc; visit_count := visit_count loc;
     memory_ids := memory_ids loc;
     parent_location := parent_location loc; tags := tags loc |}.


Definition deleteLocation (data : option Vault) (locationName : string)
    : option Vault * bool :=
  match data with
  | None => (data, false)
  | Some d =>
      match locations d with
      | None => (data, false)
      | Some locs =>
          let normalized := normalizeLocationName locationName in
          match locs !! normalized with
          | None => (data, false)
          | Some _ => (Some (setLocations (delete normalized locs) d), true)
          end
      end
  end.



(** The characters of a normalized name: small letters, digits and the
    underscore. *)
Definition nameChar (c : ascii) : bool :=
  Str.isLower c || Str.isDigit c || Ascii.eqb c "_".

(** [s] begins with an underscore. *)
Definition startsUnderscore (s : string) : bool :=
  match s with
  | String c _ => Ascii.eqb c "_"
  | EmptyString => false
  end.

(** A vault with the inn and the memory [m1] that is linked to it. *)
Definition innMemoryVault : Vault :=
  {| memories := [aliceSecret; openMemory]; characters := None;
     locations := Some {[ "the_inn" := innLocation ]} |}.

(* ===================================================================== *)
(** ** Regular expressions *)
(* ===================================================================== *)

Module Regex.

(** How often an item of a pattern may match: once, [*], [+] or [+?]. *)
Inductive quantifier : Type :=
| Once
| StarGreedy
| PlusGreedy
| PlusLazy.

(** An item of a pattern: a class of characters and its quantifier. *)
Record item : Type := {
  cls : ascii → bool;
  quant : quantifier;
}.

(** [cls*] followed by the rest of the pattern, [k]: the longest run is
    tried first, and a shorter one when the rest does not match. The answer
    is the run taken and what [k] answers. *)
Fixpoint greedy {A : Type} (cls : ascii → bool) (k : string → option A)
    (s : string) : option (string * A) :=
  match s with
  | String c s' =>
      if cls c then
        match greedy cls k s' with
        | Some (taken, a) => Some (String c taken, a)
        | None => pair EmptyString <$> k s
        end
      else pair EmptyString <$> k s
  | EmptyString => pair EmptyString <$> k s
  end.

(** [cls*?] followed by [k]: the shortest run is tried first. *)
Fixpoint lazy {A : Type} (cls : ascii → bool) (k : string → option A)
    (s : string) : option (string * A) :=
  match k s with
  | Some a => Some (EmptyString, a)
  | None =>
      match s with
      | String c s' =>
          if cls c
          then (fun r => (String c r.1, r.2)) <$> lazy cls k s'
          else None
      | EmptyString => None
      end
  end.

(** One character of the class, then [run] on what follows. *)
Definition oneThen {A : Type} (cls : ascii → bool)
    (run : string → option (string * A)) (s : string)
    : option (string * A) :=
  match s with
  | String c s' =>
      if cls c then (fun r => (String c r.1, r.2)) <$> run s' else None
  | EmptyString => None
  end.

(** A pattern between [^] and [$] against all of [s], by backtracking in
    the order of the engine; the answer lists what each item matched. *)
Fixpoint matchItems (items : list item) (s : string) : option (list string) :=
  match items with
  | [] => match s with EmptyString => Some [] | _ => None end
  | it :: rest =>
      (fun r => r.1 :: r.2) <$>
      match quant it with
      | Once => oneThen (cls it) (fun s' => pair EmptyString <$> matchItems rest s') s
      | StarGreedy => greedy (cls it) (matchItems rest) s
      | PlusGreedy => oneThen (cls it) (greedy (cls it) (matchItems rest)) s
      | PlusLazy => oneThen (cls it) (lazy (cls it) (matchItems rest)) s
      end
  end.

(** [.]: every character but a line break. *)
Definition dot (c : ascii) : bool :=
  negb (Ascii.eqb c "010" || Ascii.eqb c "013").

End Regex.

(* ===================================================================== *)
(** ** extraction/parser.js: updateRelationshipsFromEvents *)
(* ===================================================================== *)

(** [/^(.+?)\s*->\s*(.+)$/] *)
Definition relationKeyPattern : list Regex.item :=
  [ {| Regex.cls := Regex.dot; Regex.quant := Regex.PlusLazy |};
    {| Regex.cls := Str.isSpace; Regex.quant := Regex.StarGreedy |};
    {| Regex.cls := Ascii.eqb "-"; Regex.quant := Regex.Once |};
    {| Regex.cls := Ascii.eqb ">"; Regex.quant := Regex.Once |};
    {| Regex.cls := Str.isSpace; Regex.quant := Regex.StarGreedy |};
    {| Regex.cls := Regex.dot; Regex.quant := Regex.PlusGreedy |} ].

(** [relationKey.match(...)]: the two groups, or [None] for [null]. *)
Definition matchRelationKey (relationKey : string) : option (string * string) :=
  match Regex.matchItems relationKeyPattern relationKey with
  | Some [charA; _; _; _; _; charB] => Some (charA, charB)
  | _ => None
  end.

(** [[charA, charB].sort()]: the order of the strings by their code
    units. *)
Definition sortedNames (charA charB : string) : string * string :=
  if String.ltb charB charA then (charB, charA) else (charA, charB).

Definition relationshipKey (names : string * string) : string :=
  String.append names.1 (String.append "<->" names.2).

Fixpoint entriesFrom (seen : list string) (o : list (string * jsval))
    : list (string * jsval) :=
  match o with
  | [] => []
  | (k, v) :: o' =>
      if bool_decide (k ∈ seen) then entriesFrom seen o'
      else (k, v) :: entriesFrom (k :: seen) o'
  end.

(** [Object.entries(v)] for a [v] that is neither [null] nor [undefined]:
    the properties of an object, the elements of an array and the
    characters of a string under their indices, nothing for a number or a
    boolean. *)
Definition entries (v : jsval) : list (string * jsval) :=
  match v with
  | JObj o => entriesFrom [] o
  | JArr l => imap (fun i e => (Str.ofZ (Z.of_nat i), e)) l
  | JStr s =>
      imap (fun i c => (Str.ofZ (Z.of_nat i), JStr (String c EmptyString)))
        (list_ascii_of_string s)
  | _ => []
  end.

(** [Math.max(...event.message_ids)] when there is an id, else [null]. *)
Definition lastMessageId (messageIds : list Z) : option Z :=
  match messageIds with
  | [] => None
  | x :: xs => Some (foldl Z.max x xs)
  end.

(** The end of the loop body: the entry pushed to the history, and the
    message of the last update. *)
Definition pushHistory (entry : RelationshipHistoryEntry)
    (rel : Relationship) : Relationship :=
  {| character_a := character_a rel; character_b := character_b rel;
     trust_level := trust_level rel; tension_level := tension_level rel;
     respect_level := respect_level rel;
     attraction_level := attraction_level rel;
     fear_level := fear_level rel; loyalty_level := loyalty_level rel;
     familiarity_level := familiarity_level rel;
     relationship_type := relationship_type rel;
     history := history rel ++ [entry];
     last_updated_message_id :=
       match rh_message_id entry with
       | Some messageId => Some messageId
       | None => last_updated_message_id rel
       end |}.

(** The body of the loop over [Object.entries(event.relationship_impact)]. *)
Definition recordImpact (now : Z) (event : ExtractedEvent)
    (rels : gmap string Relationship) (entry : string * jsval)
    : gmap string Relationship :=
  let relationKey := entry.1 in
  let impact := entry.2 in
  match matchRelationKey relationKey with
  | None => rels
  | Some (charA, charB) =>
      let names := sortedNames charA charB in
      let key := relationshipKey names in
      let rel := default (newRelationship names.1 names.2) (rels !! key) in
      let rel := applyImpact rel impact in
      <[key :=
          pushHistory
            {| rh_event_id := ev_id event; rh_impact := impact;
               rh_timestamp := now;
               rh_message_id := lastMessageId (ev_message_ids event);
               rh_direction := String.append charA (String.append "->" charB)
            |} rel]> rels
  end.

(** One turn of the loop over the events. *)
Definition recordImpacts (now : Z) (rels : gmap string Relationship)
    (event : ExtractedEvent) : gmap string Relationship :=
  if JS.truthy (ev_relationship_impact event)
  then foldl (recordImpact now event) rels
         (entries (ev_relationship_impact event))
  else rels.

Definition updateRelationshipsFromEvents (now : Z)
    (events : list ExtractedEvent) (data : Stores) : Stores :=
  setRelationships
    (foldl (recordImpacts now) (default ∅ (relationships data)) events) data.

(** Every stored relationship has its dimensions in 0..10. *)
Definition relationshipsInRange (rels : gmap string Relationship) : Prop :=
  ∀ key rel, rels !! key = Some rel → dimensionsInRange rel.

(** Every relationship is stored under the key made of its two names, and
    the names are in order. *)
Definition keyedByNames (rels : gmap string Relationship) : Prop :=
  ∀ key rel, rels !! key = Some rel →
    key = relationshipKey (character_a rel, character_b rel) ∧
    String.ltb (character_b rel) (character_a rel) = false.

(** An event that [parseExtractionResult] makes of one object. *)
Definition eventOf (index : nat) (messageIds : list Z) (event : jsval)
    : list ExtractedEvent :=
  match enrichEvent sampleId 100 messageIds (JS.minOf messageIds) None
          index event with
  | Returns e => [e]
  | Throws => []
  end.

(** Two events on Alice and Bob: a legacy impact from Alice, and a
    structured one from Bob with deltas beyond the range. *)
Definition quarrelEvents : list ExtractedEvent :=
  eventOf 0 [3; 4]
    (JObj [("summary", JStr "Alice confides in Bob");
           ("relationship_impact",
            JObj [("Alice->Bob", JStr "Trust deepens between them")])])
  ++
  eventOf 1 [5]
    (JObj [("summary", JStr "Bob lets her down");
           ("relationship_impact",
            JObj [("Bob -> Alice",
                   JObj [("trust", JNum (-40)); ("tension", JNum 25)]);
                  ("no arrow here", JStr "Trust increases")])]).

(** What an impact leaves as it is: the names, the type, the history and
    the message of the last update. *)
Definition frame (rel : Relationship)
    : string * string * string * list RelationshipHistoryEntry * option Z :=
  (character_a rel, character_b rel, relationship_type rel, history rel,
   last_updated_message_id rel).

Definition keepsFrame (f : Relationship → Relationship) : Prop :=
  ∀ rel, frame (f rel) = frame rel.

(** Every character of [s] is of the class. *)
Fixpoint allChars (cls : ascii → bool) (s : string) : bool :=
  match s with
  | EmptyString => true
  | String c s' => cls c && allChars cls s'
  end.

(** A character of a plain name: no white space and no hyphen. *)
Definition plainChar (c : ascii) : bool :=
  negb (Str.isSpace c) && negb (Ascii.eqb "-" c).

Definition plainName (s : string) : Prop :=
  s ≠ EmptyString ∧ allChars plainChar s = true.

(** What an item of a pattern may match: characters of its class, as many
    as its quantifier allows. *)
Definition matchedBy (it : Regex.item) (s : string) : Prop :=
  allChars (Regex.cls it) s = true ∧
  match Regex.quant it with
  | Regex.Once => String.length s = 1%nat
  | Regex.StarGreedy => True
  | Regex.PlusGreedy | Regex.PlusLazy => s ≠ EmptyString
  end.

(** An event with the default of every field the model may leave out. *)
Definition plainEvent (id : string) (messageIds : list Z) : ExtractedEvent :=
  {| ev_id := JStr id; ev_source := JObj []; ev_message_ids := messageIds;
     ev_sequence := JS.mulFin (JS.minOf messageIds) 1000;
     ev_created_at := 100; ev_batch_id := None;
     ev_characters_involved := JArr []; ev_witnesses := JArr [];
     ev_location := JNull; ev_is_secret := JBool false;
     ev_known_by := JNull; ev_importance := Fin 3;
     ev_emotional_tone := JArr []; ev_emotional_valence := 0;
     ev_emotional_impact := JObj []; ev_relationship_impact := JObj [];
     ev_promise := JNull; ev_goal := JNull; ev_skill := JNull;
     ev_pinned := false |}.

(* ===================================================================== *)
(** ** utils/dom.js: escapeHtml *)
(* ===================================================================== *)

(** [s.replace(/c/g, rep)] for a pattern of the one character [c]. *)
Fixpoint replaceChar (c : ascii) (rep : string) (s : string) : string :=
  match s with
  | EmptyString => EmptyString
  | String x s' =>
      if Ascii.eqb x c then rep +:+ replaceChar c rep s'
      else String x (replaceChar c rep s')
  end.

(** The double quote. *)
Definition doubleQuote : ascii := ascii_of_nat 34.

Definition escapeHtml (str : jsval) : string :=
  if negb (JS.truthy str) then EmptyString
  else
    replaceChar "'" "&#039;"
      (replaceChar doubleQuote "&quot;"
         (replaceChar ">" "&gt;"
            (replaceChar "<" "&lt;"
               (replaceChar "&" "&amp;" (JS.toString str))))).

(** The characters that begin or end a tag or an attribute value. *)
Definition markupChar (c : ascii) : bool :=
  Ascii.eqb c "<" || Ascii.eqb c ">" || Ascii.eqb c doubleQuote
  || Ascii.eqb c "'".

(** What [escapeHtml] writes for one character. *)
Definition escapeChar (c : ascii) : string :=
  if Ascii.eqb c "&" then "&amp;"
  else if Ascii.eqb c "<" then "&lt;"
  else if Ascii.eqb c ">" then "&gt;"
  else if Ascii.eqb c doubleQuote then "&quot;"
  else if Ascii.eqb c "'" then "&#039;"
  else String c EmptyString.

Fixpoint escapeChars (s : string) : string :=
  match s with
  | EmptyString => EmptyString
  | String c s' => escapeChar c +:+ escapeChars s'
  end.

(* ===================================================================== *)
(** ** systems/secrets.js: getSecretsSummary *)
(* ===================================================================== *)






From Stdlib Require DecimalZ DecimalPos.


(* ===================================================================== *)
(** ** systems/promises.js *)
(* ===================================================================== *)

Module Promise.

(** A stored promise. What [processPromisesFromEvents] copies from the
    output of the model keeps the value found there. *)
Record t : Type := {
  id : string;
  from : jsval;
  to : jsval;
  content : jsval;
  context : jsval;
  made_at : Z;
  made_at_message : Z;
  deadline : jsval;
  status : string;
  status_changed_at : option Z;
  importance : number;
  source_memory_id : jsval;
  tags : list string;
}.

Definition setStatus (newStatus : string) (changed : Z) (p : t) : t :=
  {| id := id p; from := from p; to := to p; content := content p;
     context := context p; made_at := made_at p;
     made_at_message := made_at_message p; deadline := deadline p;
     status := newStatus; status_changed_at := Some changed;
     importance := importance p; source_memory_id := source_memory_id p;
     tags := tags p |}.

End Promise.

(** [v === s] for a string [s]. *)
Definition isString (v : jsval) (s : string) : Prop :=
  match v with
  | JStr x => x = s
  | _ => False
  end.

#[global] Instance isString_dec v s : Decision (isString v s).
Proof. unfold isString. destruct v; apply _. Defined.

(** [Object.values(PromiseStatus)] *)
Definition promiseStatuses : list string :=
  ["pending"; "fulfilled"; "broken"; "forgiven"; "expired"].

(** The section of the vault that holds the promises; [None] until it is
    first written. *)
Record PromiseStore : Type := {
  promises : option (gmap string Promise.t);
}.

(** [data?.[PROMISES_KEY] || {}] *)
Definition getPromises (data : option PromiseStore)
    : gmap string Promise.t :=
  default ∅ (data ≫= promises).

(** [status === null || p.status === status] *)
Definition hasStatus (status : option string) (p : Promise.t) : Prop :=
  match status with
  | None => True
  | Some s => Promise.status p = s
  end.

#[global] Instance hasStatus_dec status p : Decision (hasStatus status p).
Proof. unfold hasStatus. destruct status; apply _. Defined.


Definition getPromisesMadeTo (data : option PromiseStore)
    (characterName : string) (status : option string) : list Promise.t :=
  filter (fun p => isString (Promise.to p) characterName ∧ hasStatus status p)
    (values (getPromises data)).

(** The test of [getPendingPromisesFor]. *)
Definition pendingFor (characterName : string) (p : Promise.t) : Prop :=
  Promise.status p = "pending" ∧
  (isString (Promise.from p) characterName ∨
   isString (Promise.to p) characterName).

#[global] Instance pendingFor_dec c p : Decision (pendingFor c p).
Proof. unfold pendingFor. apply _. Defined.

Definition getPendingPromisesFor (data : option PromiseStore)
    (characterName : string) : list Promise.t :=
  filter (pendingFor characterName) (values (getPromises data)).

Definition getPromisesBetween (data : option PromiseStore)
    (char1 char2 : string) : list Promise.t :=
  filter
    (fun p =>
       (isString (Promise.from p) char1 ∧ isString (Promise.to p) char2) ∨
       (isString (Promise.from p) char2 ∧ isString (Promise.to p) char1))
    (values (getPromises data)).

(** The promise stored under [promiseId], for the guard
    [!data?.[PROMISES_KEY]?.[promiseId]]. *)
Definition findPromise (data : option PromiseStore) (promiseId : string)
    : option Promise.t :=
  match data with
  | Some d =>
      match promises d with
      | Some ps => ps !! promiseId
      | None => None
      end
  | None => None
  end.

(** [updatePromiseStatus(promiseId, newStatus)]; [now] is [Date.now()]. *)
Definition updatePromiseStatus (now : Z) (data : option PromiseStore)
    (promiseId newStatus : string) : option PromiseStore * bool :=
  match findPromise data promiseId with
  | None => (data, false)
  | Some p =>
      if bool_decide (newStatus ∈ promiseStatuses)
      then
        ((fun d =>
            {| promises :=
                 Some (<[promiseId := Promise.setStatus newStatus now p]>
                         (default ∅ (promises d))) |}) <$> data,
         true)
      else (data, false)
  end.

Definition fulfillPromise (now : Z) (data : option PromiseStore)
    (promiseId : string) : option PromiseStore * bool :=
  updatePromiseStatus now data promiseId "fulfilled".

Definition breakPromise (now : Z) (data : option PromiseStore)
    (promiseId : string) : option PromiseStore * bool :=
  updatePromiseStatus now data promiseId "broken".

Definition forgivePromise (now : Z) (data : option PromiseStore)
    (promiseId : string) : option PromiseStore * bool :=
  updatePromiseStatus now data promiseId "forgiven".

Definition deletePromise (data : option PromiseStore) (promiseId : string)
    : option PromiseStore * bool :=
  match findPromise data promiseId with
  | None => (data, false)
  | Some _ =>
      ((fun d =>
          {| promises := Some (delete promiseId (default ∅ (promises d))) |})
         <$> data,
       true)
  end.

(** [getPromisesNeedingReminder(threshold)]; [currentMessage] is the length
    of the chat. *)
Definition needsReminder (currentMessage threshold : Z) (p : Promise.t)
    : Prop :=
  Promise.status p = "pending" ∧
  threshold ≤ currentMessage - Promise.made_at_message p.

#[global] Instance needsReminder_dec cur thr p :
  Decision (needsReminder cur thr p).
Proof. unfold needsReminder. apply _. Defined.

Definition getPromisesNeedingReminder (currentMessage : Z)
    (data : option PromiseStore) (threshold : Z) : list Promise.t :=
  filter (needsReminder currentMessage threshold)
    (values (getPromises data)).

Definition getUnforgivenBrokenPromises (data : option PromiseStore)
    : list Promise.t :=
  filter (fun p => Promise.status p = "broken") (values (getPromises data)).




(* ===================================================================== *)
(** ** extraction/parser.js: processPromisesFromEvents *)
(* ===================================================================== *)

(** [event.importance || 3]: NaN and 0 are falsy. *)
Definition importanceOr3 (n : number) : number :=
  match n with
  | NaN => Fin 3
  | Fin z => if z =? 0 then Fin 3 else n
  | _ => n
  end.

(** The condition of the loop body: the event has a promise whose [from],
    [to] and [content] are truthy. *)
Definition carriesPromise (event : ExtractedEvent) : bool :=
  JS.truthy (ev_promise event) &&
  JS.truthy (JS.prop (ev_promise event) "from") &&
  JS.truthy (JS.prop (ev_promise event) "to") &&
  JS.truthy (JS.prop (ev_promise event) "content").

Definition promiseOf (promiseId : string) (now : Z) (event : ExtractedEvent)
    : Promise.t :=
  let promise := ev_promise event in
  {| Promise.id := promiseId;
     Promise.from := JS.prop promise "from";
     Promise.to := JS.prop promise "to";
     Promise.content := JS.prop promise "content";
     Promise.context := JS.or (JS.prop (ev_source event) "summary") (JStr "");
     Promise.made_at := now;
     Promise.made_at_message :=
       default 0 (lastMessageId (ev_message_ids event));
     Promise.deadline := JS.or (JS.prop promise "deadline") JNull;
     Promise.status := "pending";
     Promise.status_changed_at := None;
     Promise.importance := importanceOr3 (ev_importance event);
     Promise.source_memory_id := ev_id event;
     Promise.tags := [] |}.

(** The loop of [processPromisesFromEvents] from the event at index
    [index] on; [newId i] is the id drawn for the event at index [i]. *)
Fixpoint storePromises (newId : nat → string) (now : Z) (index : nat)
    (events : list ExtractedEvent) (ps : gmap string Promise.t)
    : gmap string Promise.t :=
  match events with
  | [] => ps
  | event :: rest =>
      storePromises newId now (S index) rest
        (if carriesPromise event
         then <[newId index := promiseOf (newId index) now event]> ps
         else ps)
  end.

(** [processPromisesFromEvents(events, data)]; [now] is [Date.now()]. *)
Definition processPromisesFromEvents (newId : nat → string) (now : Z)
    (events : list ExtractedEvent) (data : PromiseStore) : PromiseStore :=
  {| promises :=
       Some (storePromises newId now 0 events (default ∅ (promises data))) |}.

(** An event in which Alice promises Bob to return the letter, and one
    without a promise. *)
Definition promiseEvents : list ExtractedEvent :=
  eventOf 0 [3; 4]
    (JObj [("summary", JStr "Alice gives her word");
           ("importance", JStr "high");
           ("promise",
            JObj [("from", JStr "Alice"); ("to", JStr "Bob");
                  ("content", JStr "return the letter")])])
  ++
  eventOf 1 [5] (JObj [("summary", JStr "Bob leaves")]).

Definition promiseId (i : nat) : string :=
  String.append "promise_" (Str.ofZ (Z.of_nat i)).

(** The store after the two events. *)
Definition promiseStore : option PromiseStore :=
  Some (processPromisesFromEvents promiseId 50 promiseEvents
          {| promises := None |}).

(* ===================================================================== *)
(** ** extraction/parser.js: processGoalsFromEvents *)
(* ===================================================================== *)

Module Goal.

(** A stored goal. What [processGoalsFromEvents] copies from the output of
    the model keeps the value found there. *)
Record t : Type := {
  id : string;
  goal : jsval;
  motivation : jsval;
  priority : string;
  status : string;
  created_at : Z;
  status_changed_at : option Z;
  deadline : option string;
  progress_notes : list string;
  related_memory_ids : list jsval;
  obstacles : list string;
  source_memory_id : jsval;
  tags : list string;
}.

End Goal.


(** [v.toLowerCase()]: only a string has the method, on anything else the
    call throws. *)
Definition toLowerCase (v : jsval) : outcome string :=
  match v with
  | JStr s => Returns (Str.toLowerCase s)
  | _ => Throws
  end.















(* ===================================================================== *)
(** ** Relationship dimensions *)
(* ===================================================================== *)

Lemma newRelationship_inRange a b : dimensionsInRange (newRelationship a b).
Proof. unfold dimensionsInRange, inRange; simpl; lia. Qed.

Lemma clamp_inRange v : inRange (clamp v 0 10).
Proof. unfold inRange, clamp; lia. Qed.

Ltac range_step :=
  intros r Hr; unfold bump, applyDelta;
  repeat case_match; try assumption;
  unfold dimensionsInRange, inRange, clamp in *; simpl; lia.

Lemma applyLegacyImpact_steps rel impactStr :
  applyLegacyImpact rel impactStr =
  let has := Str.includes (Str.toLowerCase impactStr) in
  bump true false familiarity_level Rel.setFamiliarity
    (bump (has "loyal" || has "devotion" || has "commit")
       (has "betray" || has "abandon") loyalty_level Rel.setLoyalty
    (bump (has "fear" || has "intimidat" || has "threat")
       (has "reassur" || has "comfort") fear_level Rel.setFear
    (bump (has "attract" || has "desire" || has "romantic" || has "intimacy")
       false attraction_level Rel.setAttraction
    (bump (has "respect" && (has "gain" || has "increas" || has "shown"))
       (has "respect" && (has "lost" || has "decreas"))
       respect_level Rel.setRespect
    (bump (has "tension" && has "increas") (has "tension" && has "decreas")
       tension_level Rel.setTension
    (bump (has "trust" && (has "increas" || has "deepen" || has "gain"))
       (has "trust" && (has "decreas" || has "lost" || has "betray"))
       trust_level Rel.setTrust rel)))))).
Proof. reflexivity. Qed.

Section RangeSteps.
Variables (up down : bool) (impact : jsval) (field : string).

Lemma bump_trust : preservesRange (bump up down trust_level Rel.setTrust).
Proof. range_step. Qed.
Lemma bump_tension :
  preservesRange (bump up down tension_level Rel.setTension).
Proof. range_step. Qed.
Lemma bump_respect :
  preservesRange (bump up down respect_level Rel.setRespect).
Proof. range_step. Qed.
Lemma bump_attraction :
  preservesRange (bump up down attraction_level Rel.setAttraction).
Proof. range_step. Qed.
Lemma bump_fear : preservesRange (bump up down fear_level Rel.setFear).
Proof. range_step. Qed.
Lemma bump_loyalty :
  preservesRange (bump up down loyalty_level Rel.setLoyalty).
Proof. range_step. Qed.
Lemma bump_familiarity :
  preservesRange (bump up down familiarity_level Rel.setFamiliarity).
Proof. range_step. Qed.

Lemma delta_trust :
  preservesRange (applyDelta impact field trust_level Rel.setTrust).
Proof. range_step. Qed.
Lemma delta_tension :
  preservesRange (applyDelta impact field tension_level Rel.setTension).
Proof. range_step. Qed.
Lemma delta_respect :
  preservesRange (applyDelta impact field respect_level Rel.setRespect).
Proof. range_step. Qed.
Lemma delta_attraction :
  preservesRange (applyDelta impact field attraction_level Rel.setAttraction).
Proof. range_step. Qed.
Lemma delta_fear :
  preservesRange (applyDelta impact field fear_level Rel.setFear).
Proof. range_step. Qed.
Lemma delta_loyalty :
  preservesRange (applyDelta impact field loyalty_level Rel.setLoyalty).
Proof. range_step. Qed.
Lemma delta_familiarity :
  preservesRange
    (applyDelta impact field familiarity_level Rel.setFamiliarity).
Proof. range_step. Qed.

End RangeSteps.

Lemma applyLegacyImpact_inRange impactStr :
  preservesRange (fun rel => applyLegacyImpact rel impactStr).
Proof.
  intros r Hr. rewrite applyLegacyImpact_steps. cbv zeta.
  apply bump_familiarity, bump_loyalty, bump_fear, bump_attraction,
    bump_respect, bump_tension, bump_trust, Hr.
Qed.

Lemma applyStructuredImpact_inRange impact :
  preservesRange (fun rel => applyStructuredImpact rel impact).
Proof.
  intros r Hr. unfold applyStructuredImpact. cbv zeta.
  apply delta_familiarity, delta_loyalty, delta_fear, delta_attraction,
    delta_respect, delta_tension, delta_trust, Hr.
Qed.

Lemma applyImpact_inRange impact :
  preservesRange (fun rel => applyImpact rel impact).
Proof.
  intros r Hr. unfold applyImpact. destruct (JS.isObject impact).
  - by apply applyStructuredImpact_inRange.
  - by apply applyLegacyImpact_inRange.
Qed.

(** C1. Starting from a relationship whose seven dimensions lie in 0..10
    (as those of a newly created relationship do), the dimensions lie in
    0..10 after each update of any sequence of impacts, structured or
    legacy. *)
Theorem dimensions_stay_in_range (impacts : list jsval) (rel : Relationship) :
  dimensionsInRange rel →
  Forall dimensionsInRange (relationshipStates rel impacts).
Proof.
  revert rel. induction impacts as [|impact rest IH]; intros rel Hrel; simpl.
  - constructor.
  - pose proof (applyImpact_inRange impact rel Hrel) as Hnext.
    constructor; [exact Hnext | by apply IH].
Qed.


(** A new relationship under four impacts of both formats. *)
Lemma dimensions_stay_in_range_witness :
  Forall dimensionsInRange
    (relationshipStates (newRelationship "Alice" "Bob") sampleImpacts).
Proof.
  apply (dimensions_stay_in_range sampleImpacts (newRelationship "Alice" "Bob")).
  apply newRelationship_inRange.
Defined.

(* ===================================================================== *)
(** ** Familiarity under the two impact formats *)
(* ===================================================================== *)

Ltac frame_step := unfold bump, applyDelta; repeat case_match; reflexivity.

Section FamiliarityFrame.
Variables (up down : bool) (impact : jsval) (field : string)
  (r : Relationship).

Lemma familiarity_bump_trust :
  familiarity_level (bump up down trust_level Rel.setTrust r)
  = familiarity_level r.
Proof. frame_step. Qed.
Lemma familiarity_bump_tension :
  familiarity_level (bump up down tension_level Rel.setTension r)
  = familiarity_level r.
Proof. frame_step. Qed.
Lemma familiarity_bump_respect :
  familiarity_level (bump up down respect_level Rel.setRespect r)
  = familiarity_level r.
Proof. frame_step. Qed.
Lemma familiarity_bump_attraction :
  familiarity_level (bump up down attraction_level Rel.setAttraction r)
  = familiarity_level r.
Proof. frame_step. Qed.
Lemma familiarity_bump_fear :
  familiarity_level (bump up down fear_level Rel.setFear r)
  = familiarity_level r.
Proof. frame_step. Qed.
Lemma familiarity_bump_loyalty :
  familiarity_level (bump up down loyalty_level Rel.setLoyalty r)
  = familiarity_level r.
Proof. frame_step. Qed.

Lemma familiarity_delta_trust :
  familiarity_level (applyDelta impact field trust_level Rel.setTrust r)
  = familiarity_level r.
Proof. frame_step. Qed.
Lemma familiarity_delta_tension :
  familiarity_level (applyDelta impact field tension_level Rel.setTension r)
  = familiarity_level r.
Proof. frame_step. Qed.
Lemma familiarity_delta_respect :
  familiarity_level (applyDelta impact field respect_level Rel.setRespect r)
  = familiarity_level r.
Proof. frame_step. Qed.
Lemma familiarity_delta_attraction :
  familiarity_level
    (applyDelta impact field attraction_level Rel.setAttraction r)
  = familiarity_level r.
Proof. frame_step. Qed.
Lemma familiarity_delta_fear :
  familiarity_level (applyDelta impact field fear_level Rel.setFear r)
  = familiarity_level r.
Proof. frame_step. Qed.
Lemma familiarity_delta_loyalty :
  familiarity_level (applyDelta impact field loyalty_level Rel.setLoyalty r)
  = familiarity_level r.
Proof. frame_step. Qed.

End FamiliarityFrame.

Lemma applyLegacyImpact_familiarity rel impactStr :
  familiarity_level (applyLegacyImpact rel impactStr)
  = Z.min 10 (familiarity_level rel + 1).
Proof.
  rewrite applyLegacyImpact_steps. cbv zeta.
  unfold bump at 1. cbn [familiarity_level Rel.setFamiliarity].
  by rewrite familiarity_bump_loyalty, familiarity_bump_fear,
    familiarity_bump_attraction, familiarity_bump_respect,
    familiarity_bump_tension, familiarity_bump_trust.
Qed.

Lemma applyStructuredImpact_familiarity rel impact :
  familiarity_level (applyStructuredImpact rel impact)
  = match JS.prop impact "familiarity" with
    | JNum d => clamp (familiarity_level rel + d) 0 10
    | _ => familiarity_level rel
    end.
Proof.
  unfold applyStructuredImpact. cbv zeta.
  set (r6 := applyDelta impact "loyalty" _ _ _).
  assert (familiarity_level r6 = familiarity_level rel) as Hframe.
  { unfold r6.
    by rewrite familiarity_delta_loyalty, familiarity_delta_fear,
      familiarity_delta_attraction, familiarity_delta_respect,
      familiarity_delta_tension, familiarity_delta_trust. }
  unfold applyDelta.
  destruct (JS.prop impact "familiarity"); simpl; by rewrite ?Hframe.
Qed.

(** C4. A legacy impact raises familiarity by one, capped at 10, whatever
    the string says; a structured impact moves familiarity only by a numeric
    [familiarity] field (clamped to 0..10) and leaves it as it is without
    one; and the string "Trust deepens between them" takes a new
    relationship from trust 5 to 6 and from familiarity 1 to 2 in one
    call. *)
Theorem familiarity_by_format :
  (∀ rel impactStr,
     familiarity_level (applyLegacyImpact rel impactStr)
     = Z.min 10 (familiarity_level rel + 1)) ∧
  (∀ rel impact,
     familiarity_level (applyStructuredImpact rel impact)
     = match JS.prop impact "familiarity" with
       | JNum d => clamp (familiarity_level rel + d) 0 10
       | _ => familiarity_level rel
       end) ∧
  (∀ a b,
     trust_level (newRelationship a b) = 5 ∧
     familiarity_level (newRelationship a b) = 1 ∧
     trust_level (applyLegacyImpact (newRelationship a b) trustDeepens) = 6 ∧
     familiarity_level (applyLegacyImpact (newRelationship a b) trustDeepens)
     = 2).
Proof.
  split; [exact applyLegacyImpact_familiarity|].
  split; [exact applyStructuredImpact_familiarity|].
  intros a b. by vm_compute.
Qed.

(* ===================================================================== *)
(** ** parseExtractionResult *)
(* ===================================================================== *)

Section MapEvents.
Variable f : nat -> jsval -> outcome ExtractedEvent.

Lemma mapEvents_length events : ∀ k es,
  mapEvents f k events = Returns es → length es = length events.
Proof.
  induction events as [|ev rest IH]; intros k es; simpl.
  - by intros [= <-].
  - destruct (f k ev) as [e|]; [|done].
    destruct (mapEvents f (S k) rest) as [es'|] eqn:Hrest; [|done].
    intros [= <-]. simpl. f_equal. by eapply IH.
Qed.

Lemma mapEvents_lookup events : ∀ k es (i : nat) e,
  mapEvents f k events = Returns es → es !! i = Some e →
  ∃ ev, events !! i = Some ev ∧ f (k + i)%nat ev = Returns e.
Proof.
  induction events as [|ev rest IH]; intros k es i e; simpl.
  - by intros [= <-].
  - destruct (f k ev) as [e0|] eqn:Hhead; [|done].
    destruct (mapEvents f (S k) rest) as [es'|] eqn:Hrest; [|done].
    intros [= <-] Hi. destruct i as [|i]; simpl in *.
    + injection Hi as <-. exists ev. by rewrite Nat.add_0_r.
    + destruct (IH _ _ _ _ Hrest Hi) as (ev' & Hev' & Hf).
      exists ev'. split; [done|]. by rewrite <- Nat.add_succ_comm.
Qed.

Lemma mapEvents_returns events : ∀ k,
  Forall (fun ev => ∃ e, ∀ i, f i ev = Returns (e i)) events →
  ∃ es, mapEvents f k events = Returns es.
Proof.
  induction events as [|ev rest IH]; intros k Hall; simpl.
  - by eexists.
  - inversion Hall as [|? ? [e He] Hrest]; subst.
    rewrite He. destruct (IH (S k) Hrest) as [es ->]. by eexists.
Qed.

End MapEvents.

Lemma enrichEvent_returns generateId now messageIds minId batchId event :
  notNullish event →
  ∃ e, ∀ i,
    enrichEvent generateId now messageIds minId batchId i event
    = Returns (e i).
Proof.
  intros Hev. unfold enrichEvent. rewrite Hev. by eexists (fun i => _).
Qed.

Lemma enrichEvent_sequence generateId now messageIds minId batchId i event e :
  enrichEvent generateId now messageIds minId batchId i event = Returns e →
  ev_sequence e = JS.addFin (JS.mulFin minId 1000) (Z.of_nat i).
Proof.
  unfold enrichEvent. destruct (JS.isNullish event); [done|].
  by intros [= <-].
Qed.

Lemma parse_lookup safeParseJSON generateId now jsonString messages
    characterName userName batchId es (i : nat) e :
  parseExtractionResult safeParseJSON generateId now jsonString messages
    characterName userName batchId = Returns es →
  es !! i = Some e →
  ∃ ev,
    enrichEvent generateId now (List.map msg_id messages)
      (JS.minOf (List.map msg_id messages)) batchId i ev = Returns e.
Proof.
  unfold parseExtractionResult.
  destruct (negb (JS.truthy (safeParseJSON jsonString))).
  - by intros [= <-].
  - intros Hmap Hi.
    destruct (mapEvents_lookup _ _ _ _ _ _ Hmap Hi) as (ev & _ & Hf).
    by exists ev.
Qed.

(** C9, as the claim states it, fails: the text [[null]] parses, to an array
    holding [null], and the call throws on it. *)
Lemma parse_null_array_throws :
  parseExtractionResult sampleParser sampleId 0 nullArrayText
    (messagesFrom 10) "Alice" "User" None = Throws.
Proof. reflexivity. Qed.

(** C9, amended. A text that does not parse (the parser answers a falsy
    value) gives the empty list and no throw; a text that parses to one
    object gives the list of that one event; a text that parses to an array
    none of whose elements is [null] gives one event for each element. *)
Theorem parse_outcomes safeParseJSON generateId now jsonString messages
    characterName userName batchId :
  let parsed := safeParseJSON jsonString in
  let result :=
    parseExtractionResult safeParseJSON generateId now jsonString messages
      characterName userName batchId in
  (JS.truthy parsed = false → result = Returns []) ∧
  (∀ o, parsed = JObj o →
     ∃ e, result = Returns [e] ∧ ev_source e = parsed) ∧
  (∀ l, parsed = JArr l → Forall notNullish l →
     ∃ es, result = Returns es ∧ length es = length l).
Proof.
  cbv zeta. unfold parseExtractionResult. repeat split.
  - by intros ->.
  - intros o ->. simpl. by eexists.
  - intros l -> Hall. simpl.
    destruct (mapEvents_returns
                (enrichEvent generateId now (List.map msg_id messages)
                   (JS.minOf (List.map msg_id messages)) batchId) l 0%nat)
      as [es Hes].
    + eapply Forall_impl; [exact Hall|].
      intros ev Hev. by apply enrichEvent_returns.
    + exists es. split; [done|]. by eapply mapEvents_length.
Qed.

(** A text that is no JSON, one object, and an array of two objects. *)
Lemma parse_outcomes_witness :
  parseExtractionResult sampleParser sampleId 0 "no JSON here"
    (messagesFrom 10) "Alice" "User" None = Returns [] ∧
  (∃ e, parseExtractionResult sampleParser sampleId 0 oneEventText
          (messagesFrom 10) "Alice" "User" None = Returns [e] ∧
        ev_source e = sampleParser oneEventText) ∧
  (∃ es, parseExtractionResult sampleParser sampleId 0 twoEventsText
           (messagesFrom 10) "Alice" "User" None = Returns es ∧
         length es = 2%nat).
Proof.
  split; [|split].
  - apply (parse_outcomes sampleParser sampleId 0 "no JSON here"
             (messagesFrom 10) "Alice" "User" None).
    reflexivity.
  - apply (parse_outcomes sampleParser sampleId 0 oneEventText
             (messagesFrom 10) "Alice" "User" None) with (o := [("summary", JStr "c")]).
    reflexivity.
  - destruct (parse_outcomes sampleParser sampleId 0 twoEventsText
                (messagesFrom 10) "Alice" "User" None) as (_ & _ & Harr).
    apply (Harr [JObj [("summary", JStr "a"); ("importance", JNum 9)];
                 JObj [("summary", JStr "b")]]).
    + reflexivity.
    + repeat constructor.
Defined.

(** C2, at an input on which the code breaks it: an event whose importance
    is the word [high] comes back with importance NaN, which is no number
    of 1..5. *)
Theorem importance_of_a_word_is_NaN :
  importances
    (parseExtractionResult sampleParser sampleId 0 wordyText
       (messagesFrom 10) "Alice" "User" None) = [NaN].
Proof. reflexivity. Qed.

Lemma foldl_min_least xs : ∀ x,
  foldl Z.min x xs ∈ x :: xs ∧ ∀ y, y ∈ x :: xs → foldl Z.min x xs ≤ y.
Proof.
  induction xs as [|x' xs IH]; intros x; cbn [foldl].
  - split; [by left|]. intros y ->%list_elem_of_singleton. lia.
  - destruct (IH (Z.min x x')) as [Hin Hle]. split.
    + apply elem_of_cons in Hin as [->|Hin]; [|by do 2 right].
      destruct (Z.min_spec x x') as [[_ ->]|[_ ->]]; [by left|by right; left].
    + intros y Hy.
      assert (foldl Z.min (Z.min x x') xs ≤ Z.min x x') as Hhead
        by (apply Hle; by left).
      apply elem_of_cons in Hy as [->|Hy]; [lia|].
      apply elem_of_cons in Hy as [->|Hy]; [lia|].
      apply Hle. by right.
Qed.

(** C5, as the claim states it, fails: two batches whose first message is
    message 10, each of fewer than 1000 events. Their first events have
    different ids and different batch ids, and one sequence number. *)
Lemma same_first_message_same_sequence :
  ∃ e1 rest1 e2,
    parseExtractionResult sampleParser sampleId 0 twoEventsText
      (messagesFrom 10) "Alice" "User" (Some "batch-1")
    = Returns (e1 :: rest1) ∧
    parseExtractionResult sampleParser laterId 5 oneEventText
      (messagesFrom 10) "Alice" "User" (Some "batch-2")
    = Returns [e2] ∧
    ev_id e1 = JStr "e0" ∧ ev_id e2 = JStr "e100" ∧
    ev_batch_id e1 = Some "batch-1" ∧ ev_batch_id e2 = Some "batch-2" ∧
    ev_sequence e1 = Fin 10000 ∧ ev_sequence e2 = Fin 10000.
Proof. eexists _, _, _. by repeat split. Qed.

(** C5, amended. An event of a batch without messages has the sequence
    number [Infinity]. An event of a batch with messages has the sequence
    number [first * 1000 + index], where [first] is the least id of the
    messages of its batch and [index] the place of the event in what the
    call returns. For batches of fewer than 1000 events, with ids in the
    range in which the arithmetic is exact, two events have one sequence
    number exactly when their batches have the same least message id and
    they have the same index: the events of one batch, and those of batches
    with different first messages, have different numbers, and the events
    at one index of two batches over the same first message collide. *)
Theorem sequence_numbers
    parse1 ids1 now1 text1 messages1 character1 user1 batch1 events1
    parse2 ids2 now2 text2 messages2 character2 user2 batch2 events2
    (i j : nat) e1 e2 :
  parseExtractionResult parse1 ids1 now1 text1 messages1 character1 user1
    batch1 = Returns events1 →
  parseExtractionResult parse2 ids2 now2 text2 messages2 character2 user2
    batch2 = Returns events2 →
  events1 !! i = Some e1 →
  events2 !! j = Some e2 →
  (messages1 = [] → ev_sequence e1 = PosInf) ∧
  (messages1 ≠ [] → messages2 ≠ [] →
   safeMessageIds messages1 → safeMessageIds messages2 →
   (length events1 < 1000)%nat → (length events2 < 1000)%nat →
   ∃ first1 first2,
     (first1 ∈ List.map msg_id messages1 ∧
      ∀ id, id ∈ List.map msg_id messages1 → first1 ≤ id) ∧
     (first2 ∈ List.map msg_id messages2 ∧
      ∀ id, id ∈ List.map msg_id messages2 → first2 ≤ id) ∧
     ev_sequence e1 = Fin (first1 * 1000 + Z.of_nat i) ∧
     ev_sequence e2 = Fin (first2 * 1000 + Z.of_nat j) ∧
     0 ≤ first1 * 1000 + Z.of_nat i < 9007199254740992 ∧
     (ev_sequence e1 = ev_sequence e2 ↔ first1 = first2 ∧ i = j)).
Proof.
  intros Hp1 Hp2 Hi Hj.
  destruct (parse_lookup _ _ _ _ _ _ _ _ _ _ _ Hp1 Hi) as [ev1 He1].
  destruct (parse_lookup _ _ _ _ _ _ _ _ _ _ _ Hp2 Hj) as [ev2 He2].
  apply enrichEvent_sequence in He1, He2.
  split; [by intros ->|].
  intros Hm1 Hm2 Hsafe1 Hsafe2 Hn1 Hn2.
  apply lookup_lt_Some in Hi, Hj.
  destruct messages1 as [|m1 ms1]; [done|].
  destruct messages2 as [|m2 ms2]; [done|].
  cbn [List.map JS.minOf JS.mulFin JS.addFin] in He1, He2.
  destruct (foldl_min_least (List.map msg_id ms1) (msg_id m1))
    as [Hin1 Hle1].
  destruct (foldl_min_least (List.map msg_id ms2) (msg_id m2))
    as [Hin2 Hle2].
  exists (foldl Z.min (msg_id m1) (List.map msg_id ms1)),
         (foldl Z.min (msg_id m2) (List.map msg_id ms2)).
  split; [done|]. split; [done|]. split; [done|]. split; [done|].
  assert (0 ≤ foldl Z.min (msg_id m1) (List.map msg_id ms1)
          ≤ 9007199254739) as Hrange.
  { change (msg_id m1 :: List.map msg_id ms1)
      with (List.map msg_id (m1 :: ms1)) in Hin1.
    apply list_elem_of_In, in_map_iff in Hin1 as (m & <- & Hm).
    apply Hsafe1. by apply list_elem_of_In. }
  split; [lia|].
  rewrite He1, He2. split.
  - intros [= Heq]. split; [|lia]. lia.
  - intros [-> Hij]. f_equal. lia.
Qed.

(** The second event of a batch that starts at message 10 and the first of
    a batch that starts at message 12. *)
Lemma sequence_numbers_witness :
  ∃ e1 e2 first1 first2,
    ev_sequence e1 = Fin (first1 * 1000 + 1) ∧
    ev_sequence e2 = Fin (first2 * 1000 + 0) ∧
    ev_sequence e1 ≠ ev_sequence e2 ∧
    ev_sequence e1 = Fin 10001 ∧ ev_sequence e2 = Fin 12000.
Proof.
  pose proof
    (sequence_numbers
       sampleParser sampleId 0 twoEventsText (messagesFrom 10) "Alice" "User"
       None _
       sampleParser sampleId 5 oneEventText (messagesFrom 12) "Alice" "User"
       None _
       1%nat 0%nat _ _ eq_refl eq_refl eq_refl eq_refl) as [_ Hseq].
  destruct Hseq as (first1 & first2 & _ & _ & H1 & H2 & _ & Hsame).
  - discriminate.
  - discriminate.
  - intros m Hm. vm_compute in Hm.
    repeat (apply elem_of_cons in Hm as [->|Hm]; [by vm_compute|]).
    by apply elem_of_nil in Hm.
  - intros m Hm. vm_compute in Hm.
    repeat (apply elem_of_cons in Hm as [->|Hm]; [by vm_compute|]).
    by apply elem_of_nil in Hm.
  - simpl. lia.
  - simpl. lia.
  - eexists _, _, first1, first2. split; [exact H1|]. split; [exact H2|].
    split; [|split; by vm_compute].
    intros Heq. apply Hsame in Heq as [_ Hindex]. lia.
Defined.

(* ===================================================================== *)
(** ** filterMemoriesByKnowledge *)
(* ===================================================================== *)

(** C3. For a point-of-view character (a name that is not empty) the filter
    keeps, in their order, exactly the memories that are no secret or that
    list the character in [known_by]; without a point-of-view character it
    answers the list it was given. A secret known by Alice alone is dropped
    for Bob, kept for Alice and kept without a point of view. *)
Theorem filter_by_knowledge (memories : list Memory) (characterName : string) :
  characterName ≠ "" →
  (∀ memory,
     memory ∈ filterMemoriesByKnowledge memories (Some characterName)
     ↔ memory ∈ memories ∧ visibleTo characterName memory) ∧
  sublist (filterMemoriesByKnowledge memories (Some characterName)) memories ∧
  filterMemoriesByKnowledge memories None = memories ∧
  filterMemoriesByKnowledge [openMemory; aliceSecret] (Some "Bob")
  = [openMemory] ∧
  filterMemoriesByKnowledge [openMemory; aliceSecret] (Some "Alice")
  = [openMemory; aliceSecret] ∧
  filterMemoriesByKnowledge [openMemory; aliceSecret] None
  = [openMemory; aliceSecret].
Proof.
  intros Hname. apply String.eqb_neq in Hname.
  unfold filterMemoriesByKnowledge. rewrite Hname.
  split; [|split; [|by repeat split]].
  - intros memory. rewrite !list_elem_of_In, filter_In.
    apply and_iff_compat_l. unfold visibleTo.
    destruct (is_secret memory); simpl.
    + destruct (known_by memory) as [knowers|].
      * rewrite bool_decide_eq_true. split.
        -- intros Hin. right. by exists knowers.
        -- by intros [|(k & [= <-] & Hin)].
      * split; [done|]. by intros [|(k & ? & _)].
    + split; [by left|done].
  - induction memories as [|m ms IH]; simpl; [done|].
    case_match; by constructor.
Qed.

(** The secret Alice knows, seen from Alice and from Bob. *)
Lemma filter_by_knowledge_witness :
  aliceSecret ∈ filterMemoriesByKnowledge [openMemory; aliceSecret]
                  (Some "Alice") ∧
  ¬ aliceSecret ∈ filterMemoriesByKnowledge [openMemory; aliceSecret]
                    (Some "Bob").
Proof.
  split.
  - apply (filter_by_knowledge [openMemory; aliceSecret] "Alice"); [done|].
    split; [set_solver|]. right. exists ["Alice"]. split; [done|set_solver].
  - intros Hin.
    apply (filter_by_knowledge [openMemory; aliceSecret] "Bob") in Hin;
      [|done].
    destruct Hin as [_ [Hopen | (k & [= <-] & Hk)]]; [done|].
    by apply list_elem_of_In in Hk as [|[]].
Defined.

(* ===================================================================== *)
(** ** updateCharacterStatesFromEvents *)
(* ===================================================================== *)

Lemma sliceLast_length {A} (n : nat) (l : list A) :
  length (sliceLast n l) = Nat.min n (length l).
Proof. unfold sliceLast. rewrite length_drop. lia. Qed.

Lemma pushTrimmed_sliceLast h e :
  pushTrimmed h e = sliceLast MAX_EMOTION_HISTORY (h ++ [e]).
Proof.
  unfold pushTrimmed. cbv zeta.
  destruct (Nat.ltb_spec MAX_EMOTION_HISTORY (length (h ++ [e]))) as [Hlt|Hge];
    [done|].
  unfold sliceLast.
  replace (length (h ++ [e]) - MAX_EMOTION_HISTORY)%nat with 0%nat by lia.
  done.
Qed.

Lemma pushTrimmed_length h e :
  (length (pushTrimmed h e) ≤ MAX_EMOTION_HISTORY)%nat.
Proof. rewrite pushTrimmed_sliceLast, sliceLast_length. lia. Qed.

Lemma emotionRecorded_same now event range chars c emo :
  ∃ st',
    emotionRecorded now event range chars (c, emo) !! c = Some st' ∧
    current_emotion st' = emo ∧
    emotion_history st'
    = Some (sliceLast MAX_EMOTION_HISTORY
              (historyOf chars c ++ [historyEntryOf now event range emo])).
Proof.
  unfold emotionRecorded. cbv zeta. simpl.
  rewrite lookup_insert_eq. eexists. split; [done|]. split; [done|]. simpl.
  rewrite pushTrimmed_sliceLast. unfold historyOf.
  by destruct (chars !! c).
Qed.

Lemma emotionRecorded_bounded now event range chars entry :
  historiesBounded chars →
  historiesBounded (emotionRecorded now event range chars entry).
Proof.
  intros Hb c st. unfold emotionRecorded. cbv zeta.
  destruct (decide (entry.1 = c)) as [->|Hne].
  - rewrite lookup_insert_eq. intros [= <-].
    unfold historyLength. simpl. apply pushTrimmed_length.
  - rewrite lookup_insert_ne by done. apply Hb.
Qed.

Lemma witnessRecorded_lookup eventId chars witness c st' :
  witnessRecorded eventId chars witness !! c = Some st' →
  emotion_history st' = Some [] ∧ chars !! c = None ∨
  ∃ st, chars !! c = Some st ∧
        emotion_history st' = emotion_history st ∧
        current_emotion st' = current_emotion st.
Proof.
  unfold witnessRecorded.
  destruct (chars !! witness) as [st|] eqn:Hw.
  - rewrite Hw. case_bool_decide.
    + intros Hc. right. by exists st'.
    + destruct (decide (witness = c)) as [->|Hne].
      * rewrite lookup_insert_eq. intros [= <-]. right. by exists st.
      * rewrite lookup_insert_ne by done. intros Hc. right. by exists st'.
  - rewrite lookup_insert_eq. simpl.
    destruct (decide (witness = c)) as [->|Hne].
    + rewrite insert_insert_eq, lookup_insert_eq. intros [= <-]. by left.
    + rewrite !lookup_insert_ne by done. intros Hc. right. by exists st'.
Qed.

Lemma witnessRecorded_bounded eventId chars witness :
  historiesBounded chars →
  historiesBounded (witnessRecorded eventId chars witness).
Proof.
  intros Hb c st' Hc.
  destruct (witnessRecorded_lookup _ _ _ _ _ Hc)
    as [[Hnew _] | (st & Hst & Hhist & _)].
  - unfold historyLength. rewrite Hnew. simpl. unfold MAX_EMOTION_HISTORY. lia.
  - unfold historyLength. rewrite Hhist. by apply (Hb c).
Qed.

Lemma witnessRecorded_keeps eventId chars witness c st :
  chars !! c = Some st →
  ∃ st', witnessRecorded eventId chars witness !! c = Some st' ∧
         emotion_history st' = emotion_history st ∧
         current_emotion st' = current_emotion st.
Proof.
  intros Hc. unfold witnessRecorded.
  destruct (decide (witness = c)) as [->|Hne].
  - rewrite Hc. rewrite Hc. case_bool_decide.
    + by exists st.
    + rewrite lookup_insert_eq. by eexists.
  - destruct (chars !! witness) as [stw|] eqn:Hw.
    + rewrite Hw. case_bool_decide; [by exists st|].
      rewrite lookup_insert_ne by done. by exists st.
    + rewrite lookup_insert_eq. simpl.
      rewrite !lookup_insert_ne by done. by exists st.
Qed.

Lemma foldl_witnessRecorded_keeps eventId ws : ∀ chars c st,
  chars !! c = Some st →
  ∃ st', foldl (witnessRecorded eventId) chars ws !! c = Some st' ∧
         emotion_history st' = emotion_history st ∧
         current_emotion st' = current_emotion st.
Proof.
  induction ws as [|w ws IH]; intros chars c st Hc; simpl.
  - by exists st.
  - destruct (witnessRecorded_keeps eventId chars w c st Hc)
      as (st1 & H1 & Hh1 & He1).
    destruct (IH _ _ _ H1) as (st2 & H2 & Hh2 & He2).
    exists st2. split; [done|]. split; congruence.
Qed.

Lemma foldl_bounded {A} (f : gmap string CharacterState → A →
                         gmap string CharacterState) (l : list A) :
  (∀ chars a, historiesBounded chars → historiesBounded (f chars a)) →
  ∀ chars, historiesBounded chars → historiesBounded (foldl f chars l).
Proof.
  intros Hf. induction l as [|a l IH]; intros chars Hb; simpl; [done|].
  apply IH, Hf, Hb.
Qed.

Lemma eventReduced_bounded now chars event :
  historiesBounded chars → historiesBounded (eventReduced now chars event).
Proof.
  intros Hb. unfold eventReduced. cbv zeta.
  apply foldl_bounded; [intros; by apply witnessRecorded_bounded|].
  destruct (emotional_impact event); [|done].
  apply foldl_bounded; [|done]. intros. by apply emotionRecorded_bounded.
Qed.

Lemma empty_bounded : historiesBounded ∅.
Proof. intros c st. by rewrite lookup_empty. Qed.

(** The loops of the reducer. *)
Lemma forEach_app {A B} (body : A → B → reduced A) l1 l2 : ∀ a,
  forEach body a (l1 ++ l2)
  = andThen (forEach body a l1) (fun a' => forEach body a' l2).
Proof.
  induction l1 as [|x l1 IH]; intros a; [done|]. cbn [app forEach].
  destruct (body a x) as [a'| |]; cbn [andThen]; [apply IH|done..].
Qed.

Lemma forEach_afterwards {A B} (P : A → Prop) (body : A → B → reduced A) l :
  (∀ a x, P a → afterwards P (body a x)) →
  ∀ a, P a → afterwards P (forEach body a l).
Proof.
  intros Hbody. induction l as [|x l IH]; intros a Ha; [done|].
  cbn [forEach]. pose proof (Hbody a x Ha) as Hx.
  destruct (body a x) as [a'|a'|]; cbn [andThen]; [by apply IH|done..].
Qed.

Lemma forEach_ended {A B} (body : A → B → reduced A) (pure : A → B → A) l :
  (∀ a x a', body a x = Ended a' → a' = pure a x) →
  ∀ a a', forEach body a l = Ended a' → a' = foldl pure a l.
Proof.
  intros Hbody. induction l as [|x l IH]; intros a a'; cbn [forEach foldl].
  - by intros [= <-].
  - destruct (body a x) as [a1| |] eqn:Hx; cbn [andThen]; [|done..].
    rewrite <- (Hbody _ _ _ Hx). apply IH.
Qed.

Lemma forEach_ends {A B} (body : A → B → reduced A) (pure : A → B → A)
    (Q : B → Prop) l :
  (∀ a x, Q x → body a x = Ended (pure a x)) →
  Forall Q l →
  ∀ a, forEach body a l = Ended (foldl pure a l).
Proof.
  intros Hbody. induction 1 as [|x l Hx _ IH]; intros a; [done|].
  cbn [forEach foldl]. rewrite (Hbody a x Hx). apply IH.
Qed.

Lemma recordEmotion_ended now event range chars entry chars' :
  recordEmotion now event range chars entry = Ended chars' →
  chars' = emotionRecorded now event range chars entry.
Proof.
  unfold recordEmotion. destruct (inheritedName chars entry.1); [done|].
  by intros [= <-].
Qed.

Lemma recordWitness_ended eventId chars witness chars' :
  recordWitness eventId chars witness = Ended chars' →
  chars' = witnessRecorded eventId chars witness.
Proof.
  unfold recordWitness. destruct (inheritedName chars witness); [done|].
  by intros [= <-].
Qed.

Lemma inheritedName_ordinary chars name :
  name ∉ prototypeNames → inheritedName chars name = false.
Proof.
  intros Hname. unfold inheritedName.
  by rewrite (bool_decide_eq_false_2 _ Hname), andb_false_r.
Qed.

Lemma reduceEvent_ended now chars event chars' :
  reduceEvent now chars event = Ended chars' →
  chars' = eventReduced now chars event.
Proof.
  unfold reduceEvent, eventReduced. cbv zeta.
  set (range := messageRangeOf _).
  destruct (emotional_impact event) as [entries|].
  - destruct (forEach (recordEmotion now event range) chars entries)
      as [chars1| |] eqn:Hemotions; cbn [andThen]; [|done..].
    apply (forEach_ended _ (emotionRecorded now event range)) in Hemotions;
      [|intros; by apply recordEmotion_ended].
    subst chars1. apply forEach_ended. intros. by apply recordWitness_ended.
  - cbn [andThen]. apply forEach_ended. intros. by apply recordWitness_ended.
Qed.

Lemma reduceEvent_ordinary now chars event :
  ordinaryNames event →
  reduceEvent now chars event = Ended (eventReduced now chars event).
Proof.
  intros [Hemotions Hwitnesses]. unfold reduceEvent, eventReduced. cbv zeta.
  set (range := messageRangeOf _).
  assert (∀ chars0,
    forEach (recordWitness (mem_id event)) chars0
      (default [] (witnesses event))
    = Ended (foldl (witnessRecorded (mem_id event)) chars0
               (default [] (witnesses event)))) as Hloop.
  { apply (forEach_ends _ _ (fun w => w ∉ prototypeNames)).
    - intros a w Hw. unfold recordWitness.
      by rewrite inheritedName_ordinary.
    - by apply Forall_forall. }
  destruct (emotional_impact event) as [entries|]; [|apply Hloop].
  rewrite (forEach_ends _ (emotionRecorded now event range)
             (fun entry => entry.1 ∉ prototypeNames)).
  - apply Hloop.
  - intros a entry Hentry. unfold recordEmotion.
    by rewrite inheritedName_ordinary.
  - by apply Forall_forall.
Qed.

Lemma update_ended now events data v :
  updateCharacterStatesFromEvents now events data = Ended v →
  v = setCharacters
        (foldl (eventReduced now) (default ∅ (characters data)) events) data.
Proof.
  unfold updateCharacterStatesFromEvents.
  destruct (forEach (reduceEvent now) _ events) as [chars| |] eqn:Hloop;
    [|done..].
  intros [= <-]. f_equal.
  eapply forEach_ended; [|exact Hloop]. intros. by apply reduceEvent_ended.
Qed.

Lemma update_ordinary now events data :
  Forall ordinaryNames events →
  updateCharacterStatesFromEvents now events data
  = Ended (setCharacters
             (foldl (eventReduced now) (default ∅ (characters data)) events)
             data).
Proof.
  intros Hnames. unfold updateCharacterStatesFromEvents.
  rewrite (forEach_ends _ (eventReduced now) ordinaryNames); [done| |done].
  intros. by apply reduceEvent_ordinary.
Qed.

Lemma reduceEvent_afterwards (P : gmap string CharacterState → Prop) now
    chars event :
  (∀ chars0 range entry,
     P chars0 → P (emotionRecorded now event range chars0 entry)) →
  (∀ chars0 witness,
     P chars0 → P (witnessRecorded (mem_id event) chars0 witness)) →
  P chars → afterwards P (reduceEvent now chars event).
Proof.
  intros Hemotion Hwitness Hchars. unfold reduceEvent. cbv zeta.
  set (range := messageRangeOf _).
  assert (∀ chars0, P chars0 →
    afterwards P
      (forEach (recordWitness (mem_id event)) chars0
         (default [] (witnesses event)))) as Hloop.
  { apply forEach_afterwards. intros a w Ha. unfold recordWitness.
    destruct (inheritedName a w); [done|]. by apply Hwitness. }
  destruct (emotional_impact event) as [entries|]; [|by apply Hloop].
  assert (afterwards P
            (forEach (recordEmotion now event range) chars entries))
    as Hemotions.
  { apply forEach_afterwards; [|done]. intros a entry Ha.
    unfold recordEmotion. destruct (inheritedName a entry.1); [done|].
    by apply Hemotion. }
  destruct (forEach (recordEmotion now event range) chars entries)
    as [chars1|chars1|]; cbn [andThen]; [by apply Hloop|done..].
Qed.

Lemma update_afterwards (P : gmap string CharacterState → Prop) now events
    data :
  (∀ event chars0 range entry,
     P chars0 → P (emotionRecorded now event range chars0 entry)) →
  (∀ event chars0 witness,
     P chars0 → P (witnessRecorded (mem_id event) chars0 witness)) →
  P (default ∅ (characters data)) →
  afterwards (fun v => ∃ chars', characters v = Some chars' ∧ P chars')
    (updateCharacterStatesFromEvents now events data).
Proof.
  intros Hemotion Hwitness Hdata. unfold updateCharacterStatesFromEvents.
  assert (afterwards P
            (forEach (reduceEvent now) (default ∅ (characters data)) events))
    as Hloop.
  { apply forEach_afterwards; [|done]. intros chars event Hchars.
    apply reduceEvent_afterwards; [apply Hemotion|apply Hwitness|done]. }
  destruct (forEach (reduceEvent now) _ events) as [chars|chars|];
    [by exists chars..|done].
Qed.

(** What [push] and the trim that follows it keep: the last 50 entries of
    the history with the new entry, the new entry last. *)
Lemma pushTrimmed_kept h e :
  ∃ dropped,
    h ++ [e] = dropped ++ pushTrimmed h e ∧
    length (pushTrimmed h e) = Nat.min 50 (length h + 1) ∧
    last (pushTrimmed h e) = Some e.
Proof.
  rewrite pushTrimmed_sliceLast. unfold sliceLast, MAX_EMOTION_HISTORY.
  set (n := (length (h ++ [e]) - 50)%nat).
  exists (take n (h ++ [e])). split; [by rewrite take_drop|].
  assert (length (h ++ [e]) = length h + 1)%nat as Hlen
    by by rewrite length_app.
  split; [rewrite length_drop; subst n; lia|].
  assert (n ≤ length h)%nat as Hn by (subst n; lia).
  rewrite drop_app_le by done. by rewrite last_snoc.
Qed.

(** C7. A call of [updateCharacterStatesFromEvents] on a vault in which no
    history has more than 50 entries leaves none with more than 50, when it
    ends and when it throws; it ends when no character and no witness of
    the events has the name of a property of [Object.prototype]. Recording
    a pair (character, emotion), for a name that is not an inherited one,
    appends one entry to the character's history and, of the result, drops
    the entries from the oldest on that are more than 50, so that the
    youngest 50 stay, the new entry last; and it makes the emotion the
    character's current one. This is still so when the call has ended, for
    the last pair of the last event. *)
Theorem emotion_history_bounded :
  (∀ now events data,
     historiesBounded (default ∅ (characters data)) →
     afterwards
       (fun v => ∃ chars', characters v = Some chars' ∧ historiesBounded chars')
       (updateCharacterStatesFromEvents now events data)) ∧
  (∀ now events data,
     Forall ordinaryNames events →
     ∃ v, updateCharacterStatesFromEvents now events data = Ended v) ∧
  (∀ now event range chars charName emo,
     inheritedName chars charName = false →
     ∃ chars' st' dropped kept,
       recordEmotion now event range chars (charName, emo) = Ended chars' ∧
       chars' !! charName = Some st' ∧
       current_emotion st' = emo ∧
       emotion_history st' = Some kept ∧
       historyOf chars charName ++ [historyEntryOf now event range emo]
       = dropped ++ kept ∧
       length kept = Nat.min 50 (length (historyOf chars charName) + 1) ∧
       last kept = Some (historyEntryOf now event range emo)) ∧
  (∀ now events event pairs charName emo data v,
     emotional_impact event = Some (pairs ++ [(charName, emo)]) →
     updateCharacterStatesFromEvents now (events ++ [event]) data = Ended v →
     ∃ chars' st' kept,
       characters v = Some chars' ∧
       chars' !! charName = Some st' ∧
       current_emotion st' = emo ∧
       emotion_history st' = Some kept ∧
       (length kept ≤ 50)%nat ∧
       last kept
       = Some (historyEntryOf now event
                 (messageRangeOf (default [] (message_ids event))) emo)).
Proof.
  assert (∀ now event range chars c emo,
    ∃ st' dropped kept,
      emotionRecorded now event range chars (c, emo) !! c = Some st' ∧
      current_emotion st' = emo ∧
      emotion_history st' = Some kept ∧
      historyOf chars c ++ [historyEntryOf now event range emo]
      = dropped ++ kept ∧
      length kept = Nat.min 50 (length (historyOf chars c) + 1) ∧
      last kept = Some (historyEntryOf now event range emo)) as Hpair.
  { intros now event range chars c emo.
    destruct (pushTrimmed_kept (historyOf chars c)
                (historyEntryOf now event range emo))
      as (dropped & Hsplit & Hlen & Hlast).
    unfold emotionRecorded. cbv zeta. cbn [fst snd].
    rewrite lookup_insert_eq.
    eexists _, dropped, _. split; [done|]. split; [done|].
    cbn [emotion_history].
    assert (default [] (emotion_history
                          (default (newCharacterState c) (chars !! c)))
            = historyOf chars c) as ->.
    { unfold historyOf. by destruct (chars !! c). }
    done. }
  split; [|split; [|split]].
  - intros now events data Hb. apply update_afterwards; [| |done].
    + intros. by apply emotionRecorded_bounded.
    + intros. by apply witnessRecorded_bounded.
  - intros now events data Hnames. eexists. by apply update_ordinary.
  - intros now event range chars c emo Hname.
    destruct (Hpair now event range chars c emo)
      as (st' & dropped & kept & Hst').
    exists (emotionRecorded now event range chars (c, emo)), st', dropped,
      kept.
    split; [|done]. unfold recordEmotion. cbn [fst]. by rewrite Hname.
  - intros now events event pairs c emo data v Himpact Hended.
    apply update_ended in Hended as ->.
    cbn [characters setCharacters]. rewrite foldl_app. cbn [foldl].
    unfold eventReduced at 1. cbv zeta. rewrite Himpact, foldl_app.
    cbn [foldl].
    set (range := messageRangeOf _).
    set (before := foldl (emotionRecorded now event range) _ pairs).
    destruct (Hpair now event range before c emo)
      as (st1 & dropped & kept & Hst1 & Hemo & Hhist & _ & Hlen & Hlast).
    destruct (foldl_witnessRecorded_keeps (mem_id event)
                (default [] (witnesses event)) _ _ _ Hst1)
      as (st2 & Hst2 & Hh2 & He2).
    eexists _, st2, kept. split; [done|]. split; [exact Hst2|].
    split; [by rewrite He2|]. split; [by rewrite Hh2|].
    split; [lia|done].
Qed.

(** Fifty-one events that each make Alice angry, on the empty vault: the
    call ends, and Alice's history holds the entries of the events [e1] to
    [e50], in this order; that of [e0] is gone. *)
Lemma emotion_history_bounded_witness :
  ∃ v chars' st' kept,
    updateCharacterStatesFromEvents 1000 fiftyOneEvents emptyVault = Ended v ∧
    characters v = Some chars' ∧ historiesBounded chars' ∧
    chars' !! "Alice" = Some st' ∧ current_emotion st' = "angry" ∧
    emotion_history st' = Some kept ∧
    event_id <$> kept = sampleId <$> seq 1 50.
Proof.
  destruct emotion_history_bounded as (Hbound & Hends & _ & Hlast).
  destruct (Hends 1000 fiftyOneEvents emptyVault) as [v Hv].
  { apply Forall_forall. intros event Hevent.
    apply list_elem_of_fmap in Hevent as (i & -> & _).
    split; intros name Hname; cbn in Hname;
      apply list_elem_of_singleton in Hname as ->; cbn;
      unfold prototypeNames; set_solver. }
  pose proof (Hbound 1000 fiftyOneEvents emptyVault empty_bounded) as Hb.
  rewrite Hv in Hb. destruct Hb as (chars' & Hchars' & Hbounded).
  assert (fiftyOneEvents = (angerEvent <$> seq 0 50) ++ [angerEvent 50])
    as Hsplit by done.
  pose proof Hv as Hv'. rewrite Hsplit in Hv'.
  destruct (Hlast 1000 (angerEvent <$> seq 0 50) (angerEvent 50) []
              "Alice" "angry" emptyVault v eq_refl Hv')
    as (chars'' & st' & kept & Hchars'' & Hst' & Hemo & Hkept & _).
  assert (chars'' = chars') as -> by congruence.
  exists v, chars', st', kept.
  split; [done|]. split; [done|]. split; [done|]. split; [done|].
  split; [done|]. split; [done|].
  apply update_ended in Hv. rewrite Hv in Hchars'.
  cbn [characters setCharacters] in Hchars'. apply (inj Some) in Hchars'.
  assert ((fun st => event_id <$> default [] (emotion_history st))
            <$> foldl (eventReduced 1000) (default ∅ (characters emptyVault))
                  fiftyOneEvents !! "Alice"
          = Some (sampleId <$> seq 1 50)) as Hids by by vm_compute.
  rewrite Hchars', Hst' in Hids. cbn [fmap option_fmap option_map] in Hids.
  apply (inj Some) in Hids. by rewrite Hkept in Hids.
Defined.

(* ===================================================================== *)
(** ** linkMemoryToLocation *)
(* ===================================================================== *)

Lemma getLocation_direct d locs name loc :
  locations d = Some locs →
  locs !! normalizeLocationName name = Some loc →
  getLocation (Some d) name = Some loc.
Proof.
  intros Hlocs Hloc. unfold getLocation, getLocations. simpl.
  by rewrite Hlocs; simpl; rewrite Hloc.
Qed.

Lemma getLocation_None d name :
  getLocation (Some d) name = None →
  default ∅ (locations d) !! normalizeLocationName name = None.
Proof.
  unfold getLocation, getLocations. simpl.
  by destruct (default ∅ (locations d) !! normalizeLocationName name).
Qed.

(** A call on a vault in which the memory is linked already changes
    nothing. *)
Lemma link_linked now d locs loc memoryId locationName :
  locations d = Some locs →
  locs !! normalizeLocationName locationName = Some loc →
  memoryId ∈ memory_ids loc →
  linkMemoryToLocation now (Some d) memoryId locationName
  = (Some d, Returns true).
Proof.
  intros Hlocs Hloc Hin. unfold linkMemoryToLocation.
  rewrite (getLocation_direct _ _ _ _ Hlocs Hloc), Hlocs, Hloc.
  by rewrite bool_decide_eq_true_2.
Qed.

(** What a call does: nothing without a vault; a throw that leaves the
    vault as it was; or a vault in which the memory is linked. *)
Lemma link_cases now data memoryId locationName :
  let result := linkMemoryToLocation now data memoryId locationName in
  (data = None ∧ result = (None, Returns false)) ∨
  (result = (data, Throws) ∧
   ∀ now', linkMemoryToLocation now' data memoryId locationName = result) ∨
  (∃ d' locs loc,
     result = (Some d', Returns true) ∧
     locations d' = Some locs ∧
     locs !! normalizeLocationName locationName = Some loc ∧
     memoryId ∈ memory_ids loc).
Proof.
  cbv zeta. destruct data as [d|]; [|by left]. right.
  unfold linkMemoryToLocation.
  destruct (getLocation (Some d) locationName) as [found|] eqn:Hget.
  - destruct (locations d) as [locs|] eqn:Hlocs; [|by left].
    destruct (locs !! normalizeLocationName locationName) as [loc|] eqn:Hloc;
      [|by left].
    right. case_bool_decide as Hin.
    + by exists d, locs, loc.
    + eexists _, _, _. split; [done|]. simpl. split; [done|].
      rewrite lookup_insert_eq. split; [done|]. simpl. set_solver.
  - right. apply getLocation_None in Hget.
    unfold upsertLocation. rewrite Hget. simpl.
    rewrite lookup_insert_eq. simpl.
    eexists _, _, _. split; [done|]. simpl. split; [done|].
    rewrite lookup_insert_eq. split; [done|]. simpl. set_solver.
Qed.

Lemma link_NoDup now data memoryId locationName :
  locationsNoDup data →
  locationsNoDup (linkMemoryToLocation now data memoryId locationName).1.
Proof.
  intros Hnd. destruct data as [d|]; [|done].
  unfold linkMemoryToLocation.
  destruct (getLocation (Some d) locationName) as [found|] eqn:Hget.
  - destruct (locations d) as [locs|] eqn:Hlocs; [|done].
    destruct (locs !! normalizeLocationName locationName) as [loc|] eqn:Hloc;
      [|done].
    case_bool_decide as Hin; [done|]. simpl.
    intros key loc'. unfold getLocations. simpl.
    destruct (decide (normalizeLocationName locationName = key)) as [<-|Hne].
    + rewrite lookup_insert_eq. intros [= <-]. simpl.
      apply NoDup_app. split; [|split].
      * apply (Hnd (normalizeLocationName locationName)).
        unfold getLocations. simpl. by rewrite Hlocs.
      * intros x Hx ->%list_elem_of_singleton. done.
      * apply NoDup_singleton.
    + rewrite lookup_insert_ne by done. intros Hkey.
      apply (Hnd key). unfold getLocations. simpl. by rewrite Hlocs.
  - apply getLocation_None in Hget.
    unfold upsertLocation. rewrite Hget. simpl.
    rewrite lookup_insert_eq. simpl.
    intros key loc'. unfold getLocations. simpl.
    destruct (decide (normalizeLocationName locationName = key)) as [<-|Hne].
    + rewrite lookup_insert_eq. intros [= <-]. simpl. apply NoDup_singleton.
    + rewrite !lookup_insert_ne by done. intros Hkey.
      apply (Hnd key). unfold getLocations. simpl.
      by destruct (locations d).
Qed.

(** C10. Linking is idempotent: a second call with the same memory id and
    location name leaves the vault, and so every location's [memory_ids], as
    the first call left it; a call that returns has the memory linked to
    the location; and a call on a vault in which no location lists a memory
    twice leaves such a vault. *)
Theorem link_is_idempotent now now' data memoryId locationName :
  let first := linkMemoryToLocation now data memoryId locationName in
  let second := linkMemoryToLocation now' first.1 memoryId locationName in
  second.1 = first.1 ∧
  (∀ key, linkedMemories second.1 key = linkedMemories first.1 key) ∧
  (first.2 = Returns true →
   linkedAt first.1 (normalizeLocationName locationName) memoryId) ∧
  (locationsNoDup data → locationsNoDup first.1).
Proof.
  cbv zeta.
  assert ((linkMemoryToLocation now'
             (linkMemoryToLocation now data memoryId locationName).1
             memoryId locationName).1
          = (linkMemoryToLocation now data memoryId locationName).1) as Hsame.
  { destruct (link_cases now data memoryId locationName)
      as [[-> ->] | [[Hthrow Hany] | (d' & locs & loc & -> & Hl & Hk & Hin)]].
    - done.
    - rewrite Hthrow. cbn [fst]. by rewrite Hany, Hthrow.
    - cbn [fst]. by rewrite (link_linked now' d' locs loc). }
  split; [exact Hsame|]. split; [by rewrite Hsame|]. split.
  - destruct (link_cases now data memoryId locationName)
      as [[-> ->] | [[-> _] | (d' & locs & loc & -> & Hl & Hk & Hin)]];
      [done..|].
    intros _. exists (memory_ids loc). split; [|done].
    unfold linkedMemories, getLocations. simpl. by rewrite Hl; simpl; rewrite Hk.
  - apply link_NoDup.
Qed.

(** Linking memory [m2] to the inn, twice. *)
Lemma link_is_idempotent_witness :
  (linkMemoryToLocation 40
     (linkMemoryToLocation 30 (Some innVault) "m2" "the INN!").1
     "m2" "the INN!").1
  = (linkMemoryToLocation 30 (Some innVault) "m2" "the INN!").1 ∧
  linkedAt (linkMemoryToLocation 30 (Some innVault) "m2" "the INN!").1
    "the_inn" "m2" ∧
  locationsNoDup (linkMemoryToLocation 30 (Some innVault) "m2" "the INN!").1.
Proof.
  destruct (link_is_idempotent 30 40 (Some innVault) "m2" "the INN!")
    as (Hsame & _ & Hlinked & Hnodup).
  split; [exact Hsame|]. split.
  - by apply Hlinked.
  - apply Hnodup. intros key loc. unfold getLocations. simpl.
    intros [<- <-]%lookup_singleton_Some. simpl. apply NoDup_singleton.
Defined.

(* ===================================================================== *)
(** ** Auto-hide and branch unhide *)
(* ===================================================================== *)

Lemma visibleFrom_ge chat : ∀ k i, i ∈ visibleFrom k chat → (k ≤ i)%nat.
Proof.
  induction chat as [|m rest IH]; intros k i; simpl.
  - by intros ?%elem_of_nil.
  - destruct (isVisible m).
    + intros [->|Hin]%elem_of_cons; [lia|]. apply IH in Hin. lia.
    + intros Hin. apply IH in Hin. lia.
Qed.

Lemma visibleFrom_NoDup chat : ∀ k, NoDup (visibleFrom k chat).
Proof.
  induction chat as [|m rest IH]; intros k; simpl.
  - constructor.
  - destruct (isVisible m); [|done].
    apply NoDup_cons. split; [|done].
    intros Hin%visibleFrom_ge. lia.
Qed.

Lemma visibleFrom_lookup chat : ∀ k i,
  i ∈ visibleFrom k chat ↔
  ∃ m, (k ≤ i)%nat ∧ chat !! (i - k)%nat = Some m ∧ isVisible m = true.
Proof.
  induction chat as [|m rest IH]; intros k i; simpl.
  - split; [by intros ?%elem_of_nil|]. by intros (m & _ & ? & _).
  - assert (i ∈ visibleFrom (S k) rest ↔
            ∃ m', (k ≤ i)%nat ∧ i ≠ k ∧
                  (m :: rest) !! (i - k)%nat = Some m' ∧ isVisible m' = true)
      as Hrest.
    { rewrite IH. split.
      - intros (m' & Hle & Hm' & Hv). exists m'.
        replace (i - k)%nat with (S (i - S k)) by lia.
        repeat split; [lia|lia|done|done].
      - intros (m' & Hle & Hne & Hm' & Hv). exists m'.
        replace (i - k)%nat with (S (i - S k)) in Hm' by lia.
        repeat split; [lia|done|done]. }
    destruct (isVisible m) eqn:Hm.
    + rewrite elem_of_cons, Hrest. split.
      * intros [->|(m' & ? & ? & ? & ?)].
        -- exists m. rewrite Nat.sub_diag. by repeat split.
        -- by exists m'.
      * intros (m' & Hle & Hm' & Hv).
        destruct (decide (i = k)) as [->|Hne]; [by left|].
        right. by exists m'.
    + rewrite Hrest. split.
      * intros (m' & ? & ? & ? & ?). by exists m'.
      * intros (m' & Hle & Hm' & Hv). exists m'.
        repeat split; try done. intros ->.
        rewrite Nat.sub_diag in Hm'. simpl in Hm'. congruence.
Qed.

Lemma setSystem_true_twice m :
  setSystem true (setSystem true m) = setSystem true m.
Proof. done. Qed.

Lemma hideLoop_lookup E idxs : ∀ st (i : nat),
  hl_chat (foldl (hideStep E) st idxs) !! i
  = if bool_decide (i ∈ idxs ∧ i ∈ E)
    then setSystem true <$> hl_chat st !! i
    else hl_chat st !! i.
Proof.
  induction idxs as [|a idxs IH]; intros st i; cbn [foldl].
  - rewrite bool_decide_eq_false_2; [done|]. by intros [?%elem_of_nil _].
  - rewrite IH. unfold hideStep.
    destruct (decide (i ∈ E)) as [HiE|HiE].
    2:{ rewrite (bool_decide_eq_false_2 (i ∈ idxs ∧ _)) by tauto.
        rewrite (bool_decide_eq_false_2 (i ∈ a :: idxs ∧ _)) by tauto.
        case_bool_decide; simpl; [|done].
        rewrite list_lookup_alter_ne; [done|]. by intros ->. }
    destruct (decide (i = a)) as [->|Hne].
    + rewrite (bool_decide_eq_true_2 (a ∈ E)) by done. simpl.
      rewrite list_lookup_alter_eq.
      rewrite (bool_decide_eq_true_2 (a ∈ a :: idxs ∧ _));
        [|split; [by left|done]].
      case_bool_decide; [|done].
      destruct (hl_chat st !! a); simpl; [|done].
      by rewrite setSystem_true_twice.
    + assert (hl_chat
                (if bool_decide (a ∈ E)
                 then {| hl_chat := alter (setSystem true) a (hl_chat st);
                         hiddenCount := S (hiddenCount st);
                         skippedCount := skippedCount st |}
                 else {| hl_chat := hl_chat st;
                         hiddenCount := hiddenCount st;
                         skippedCount := S (skippedCount st) |}) !! i
              = hl_chat st !! i) as ->.
      { case_bool_decide; simpl; [|done].
        by rewrite list_lookup_alter_ne. }
      destruct (decide (i ∈ idxs)) as [Hin|Hnin].
      * rewrite (bool_decide_eq_true_2 (i ∈ idxs ∧ _)) by done.
        rewrite (bool_decide_eq_true_2 (i ∈ a :: idxs ∧ _)); [done|].
        split; [by right|done].
      * rewrite (bool_decide_eq_false_2 (i ∈ idxs ∧ _)) by tauto.
        rewrite (bool_decide_eq_false_2 (i ∈ a :: idxs ∧ _)); [done|].
        intros [[?|?]%elem_of_cons _]; done.
Qed.

Lemma hideLoop_length E idxs : ∀ st,
  length (hl_chat (foldl (hideStep E) st idxs)) = length (hl_chat st).
Proof.
  induction idxs as [|a idxs IH]; intros st; simpl; [done|].
  rewrite IH. unfold hideStep. case_bool_decide; simpl; [|done].
  apply length_alter.
Qed.

Lemma hideLoop_counts E idxs : ∀ st,
  hiddenCount (foldl (hideStep E) st idxs)
  = (hiddenCount st + length (filter (.∈ E) idxs))%nat ∧
  skippedCount (foldl (hideStep E) st idxs)
  = (skippedCount st + length (filter (.∉ E) idxs))%nat.
Proof.
  induction idxs as [|a idxs IH]; intros st; simpl; [lia|].
  destruct (IH (hideStep E st a)) as [-> ->].
  unfold hideStep. rewrite !filter_cons.
  case_bool_decide; simpl.
  - rewrite decide_True by done. rewrite decide_False by tauto. simpl. lia.
  - rewrite decide_False by done. rewrite decide_True by done. simpl. lia.
Qed.


Lemma changedFrom_same P chat : ∀ k,
  (∀ m, P m m = false) → changedFrom P k chat chat = [].
Proof.
  intros k HP. revert k.
  induction chat as [|m chat IH]; intros k; simpl; [done|].
  by rewrite HP.
Qed.

Lemma filter_none {A} (P : A → Prop) `{∀ x, Decision (P x)} (l : list A) :
  (∀ x, x ∈ l → ¬ P x) → filter P l = [].
Proof.
  induction l as [|x l IH]; intros Hl; [done|].
  rewrite filter_cons, decide_False by (apply Hl; by left).
  apply IH. intros y Hy. apply Hl. by right.
Qed.

Lemma filter_ext_elem {A} (P Q : A → Prop)
    `{∀ x, Decision (P x)} `{∀ x, Decision (Q x)} (l : list A) :
  (∀ x, x ∈ l → (P x ↔ Q x)) → filter P l = filter Q l.
Proof.
  induction l as [|x l IH]; intros Hl; [done|].
  rewrite !filter_cons.
  assert (filter P l = filter Q l) as ->.
  { apply IH. intros y Hy. apply Hl. by right. }
  destruct (decide (P x)) as [HP|HP], (decide (Q x)) as [HQ|HQ]; try done;
    exfalso; apply (Hl x) in HP || apply (Hl x) in HQ; by try left.
Qed.

(** Of a list without repetition, the elements that are among its first
    [n] and satisfy [Q] are the first [n] that satisfy [Q]. *)
Lemma filter_take_NoDup (Q : nat → Prop) `{∀ x, Decision (Q x)}
    (l : list nat) : ∀ n,
  NoDup l →
  filter (fun i => i ∈ take n l ∧ Q i) l = filter Q (take n l).
Proof.
  induction l as [|x l IH]; intros n Hnd; [by destruct n|].
  apply NoDup_cons in Hnd as [Hx Hnd].
  destruct n as [|n].
  - simpl. apply filter_none. by intros y _ [?%elem_of_nil _].
  - cbn [take]. rewrite !filter_cons.
    assert (filter (fun i => i ∈ x :: take n l ∧ Q i) l
            = filter Q (take n l)) as ->.
    { rewrite <- (IH n Hnd). apply filter_ext_elem. intros y Hy.
      rewrite elem_of_cons. split; [|tauto].
      intros [[->|?] ?]; [done|tauto]. }
    destruct (decide (Q x)) as [HQ|HQ].
    + rewrite decide_True; [done|]. split; [by left|done].
    + rewrite decide_False; [done|]. tauto.
Qed.

(** The messages hidden by marking the visible ones whose index is in
    [S]. *)
Lemma changedFrom_marked (S : nat → Prop) `{∀ i, Decision (S i)} before :
  ∀ after k,
  length after = length before →
  (∀ j : nat,
     after !! j
     = (fun m => if decide (S (k + j)%nat) then setSystem true m else m)
         <$> before !! j) →
  changedFrom (fun m m' => isVisible m && negb (isVisible m')) k before after
  = filter S (visibleFrom k before).
Proof.
  induction before as [|m before IH]; intros after k Hlen Hafter.
  - by destruct after.
  - destruct after as [|m' after]; [done|].
    pose proof (Hafter 0%nat) as Hhead. simpl in Hhead.
    injection Hhead as ->. rewrite Nat.add_0_r.
    cbn [changedFrom visibleFrom].
    rewrite (IH after (Datatypes.S k)).
    2:{ simpl in Hlen. lia. }
    2:{ intros j. specialize (Hafter (Datatypes.S j)). simpl in Hafter.
        rewrite Hafter. by replace (k + Datatypes.S j)%nat
                             with (Datatypes.S k + j)%nat by lia. }
    destruct (decide (S k)) as [HS|HS].
    + destruct (isVisible m) eqn:Hm; simpl.
      * by rewrite filter_cons, decide_True.
      * done.
    + destruct (isVisible m) eqn:Hm; simpl.
      * by rewrite filter_cons, decide_False.
      * done.
Qed.

Lemma messagesToHide_nonpos a th : a ≤ th → messagesToHide a th ≤ 0.
Proof.
  intros Hle. unfold messagesToHide.
  pose proof (Z.div_le_mono (a - th) 0 2) as Hdiv.
  rewrite Z.div_0_l in Hdiv by lia. lia.
Qed.

Lemma messagesToHide_bounds a th :
  th < a → 0 ≤ messagesToHide a th ≤ a - th.
Proof.
  intros Hlt. unfold messagesToHide.
  pose proof (Z.div_pos (a - th) 2).
  pose proof (Z.mul_div_le (a - th) 2). lia.
Qed.

(** The messages a call of [autoHideOldMessages] hides. *)
Lemma autoHide_hidden settings E chat :
  newlyHidden chat (hl_chat (autoHideOldMessages settings E chat))
  = if autoHideEnabled settings
    then filter (.∈ E)
           (take (Z.to_nat
                    (messagesToHide (Z.of_nat (length (visibleMessages chat)))
                       (thresholdOf settings)))
              (visibleMessages chat))
    else [].
Proof.
  unfold autoHideOldMessages, newlyHidden.
  assert (∀ m, isVisible m && negb (isVisible m) = false) as Hsame
    by (intros m; by destruct (isVisible m)).
  destruct (autoHideEnabled settings); cbn [negb];
    [|by apply changedFrom_same].
  set (vis := visibleMessages chat).
  set (n := messagesToHide (Z.of_nat (length vis)) (thresholdOf settings)).
  destruct (Z.leb_spec (Z.of_nat (length vis)) (thresholdOf settings))
    as [Hle|Hgt].
  { cbn [hl_chat]. rewrite changedFrom_same by done.
    pose proof (messagesToHide_nonpos _ _ Hle).
    by replace (Z.to_nat n) with 0%nat by (unfold n; lia). }
  destruct (Z.leb_spec n 0) as [Hn|Hn].
  { cbn [hl_chat]. rewrite changedFrom_same by done.
    by replace (Z.to_nat n) with 0%nat by lia. }
  rewrite (changedFrom_marked (fun i => i ∈ take (Z.to_nat n) vis ∧ i ∈ E)).
  - apply filter_take_NoDup, visibleFrom_NoDup.
  - by rewrite hideLoop_length.
  - intros j. rewrite hideLoop_lookup. cbn [hl_chat]. rewrite Nat.add_0_l.
    destruct (decide (j ∈ take (Z.to_nat n) vis ∧ j ∈ E)) as [Hj|Hj].
    + rewrite bool_decide_eq_true_2 by done. by destruct (chat !! j).
    + rewrite bool_decide_eq_false_2 by done. by destruct (chat !! j).
Qed.

Lemma autoHide_count settings E chat :
  hiddenCount (autoHideOldMessages settings E chat)
  = length
      (newlyHidden chat (hl_chat (autoHideOldMessages settings E chat))).
Proof.
  rewrite autoHide_hidden. unfold autoHideOldMessages.
  destruct (autoHideEnabled settings); cbn [negb]; [|done].
  set (vis := visibleMessages chat).
  set (n := messagesToHide (Z.of_nat (length vis)) (thresholdOf settings)).
  destruct (Z.leb_spec (Z.of_nat (length vis)) (thresholdOf settings))
    as [Hle|Hgt].
  { pose proof (messagesToHide_nonpos _ _ Hle).
    by replace (Z.to_nat n) with 0%nat by (unfold n; lia). }
  destruct (Z.leb_spec n 0) as [Hn|Hn].
  { by replace (Z.to_nat n) with 0%nat by lia. }
  by destruct (hideLoop_counts E (take (Z.to_nat n) vis)
                 {| hl_chat := chat; hiddenCount := 0; skippedCount := 0 |})
    as [-> _].
Qed.

Lemma autoHide_unchanged settings E chat :
  Z.of_nat (length (visibleMessages chat)) ≤ thresholdOf settings →
  hl_chat (autoHideOldMessages settings E chat) = chat.
Proof.
  intros Hle. unfold autoHideOldMessages.
  destruct (autoHideEnabled settings); cbn [negb]; [|done].
  by rewrite (proj2 (Z.leb_le _ _) Hle).
Qed.

Lemma filter_all {A} (P : A → Prop) `{∀ x, Decision (P x)} (l : list A) :
  (∀ x, x ∈ l → P x) → filter P l = l.
Proof.
  induction l as [|x l IH]; intros Hl; [done|].
  rewrite filter_cons, decide_True by (apply Hl; by left).
  f_equal. apply IH. intros y Hy. apply Hl. by right.
Qed.

(** C6. Auto-hide hides only messages whose index is among the extracted
    ones, and none when the visible messages are no more than the threshold,
    which is [settings.autoHideThreshold], or 50 when that is missing or 0.
    When auto-hide is enabled, the threshold is not negative and the
    [floor((visibleCount - threshold) / 2) * 2] oldest visible messages have
    all been extracted, it hides exactly those: an even number of messages,
    the greatest one that is no more than [visibleCount - threshold]. With
    threshold 50, set or by default, and 60 or 61 visible messages, all
    extracted, these are the 10 oldest. *)
Theorem auto_hide_policy settings extracted chat :
  let visible := visibleMessages chat in
  let visibleCount := Z.of_nat (length visible) in
  let threshold :=
    match autoHideThreshold settings with
    | Some t => if t =? 0 then 50 else t
    | None => 50
    end in
  let count := (visibleCount - threshold) / 2 * 2 in
  let result := autoHideOldMessages settings extracted chat in
  let hidden := newlyHidden chat (hl_chat result) in
  (∀ idx, idx ∈ hidden → idx ∈ extracted) ∧
  (visibleCount ≤ threshold → hl_chat result = chat ∧ hidden = []) ∧
  (autoHideEnabled settings = true →
   0 ≤ threshold → threshold < visibleCount →
   (∀ idx, idx ∈ take (Z.to_nat count) visible → idx ∈ extracted) →
   hidden = take (Z.to_nat count) visible ∧
   Z.of_nat (length hidden) = count ∧
   hiddenCount result = length hidden ∧
   (∃ pairs, count = 2 * pairs) ∧
   count ≤ visibleCount - threshold < count + 2) ∧
  (autoHideEnabled settings = true →
   autoHideThreshold settings = Some 50 ∨ autoHideThreshold settings = None →
   length visible = 60%nat ∨ length visible = 61%nat →
   (∀ idx, idx ∈ visible → idx ∈ extracted) →
   hidden = take 10 visible ∧ length hidden = 10%nat).
Proof.
  cbv zeta.
  change (match autoHideThreshold settings with
          | Some t => if t =? 0 then 50 else t
          | None => 50
          end) with (thresholdOf settings).
  set (visible := visibleMessages chat).
  set (threshold := thresholdOf settings).
  change ((Z.of_nat (length visible) - threshold) / 2 * 2)
    with (messagesToHide (Z.of_nat (length visible)) threshold).
  set (toHide := messagesToHide (Z.of_nat (length visible)) threshold).
  assert (autoHideEnabled settings = true →
          (∀ idx, idx ∈ take (Z.to_nat toHide) visible → idx ∈ extracted) →
          newlyHidden chat
            (hl_chat (autoHideOldMessages settings extracted chat))
          = take (Z.to_nat toHide) visible) as Hall.
  { intros Hon Hex. rewrite autoHide_hidden, Hon. by apply filter_all. }
  split; [|split; [|split]].
  - intros idx. rewrite autoHide_hidden.
    destruct (autoHideEnabled settings); [|by intros ?%elem_of_nil].
    by intros [? _]%list_elem_of_filter.
  - intros Hle. split; [by apply autoHide_unchanged|].
    rewrite autoHide_unchanged by done.
    apply changedFrom_same. intros m. by destruct (isVisible m).
  - intros Hon Hth Hgt Hex.
    pose proof (messagesToHide_bounds _ _ Hgt) as Hb. fold toHide in Hb.
    rewrite autoHide_count, (Hall Hon Hex).
    split; [done|]. split; [rewrite length_take; lia|]. split; [done|].
    split.
    + exists ((Z.of_nat (length visible) - threshold) / 2).
      unfold toHide, messagesToHide. lia.
    + unfold toHide, messagesToHide.
      pose proof (Z.div_mod (Z.of_nat (length visible) - threshold) 2).
      pose proof (Z.mod_pos_bound (Z.of_nat (length visible) - threshold) 2).
      lia.
  - intros Hon Hth Hlen Hex.
    assert (toHide = 10) as HtoHide.
    { unfold toHide, threshold, thresholdOf, messagesToHide.
      destruct Hth as [->| ->]; destruct Hlen as [->| ->]; reflexivity. }
    rewrite HtoHide in Hall. change (Z.to_nat 10) with 10%nat in Hall.
    rewrite Hall; [|done|].
    + split; [done|]. rewrite length_take. lia.
    + intros idx [i [Hi _]]%elem_of_take.
      by apply Hex, list_elem_of_lookup_2 with i.
Qed.

(** Threshold 50 and sixty visible, extracted messages: the ten oldest
    are hidden. With one message more, and the threshold left to its
    default, they are the ten oldest again. *)
Lemma auto_hide_policy_witness :
  (newlyHidden sixtyMessages
     (hl_chat
        (autoHideOldMessages thresholdFifty sixtyExtracted sixtyMessages))
   = take 10 (visibleMessages sixtyMessages) ∧
   length
     (newlyHidden sixtyMessages
        (hl_chat
           (autoHideOldMessages thresholdFifty sixtyExtracted sixtyMessages)))
   = 10%nat) ∧
  (newlyHidden sixtyOneMessages
     (hl_chat
        (autoHideOldMessages defaultThreshold sixtyOneExtracted
           sixtyOneMessages))
   = seq 0 10 ∧
   hiddenCount
     (autoHideOldMessages defaultThreshold sixtyOneExtracted sixtyOneMessages)
   = 10%nat).
Proof.
  split.
  - apply (auto_hide_policy thresholdFifty sixtyExtracted sixtyMessages).
    + reflexivity.
    + by left.
    + by left.
    + intros idx Hidx. unfold sixtyExtracted.
      apply elem_of_list_to_set. exact Hidx.
  - destruct (auto_hide_policy defaultThreshold sixtyOneExtracted
                sixtyOneMessages) as (_ & _ & Hcount & _).
    destruct Hcount as (Hhidden & _ & Hcounted & _).
    + reflexivity.
    + done.
    + by vm_compute.
    + intros idx Hidx. unfold sixtyOneExtracted.
      apply elem_of_list_to_set.
      apply elem_of_take in Hidx as (i & Hi & _).
      by apply list_elem_of_lookup_2 with i.
    + rewrite Hcounted, Hhidden. split; by vm_compute.
Defined.


Lemma unhide_lookup chat (i : nat) :
  (unhideMessagesForBranch chat).1 !! i
  = (fun m => if unhides m then setSystem false m else m) <$> chat !! i.
Proof.
  unfold unhideMessagesForBranch. destruct chat as [|m chat]; [done|].
  cbn [fst]. apply list_lookup_fmap.
Qed.









(* ===================================================================== *)
(** ** Further facts *)
(* ===================================================================== *)

(** X1. An importance that is a number other than 0 is clamped into 1..5,
    and one that is missing or falsy becomes 3. *)
Theorem importance_clamped generateId now messageIds minId batchId i
    event e :
  enrichEvent generateId now messageIds minId batchId i event = Returns e →
  (∀ z, JS.prop event "importance" = JNum z → z ≠ 0 →
        ev_importance e = Fin (Z.min 5 (Z.max 1 z)) ∧
        1 ≤ Z.min 5 (Z.max 1 z) ≤ 5) ∧
  (JS.truthy (JS.prop event "importance") = false →
        ev_importance e = Fin 3).
Proof.
  unfold enrichEvent. destruct (JS.isNullish event); [done|].
  intros [= <-]. simpl. split.
  - intros z -> Hz. unfold JS.or. simpl.
    destruct (z =? 0) eqn:Hz0; [by apply Z.eqb_eq in Hz0|].
    simpl. split; [done|lia].
  - intros Hfalsy. unfold JS.or. by rewrite Hfalsy.
Qed.

(** An event of importance 9 comes back with importance 5. *)
Lemma importance_clamped_witness :
  ∃ e,
    enrichEvent sampleId 0 [11; 10] (Fin 10) None 0%nat
      (JObj [("summary", JStr "a"); ("importance", JNum 9)]) = Returns e ∧
    ev_importance e = Fin 5.
Proof.
  eexists. split; [reflexivity|].
  apply (importance_clamped sampleId 0 [11; 10] (Fin 10) None 0%nat
           (JObj [("summary", JStr "a"); ("importance", JNum 9)]) _ eq_refl)
    with (z := 9); done.
Defined.

(** X2. A call of [linkMemoryToLocation] whose location name is found by
    [getLocation], but not under its own normalized name (it is an alias of
    a stored location), throws and leaves the vault as it was. *)
Theorem link_by_alias_throws now d locs found memoryId locationName :
  locations d = Some locs →
  locs !! normalizeLocationName locationName = None →
  getLocation (Some d) locationName = Some found →
  linkMemoryToLocation now (Some d) memoryId locationName
  = (Some d, Throws).
Proof.
  intros Hlocs Hnone Hfound. unfold linkMemoryToLocation.
  by rewrite Hfound, Hlocs, Hnone.
Qed.

(** The inn is stored as [the_inn] and has the alias [The Pub]. *)
Lemma link_by_alias_throws_witness :
  linkMemoryToLocation 30 (Some innVault) "m2" "The Pub"
  = (Some innVault, Throws).
Proof.
  apply (link_by_alias_throws 30 innVault {[ "the_inn" := innLocation ]}
           innLocation "m2" "The Pub").
  - reflexivity.
  - by vm_compute.
  - by vm_compute.
Defined.

(* ===================================================================== *)
(** ** Known events of the witnesses *)
(* ===================================================================== *)

Lemma emotionRecorded_knows now event range chars entry c eventId :
  knowsEvent chars c eventId →
  knowsEvent (emotionRecorded now event range chars entry) c eventId.
Proof.
  intros (st & Hst & Hin). destruct entry as [cn emo].
  unfold emotionRecorded. cbv zeta. cbn [fst snd].
  destruct (decide (cn = c)) as [->|Hne].
  - rewrite Hst. simpl. eexists. rewrite lookup_insert_eq. by split.
  - exists st. by rewrite lookup_insert_ne.
Qed.

Lemma witnessRecorded_knows eventId' chars witness c eventId :
  knowsEvent chars c eventId →
  knowsEvent (witnessRecorded eventId' chars witness) c eventId.
Proof.
  intros (st & Hst & Hin). unfold witnessRecorded.
  destruct (decide (witness = c)) as [->|Hne].
  - rewrite Hst, Hst. case_bool_decide; [by exists st|].
    eexists. rewrite lookup_insert_eq. split; [done|]. simpl.
    apply elem_of_app. by left.
  - destruct (chars !! witness) as [stw|] eqn:Hw.
    + rewrite Hw. case_bool_decide; [by exists st|].
      exists st. by rewrite lookup_insert_ne.
    + rewrite lookup_insert_eq. simpl. exists st.
      by rewrite !lookup_insert_ne.
Qed.

Lemma witnessRecorded_self eventId chars witness :
  knowsEvent (witnessRecorded eventId chars witness) witness eventId.
Proof.
  unfold witnessRecorded.
  destruct (chars !! witness) as [st|] eqn:Hw.
  - rewrite Hw. case_bool_decide as Hin; [by exists st|].
    eexists. rewrite lookup_insert_eq. split; [done|]. simpl.
    apply elem_of_app. right. by apply list_elem_of_singleton.
  - rewrite lookup_insert_eq. simpl.
    eexists. rewrite lookup_insert_eq. split; [done|]. simpl.
    by apply list_elem_of_singleton.
Qed.

Lemma foldl_knows {A} (f : gmap string CharacterState → A →
                         gmap string CharacterState) (l : list A) c eventId :
  (∀ chars a, knowsEvent chars c eventId → knowsEvent (f chars a) c eventId) →
  ∀ chars, knowsEvent chars c eventId → knowsEvent (foldl f chars l) c eventId.
Proof.
  intros Hf. induction l as [|a l IH]; intros chars Hk; simpl; [done|].
  apply IH, Hf, Hk.
Qed.

Lemma foldl_witnessRecorded_knows eventId ws : ∀ chars w,
  w ∈ ws → knowsEvent (foldl (witnessRecorded eventId) chars ws) w eventId.
Proof.
  induction ws as [|w0 ws IH]; intros chars w Hin; simpl.
  - by apply elem_of_nil in Hin.
  - apply elem_of_cons in Hin as [->|Hin]; [|by apply IH].
    apply foldl_knows; [intros; by apply witnessRecorded_knows|].
    apply witnessRecorded_self.
Qed.

Lemma eventReduced_knows now chars event c eventId :
  knowsEvent chars c eventId →
  knowsEvent (eventReduced now chars event) c eventId.
Proof.
  intros Hk. unfold eventReduced. cbv zeta.
  apply foldl_knows; [intros; by apply witnessRecorded_knows|].
  destruct (emotional_impact event); [|done].
  apply foldl_knows; [|done]. intros. by apply emotionRecorded_knows.
Qed.

Lemma emotionRecorded_knownNoDup now event range chars entry :
  knownEventsNoDup chars →
  knownEventsNoDup (emotionRecorded now event range chars entry).
Proof.
  intros Hnd c st. destruct entry as [cn emo].
  unfold emotionRecorded. cbv zeta. cbn [fst snd].
  destruct (decide (cn = c)) as [->|Hne].
  - rewrite lookup_insert_eq. intros [= <-]. simpl.
    destruct (chars !! c) as [st0|] eqn:H0; simpl.
    + exact (Hnd _ _ H0).
    + constructor.
  - rewrite lookup_insert_ne by done. apply Hnd.
Qed.

Lemma witnessRecorded_knownNoDup eventId chars witness :
  knownEventsNoDup chars →
  knownEventsNoDup (witnessRecorded eventId chars witness).
Proof.
  intros Hnd c st'. unfold witnessRecorded.
  destruct (chars !! witness) as [st|] eqn:Hw.
  - rewrite Hw. case_bool_decide as Hin; [apply Hnd|].
    destruct (decide (witness = c)) as [->|Hne].
    + rewrite lookup_insert_eq. intros [= <-]. simpl.
      apply NoDup_app. split; [by apply (Hnd c)|]. split.
      * by intros x Hx ->%list_elem_of_singleton.
      * apply NoDup_singleton.
    + rewrite lookup_insert_ne by done. apply Hnd.
  - rewrite lookup_insert_eq. simpl.
    rewrite insert_insert_eq.
    destruct (decide (witness = c)) as [->|Hne].
    + rewrite lookup_insert_eq. intros [= <-]. simpl. apply NoDup_singleton.
    + rewrite lookup_insert_ne by done. apply Hnd.
Qed.

Lemma foldl_knownNoDup {A} (f : gmap string CharacterState → A →
                              gmap string CharacterState) (l : list A) :
  (∀ chars a, knownEventsNoDup chars → knownEventsNoDup (f chars a)) →
  ∀ chars, knownEventsNoDup chars → knownEventsNoDup (foldl f chars l).
Proof.
  intros Hf. induction l as [|a l IH]; intros chars Hb; simpl; [done|].
  apply IH, Hf, Hb.
Qed.

Lemma eventReduced_knownNoDup now chars event :
  knownEventsNoDup chars → knownEventsNoDup (eventReduced now chars event).
Proof.
  intros Hnd. unfold eventReduced. cbv zeta.
  apply foldl_knownNoDup; [intros; by apply witnessRecorded_knownNoDup|].
  destruct (emotional_impact event); [|done].
  apply foldl_knownNoDup; [|done]. intros. by apply emotionRecorded_knownNoDup.
Qed.

Lemma foldl_eventReduced_knows now events : ∀ chars event w ws,
  event ∈ events → witnesses event = Some ws → w ∈ ws →
  knowsEvent (foldl (eventReduced now) chars events) w (mem_id event).
Proof.
  induction events as [|ev events IH]; intros chars event w ws Hin Hws Hw;
    simpl.
  - by apply elem_of_nil in Hin.
  - apply elem_of_cons in Hin as [<-|Hin]; [|by eapply IH].
    apply foldl_knows; [intros; by apply eventReduced_knows|].
    unfold eventReduced. cbv zeta. rewrite Hws. simpl.
    by apply foldl_witnessRecorded_knows.
Qed.

(** A loop that ends keeps what each of its steps that end keeps. *)
Lemma forEach_ended_keeps {A B} (P : A → Prop) (body : A → B → reduced A) l :
  (∀ a x a', P a → body a x = Ended a' → P a') →
  ∀ a a', P a → forEach body a l = Ended a' → P a'.
Proof.
  intros Hbody. induction l as [|x l IH]; intros a a' Ha; cbn [forEach].
  - by intros [= <-].
  - destruct (body a x) as [a1| |] eqn:Hx; cbn [andThen]; [|done..].
    apply IH. by apply (Hbody a x).
Qed.

(** A loop with a step that cannot end does not end. *)
Lemma forEach_stops {A B} (P : A → Prop) (body : A → B → reduced A) l x :
  (∀ a y a', P a → body a y = Ended a' → P a') →
  (∀ a a', P a → body a x ≠ Ended a') →
  x ∈ l →
  ∀ a a', P a → forEach body a l ≠ Ended a'.
Proof.
  intros Hkeeps Hx. induction l as [|y l IH]; intros Hin a a' Ha;
    [destruct (not_elem_of_nil _ Hin)|].
  cbn [forEach]. destruct (body a y) as [a1| |] eqn:Hy; cbn [andThen];
    [|done..].
  apply elem_of_cons in Hin as [<-|Hin]; [by destruct (Hx a a1 Ha)|].
  apply IH; [done|]. by apply (Hkeeps a y).
Qed.

(** A step of the reducer that ends stores nothing under an inherited
    name. *)
Lemma recordEmotion_absent now event range chars entry chars' w :
  w ∈ prototypeNames → chars !! w = None →
  recordEmotion now event range chars entry = Ended chars' →
  chars' !! w = None.
Proof.
  intros Hw Hnone. unfold recordEmotion.
  destruct (inheritedName chars entry.1) eqn:Hname; [done|].
  intros [= <-]. unfold emotionRecorded. cbv zeta.
  rewrite lookup_insert_ne; [done|]. intros Heq.
  unfold inheritedName in Hname. rewrite Heq in Hname.
  by rewrite !bool_decide_eq_true_2 in Hname.
Qed.

Lemma recordWitness_stops eventId chars w chars' :
  w ∈ prototypeNames → chars !! w = None →
  recordWitness eventId chars w ≠ Ended chars'.
Proof.
  intros Hw Hnone. unfold recordWitness, inheritedName.
  by rewrite !bool_decide_eq_true_2.
Qed.

Lemma recordWitness_absent eventId chars witness chars' w :
  w ∈ prototypeNames → chars !! w = None →
  recordWitness eventId chars witness = Ended chars' →
  chars' !! w = None.
Proof.
  intros Hw Hnone Hended.
  destruct (decide (witness = w)) as [->|Hne];
    [by destruct (recordWitness_stops eventId chars w chars')|].
  apply recordWitness_ended in Hended as ->. unfold witnessRecorded.
  destruct (chars !! witness) as [st|] eqn:Hst; rewrite ?Hst.
  - case_bool_decide; [done|]. by rewrite lookup_insert_ne.
  - rewrite lookup_insert_eq. cbn [known_events].
    case_bool_decide; rewrite ?insert_insert_eq, lookup_insert_ne; done.
Qed.

Lemma reduceEvent_absent now chars event chars' w :
  w ∈ prototypeNames → chars !! w = None →
  reduceEvent now chars event = Ended chars' →
  chars' !! w = None.
Proof.
  intros Hw Hnone. unfold reduceEvent. cbv zeta.
  set (range := messageRangeOf _).
  assert (∀ chars0, chars0 !! w = None →
    forEach (recordWitness (mem_id event)) chars0
      (default [] (witnesses event)) = Ended chars' →
    chars' !! w = None) as Hloop.
  { intros chars0. apply (forEach_ended_keeps (fun c => c !! w = None)).
    intros. by eapply recordWitness_absent. }
  destruct (emotional_impact event) as [entries|]; [|by apply Hloop].
  destruct (forEach (recordEmotion now event range) chars entries)
    as [chars1| |] eqn:Hemotions; cbn [andThen]; [|done..].
  apply Hloop.
  apply (forEach_ended_keeps (fun c => c !! w = None)) in Hemotions;
    [done| |done].
  intros. by eapply recordEmotion_absent.
Qed.

Lemma reduceEvent_stops now chars event chars' w :
  w ∈ prototypeNames → chars !! w = None →
  w ∈ default [] (witnesses event) →
  reduceEvent now chars event ≠ Ended chars'.
Proof.
  intros Hw Hnone Hin. unfold reduceEvent. cbv zeta.
  set (range := messageRangeOf _).
  assert (∀ chars0, chars0 !! w = None →
    forEach (recordWitness (mem_id event)) chars0
      (default [] (witnesses event)) ≠ Ended chars') as Hloop.
  { intros chars0.
    apply (forEach_stops (fun c => c !! w = None) _ _ w); [| |done].
    - intros. by eapply recordWitness_absent.
    - intros. by apply recordWitness_stops. }
  destruct (emotional_impact event) as [entries|]; [|by apply Hloop].
  destruct (forEach (recordEmotion now event range) chars entries)
    as [chars1| |] eqn:Hemotions; cbn [andThen]; [|done..].
  apply Hloop.
  apply (forEach_ended_keeps (fun c => c !! w = None)) in Hemotions;
    [done| |done].
  intros. by eapply recordEmotion_absent.
Qed.

(** X3. When a call of [updateCharacterStatesFromEvents] ends, every
    witness of every event of the batch has a character state that lists
    the event among its known events. On a vault in which no character
    lists an event twice none does afterwards, whether the call ends or
    throws. The call ends when no character and no witness of the events
    has the name of a property of [Object.prototype]; it does not end when
    a witness has such a name and the store has no state of this name: what
    the store answers for the name is then no state, and the call throws on
    its [known_events], at once when the event is the first one and has no
    emotional impact. *)
Theorem witnesses_know_events :
  (∀ now events data v,
     updateCharacterStatesFromEvents now events data = Ended v →
     ∃ chars',
       characters v = Some chars' ∧
       ∀ event ws w,
         event ∈ events → witnesses event = Some ws → w ∈ ws →
         knowsEvent chars' w (mem_id event)) ∧
  (∀ now events data,
     knownEventsNoDup (default ∅ (characters data)) →
     afterwards
       (fun v => ∃ chars', characters v = Some chars' ∧ knownEventsNoDup chars')
       (updateCharacterStatesFromEvents now events data)) ∧
  (∀ now events data,
     Forall ordinaryNames events →
     ∃ v, updateCharacterStatesFromEvents now events data = Ended v) ∧
  (∀ now events data event ws w,
     event ∈ events → witnesses event = Some ws → w ∈ ws →
     w ∈ prototypeNames → default ∅ (characters data) !! w = None →
     ∀ v, updateCharacterStatesFromEvents now events data ≠ Ended v) ∧
  (∀ now event rest data w ws,
     emotional_impact event = None → witnesses event = Some (w :: ws) →
     w ∈ prototypeNames → default ∅ (characters data) !! w = None →
     updateCharacterStatesFromEvents now (event :: rest) data
     = Threw (setCharacters (default ∅ (characters data)) data)).
Proof.
  split; [|split; [|split; [|split]]].
  - intros now events data v ->%update_ended. eexists. split; [done|].
    intros event ws w. apply foldl_eventReduced_knows.
  - intros now events data Hnd. apply update_afterwards; [| |done].
    + intros. by apply emotionRecorded_knownNoDup.
    + intros. by apply witnessRecorded_knownNoDup.
  - intros now events data Hnames. eexists. by apply update_ordinary.
  - intros now events data event ws w Hevent Hws Hw Hproto Hnone v.
    unfold updateCharacterStatesFromEvents.
    destruct (forEach (reduceEvent now) _ events) as [chars| |] eqn:Hloop;
      [|done..].
    exfalso. revert Hloop.
    apply (forEach_stops (fun c => c !! w = None) _ _ event); [| |done..].
    + intros. by eapply reduceEvent_absent.
    + intros. apply (reduceEvent_stops _ _ _ _ w); [done..|].
      by rewrite Hws.
  - intros now event rest data w ws Himpact Hws Hproto Hnone.
    unfold updateCharacterStatesFromEvents. cbn [forEach].
    unfold reduceEvent. cbv zeta. rewrite Himpact, Hws.
    cbn [andThen default from_option id forEach].
    assert (recordWitness (mem_id event) (default ∅ (characters data)) w
            = Threw (default ∅ (characters data))) as Hthrows.
    { unfold recordWitness, inheritedName.
      by rewrite !bool_decide_eq_true_2. }
    cbn [default from_option id] in Hthrows. by rewrite Hthrows.
Qed.

(** The quarrel at the inn, seen by Alice and Bob, told twice; and an event
    whose witness is called [constructor], on which the call throws and
    leaves the store empty. *)
Lemma witnesses_know_events_witness :
  (∃ v chars',
     updateCharacterStatesFromEvents 1000 [innEvent; innEvent] emptyVault
     = Ended v ∧
     characters v = Some chars' ∧
     knownEventsNoDup chars' ∧
     knowsEvent chars' "Bob" "m7") ∧
  (∃ v,
     updateCharacterStatesFromEvents 1000 [constructorEvent; innEvent]
       emptyVault = Threw v ∧
     characters v = Some ∅).
Proof.
  destruct witnesses_know_events as (Hknow & Hnd & Hends & _ & Hthrows).
  split.
  - destruct (Hends 1000 [innEvent; innEvent] emptyVault) as [v Hv].
    { repeat constructor; cbn; intros x Hx; unfold prototypeNames;
        set_solver. }
    destruct (Hknow _ _ _ _ Hv) as (chars' & Hchars' & Hbob).
    pose proof (Hnd 1000 [innEvent; innEvent] emptyVault) as Hafter.
    rewrite Hv in Hafter. destruct Hafter as (chars'' & Hchars'' & Hnodup).
    { intros c st Hc. simpl in Hc. by rewrite lookup_empty in Hc. }
    assert (chars'' = chars') as -> by congruence.
    exists v, chars'. split; [done|]. split; [done|]. split; [done|].
    apply (Hbob innEvent ["Alice"; "Bob"] "Bob"); [by left|done|].
    by right; left.
  - eexists. split.
    + apply (Hthrows 1000 constructorEvent [innEvent] emptyVault
               "constructor" []); [done|done| |done].
      by left.
    + done.
Defined.

(* ===================================================================== *)
(** ** The other fields of a parsed event *)
(* ===================================================================== *)

Lemma or_truthy a b : JS.truthy b = true → JS.truthy (JS.or a b) = true.
Proof. intros Hb. unfold JS.or. by destruct (JS.truthy a) eqn:Ha. Qed.

Lemma or_falsy a b :
  JS.truthy b = false → JS.truthy (JS.or a b) = JS.truthy a.
Proof. intros Hb. unfold JS.or. by destruct (JS.truthy a) eqn:Ha. Qed.

Lemma enrichEvent_fields generateId now messageIds minId batchId i event e :
  enrichEvent generateId now messageIds minId batchId i event = Returns e →
  -1 ≤ ev_emotional_valence e ≤ 1 ∧
  (ev_known_by e = JNull ↔ JS.truthy (ev_is_secret e) = false) ∧
  JS.truthy (ev_witnesses e) = true ∧
  ev_message_ids e = messageIds ∧
  ev_batch_id e = batchId ∧
  ev_pinned e = false.
Proof.
  unfold enrichEvent. destruct (JS.isNullish event); [done|].
  intros [= <-]. simpl. split; [|split; [|split; [|done]]].
  - destruct (JS.prop event "emotional_valence"); lia.
  - rewrite or_falsy by done.
    destruct (JS.truthy (JS.prop event "is_secret")) eqn:Hs; [|done].
    split; [|done]. intros Hnull.
    assert (JS.truthy
              (JS.or (JS.prop event "known_by")
                 (JS.or (JS.prop event "witnesses")
                    (JS.or (JS.prop event "characters_involved") (JArr []))))
            = true) as Ht by (do 3 apply or_truthy; done).
    by rewrite Hnull in Ht.
  - by do 2 apply or_truthy.
Qed.

(** X4. Every event [parseExtractionResult] returns has an emotional
    valence in -1..1, has [known_by] null exactly when [is_secret] is
    falsy, has a truthy [witnesses], carries the ids of the batch's messages
    and the batch id, and is not pinned. *)
Theorem parsed_event_fields safeParseJSON generateId now jsonString messages
    characterName userName batchId events e :
  parseExtractionResult safeParseJSON generateId now jsonString messages
    characterName userName batchId = Returns events →
  e ∈ events →
  -1 ≤ ev_emotional_valence e ≤ 1 ∧
  (ev_known_by e = JNull ↔ JS.truthy (ev_is_secret e) = false) ∧
  JS.truthy (ev_witnesses e) = true ∧
  ev_message_ids e = List.map msg_id messages ∧
  ev_batch_id e = batchId ∧
  ev_pinned e = false.
Proof.
  intros Hparse [i Hi]%list_elem_of_lookup_1.
  destruct (parse_lookup _ _ _ _ _ _ _ _ _ _ _ Hparse Hi) as [ev Hev].
  by apply enrichEvent_fields in Hev.
Qed.

(** The second of the two sample events. *)
Lemma parsed_event_fields_witness :
  ∃ e,
    -1 ≤ ev_emotional_valence e ≤ 1 ∧
    (ev_known_by e = JNull ↔ JS.truthy (ev_is_secret e) = false) ∧
    ev_source e = JObj [("summary", JStr "b")].
Proof.
  assert (∃ events e,
            parseExtractionResult sampleParser sampleId 0 twoEventsText
              (messagesFrom 10) "Alice" "User" None = Returns events ∧
            events !! 1%nat = Some e ∧
            ev_source e = JObj [("summary", JStr "b")])
    as (events & e & Hp & He & Hsrc).
  { eexists _, _. split; [reflexivity|]. split; reflexivity. }
  exists e.
  destruct (parsed_event_fields sampleParser sampleId 0 twoEventsText
              (messagesFrom 10) "Alice" "User" None events e Hp
              (list_elem_of_lookup_2 _ _ _ He))
    as (Hv & Hk & _).
  by split; [|split].
Defined.

(* ===================================================================== *)
(** ** Auto-hide: what a run leaves *)
(* ===================================================================== *)

Lemma visibleFrom_marked (S : nat → Prop) `{∀ i, Decision (S i)} before :
  ∀ after k,
  length after = length before →
  (∀ j : nat,
     after !! j
     = (fun m => if decide (S (k + j)%nat) then setSystem true m else m)
         <$> before !! j) →
  visibleFrom k after = filter (fun i => ¬ S i) (visibleFrom k before).
Proof.
  induction before as [|m before IH]; intros after k Hlen Hafter.
  - by destruct after.
  - destruct after as [|m' after]; [done|].
    pose proof (Hafter 0%nat) as Hhead. simpl in Hhead.
    injection Hhead as ->. rewrite Nat.add_0_r.
    cbn [visibleFrom].
    rewrite (IH after (Datatypes.S k)).
    2:{ simpl in Hlen. lia. }
    2:{ intros j. specialize (Hafter (Datatypes.S j)). simpl in Hafter.
        rewrite Hafter. by replace (k + Datatypes.S j)%nat
                             with (Datatypes.S k + j)%nat by lia. }
    destruct (decide (S k)) as [HS|HS].
    + cbn [isVisible setSystem is_system].
      destruct (isVisible m) eqn:Hm; [|done].
      rewrite filter_cons, decide_False; [done|tauto].
    + destruct (isVisible m) eqn:Hm; [|done].
      by rewrite filter_cons, decide_True.
Qed.

(** Of a list without repetition, what is left when its first [n] elements
    go. *)
Lemma filter_drop_NoDup (Q : nat → Prop) `{∀ x, Decision (Q x)}
    (l : list nat) : ∀ n,
  NoDup l → (∀ i, i ∈ take n l → Q i) →
  filter (fun i => ¬ (i ∈ take n l ∧ Q i)) l = drop n l.
Proof.
  induction l as [|x l IH]; intros n Hnd HQ; [by destruct n|].
  apply NoDup_cons in Hnd as [Hx Hnd].
  destruct n as [|n].
  - simpl. apply filter_all. by intros y _ [?%elem_of_nil _].
  - cbn [take drop]. rewrite filter_cons.
    rewrite decide_False.
    2:{ intros Hnot. apply Hnot. split; [by left|]. apply HQ. by left. }
    rewrite <- (IH n Hnd).
    2:{ intros i Hi. apply HQ. by right. }
    apply filter_ext_elem. intros y Hy.
    rewrite elem_of_cons. split.
    + intros Hnot [Hin HQy]. apply Hnot. split; [by right|done].
    + intros Hnot [[->|Hin] HQy]; [done|]. by apply Hnot.
Qed.

Lemma autoHide_lookup settings E chat (i : nat) :
  hl_chat (autoHideOldMessages settings E chat) !! i
  = (fun m =>
       if decide
            (autoHideEnabled settings = true ∧
             i ∈ take (Z.to_nat
                         (messagesToHide
                            (Z.of_nat (length (visibleMessages chat)))
                            (thresholdOf settings)))
                   (visibleMessages chat) ∧
             i ∈ E)
       then setSystem true m else m) <$> chat !! i.
Proof.
  set (vis := visibleMessages chat).
  set (n := messagesToHide (Z.of_nat (length vis)) (thresholdOf settings)).
  assert (∀ P : Prop, ∀ (d : Decision P), ¬ P →
          chat !! i
          = (fun m => if d then setSystem true m else m) <$> chat !! i)
    as Hskip.
  { intros P d HP. destruct d; [done|]. by destruct (chat !! i). }
  unfold autoHideOldMessages. fold vis. fold n.
  destruct (autoHideEnabled settings); cbn [negb hl_chat].
  2:{ apply Hskip. by intros [? _]. }
  destruct (Z.leb_spec (Z.of_nat (length vis)) (thresholdOf settings))
    as [Hle|Hgt].
  { cbn [hl_chat]. pose proof (messagesToHide_nonpos _ _ Hle).
    apply Hskip. replace (Z.to_nat n) with 0%nat by (unfold n; lia).
    by intros (_ & ?%elem_of_nil & _). }
  destruct (Z.leb_spec n 0) as [Hn|Hn].
  { cbn [hl_chat]. apply Hskip. replace (Z.to_nat n) with 0%nat by lia.
    by intros (_ & ?%elem_of_nil & _). }
  rewrite hideLoop_lookup. cbn [hl_chat].
  destruct (decide (i ∈ take (Z.to_nat n) vis ∧ i ∈ E)) as [Hi|Hi].
  - rewrite bool_decide_eq_true_2 by done.
    destruct (decide _) as [|Hno]; [done|]. tauto.
  - rewrite bool_decide_eq_false_2 by done. apply Hskip. tauto.
Qed.

Lemma autoHide_length settings E chat :
  length (hl_chat (autoHideOldMessages settings E chat)) = length chat.
Proof.
  unfold autoHideOldMessages. repeat case_match; cbn [hl_chat]; try done.
  by rewrite hideLoop_length.
Qed.

Lemma autoHide_toHide_nonpos settings E chat :
  messagesToHide (Z.of_nat (length (visibleMessages chat)))
    (thresholdOf settings) ≤ 0 →
  hl_chat (autoHideOldMessages settings E chat) = chat.
Proof.
  intros Hn. unfold autoHideOldMessages.
  repeat case_match; cbn [hl_chat]; try done. lia.
Qed.

(** X5. When auto-hide is enabled, the threshold is not negative, more
    messages are visible than the threshold and the messages it is to hide
    have all been extracted, a run leaves visible the messages after those,
    which are [threshold] or [threshold + 1] many, and a second run, with
    whatever set of extracted messages, changes nothing. *)
Theorem auto_hide_settles settings extracted chat :
  let visible := visibleMessages chat in
  let threshold := thresholdOf settings in
  let toHide := Z.to_nat (messagesToHide (Z.of_nat (length visible)) threshold) in
  let chat' := hl_chat (autoHideOldMessages settings extracted chat) in
  autoHideEnabled settings = true →
  0 ≤ threshold → threshold < Z.of_nat (length visible) →
  (∀ idx, idx ∈ take toHide visible → idx ∈ extracted) →
  visibleMessages chat' = drop toHide visible ∧
  (Z.of_nat (length (visibleMessages chat')) = threshold ∨
   Z.of_nat (length (visibleMessages chat')) = threshold + 1) ∧
  ∀ extracted',
    hl_chat (autoHideOldMessages settings extracted' chat') = chat'.
Proof.
  cbv zeta. intros Hon Hth Hgt Hex.
  set (visible := visibleMessages chat) in *.
  set (threshold := thresholdOf settings) in *.
  set (n := messagesToHide (Z.of_nat (length visible)) threshold) in *.
  assert (visibleMessages
            (hl_chat (autoHideOldMessages settings extracted chat))
          = drop (Z.to_nat n) visible) as Hvis.
  { unfold visibleMessages.
    rewrite (visibleFrom_marked
               (fun i => autoHideEnabled settings = true ∧
                         i ∈ take (Z.to_nat n) visible ∧ i ∈ extracted)
               chat).
    - fold (visibleMessages chat). fold visible.
      rewrite <- (filter_drop_NoDup (.∈ extracted)) by
        (done || apply visibleFrom_NoDup).
      apply filter_ext_elem. intros y _. tauto.
    - apply autoHide_length.
    - intros j. rewrite Nat.add_0_l. apply autoHide_lookup. }
  pose proof (messagesToHide_bounds _ _ Hgt) as Hb. fold n in Hb.
  assert (Z.of_nat (length visible) - n - threshold = 0 ∨
          Z.of_nat (length visible) - n - threshold = 1) as Hrest.
  { unfold n, messagesToHide.
    pose proof (Z.div_mod (Z.of_nat (length visible) - threshold) 2).
    pose proof (Z.mod_pos_bound (Z.of_nat (length visible) - threshold) 2).
    lia. }
  split; [exact Hvis|]. rewrite Hvis, length_drop.
  split; [lia|].
  intros E'. apply autoHide_toHide_nonpos.
  rewrite Hvis, length_drop. fold threshold.
  replace (Z.of_nat (length visible - Z.to_nat n))
    with (Z.of_nat (length visible) - n) by lia.
  unfold messagesToHide.
  destruct Hrest as [Hr|Hr].
  - replace (Z.of_nat (length visible) - n - threshold) with 0 by lia.
    done.
  - replace (Z.of_nat (length visible) - n - threshold) with 1 by lia.
    done.
Qed.

(** Sixty visible messages and threshold 50: fifty stay visible. *)
Lemma auto_hide_settles_witness :
  length
    (visibleMessages
       (hl_chat
          (autoHideOldMessages thresholdFifty sixtyExtracted sixtyMessages)))
  = 50%nat.
Proof.
  destruct (auto_hide_settles thresholdFifty sixtyExtracted sixtyMessages)
    as (Hvis & _ & _).
  - reflexivity.
  - done.
  - reflexivity.
  - intros idx [i [Hi _]]%elem_of_take. unfold sixtyExtracted.
    apply elem_of_list_to_set. by apply list_elem_of_lookup_2 with i.
  - rewrite Hvis. reflexivity.
Defined.

(** X6. A run of auto-hide keeps the length of the chat and, of every
    message, [is_user], [name] and the text; it leaves the flag of a message
    as it is, or sets it on a message that was visible and is among the
    extracted ones. *)
Theorem auto_hide_frame settings extracted chat :
  let chat' := hl_chat (autoHideOldMessages settings extracted chat) in
  length chat' = length chat ∧
  ∀ (idx : nat) m',
    chat' !! idx = Some m' →
    ∃ m, chat !! idx = Some m ∧ sameButFlag m m' ∧
         (m' = m ∨
          is_system m' = Some true ∧ isVisible m = true ∧ idx ∈ extracted).
Proof.
  cbv zeta. split; [apply autoHide_length|].
  intros idx m'. rewrite autoHide_lookup.
  destruct (chat !! idx) as [m|] eqn:Hm; [|done].
  cbn [fmap option_fmap option_map]. intros [= <-]. exists m.
  split; [done|].
  destruct (decide _) as [(Hon & Htake & HE)|Hno].
  - split; [done|]. right. split; [done|]. split; [|done].
    apply elem_of_take in Htake as (i & Hi & _).
    apply list_elem_of_lookup_2 in Hi.
    apply visibleFrom_lookup in Hi as (m0 & _ & Hm0 & Hv).
    rewrite Nat.sub_0_r in Hm0. congruence.
  - split; [done|]. by left.
Qed.

(** Sixty visible messages, threshold 50: message 3 is hidden, message 30
    is as it was. *)
Lemma auto_hide_frame_witness :
  ∃ m3 m30,
    hl_chat (autoHideOldMessages thresholdFifty sixtyExtracted sixtyMessages)
      !! 3%nat = Some m3 ∧
    hl_chat (autoHideOldMessages thresholdFifty sixtyExtracted sixtyMessages)
      !! 30%nat = Some m30 ∧
    sameButFlag (userMessage "hi") m3 ∧ m30 = userMessage "hi".
Proof.
  destruct (auto_hide_frame thresholdFifty sixtyExtracted sixtyMessages)
    as [_ Hframe].
  destruct (Hframe 3%nat (setSystem true (userMessage "hi")) eq_refl)
    as (m & Hm & Hsame & _).
  injection Hm as <-.
  eexists _, _. split; [reflexivity|]. split; [reflexivity|].
  split; [exact Hsame|reflexivity].
Defined.

(* ===================================================================== *)
(** ** Branch unhide *)
(* ===================================================================== *)

Lemma unhide_length chat :
  length (unhideMessagesForBranch chat).1 = length chat.
Proof.
  unfold unhideMessagesForBranch. destruct chat; [done|].
  cbn [fst]. apply length_map.
Qed.

Lemma unhides_after m :
  unhides (if unhides m then setSystem false m else m) = false.
Proof.
  destruct (unhides m) eqn:Hu; [|done].
  unfold unhides. cbn [setSystem is_system].
  by rewrite bool_decide_eq_false_2.
Qed.

Lemma shown_count chat : ∀ k,
  length
    (changedFrom (fun m m' => negb (isVisible m) && isVisible m') k chat
       (List.map (fun m => if unhides m then setSystem false m else m) chat))
  = length (List.filter unhides chat).
Proof.
  induction chat as [|m chat IH]; intros k; [done|].
  cbn [List.map changedFrom List.filter].
  destruct (unhides m) eqn:Hu.
  - unfold unhides in Hu. apply andb_prop in Hu as [Hs _].
    apply bool_decide_eq_true in Hs.
    unfold isVisible at 1 2. cbn [setSystem is_system]. rewrite Hs.
    cbn [negb andb length]. by rewrite IH.
  - destruct (isVisible m); cbn [negb andb]; apply IH.
Qed.

(** X7. [unhideMessagesForBranch] answers the number of messages it made
    visible, and no re-hidden ones; it keeps the length of the chat; after
    it no message that carries [is_user] or [name] is hidden; and a second
    call changes nothing and answers 0. *)
Theorem unhide_effect chat :
  let chat' := (unhideMessagesForBranch chat).1 in
  let result := (unhideMessagesForBranch chat).2 in
  unhiddenCount result = length (newlyShown chat chat') ∧
  rehiddenCount result = 0%nat ∧
  length chat' = length chat ∧
  (∀ (idx : nat) m',
     chat' !! idx = Some m' → isAutoHidden m' = true → isVisible m' = true) ∧
  unhideMessagesForBranch chat'
  = (chat', {| unhiddenCount := 0; rehiddenCount := 0 |}).
Proof.
  cbv zeta. split; [|split; [|split; [|split]]].
  - unfold unhideMessagesForBranch, newlyShown. destruct chat as [|m chat];
      [done|]. cbn [fst snd unhiddenCount]. by rewrite shown_count.
  - unfold unhideMessagesForBranch. by destruct chat.
  - apply unhide_length.
  - intros idx m'. rewrite unhide_lookup.
    destruct (chat !! idx) as [m|]; [|done].
    cbn [fmap option_fmap option_map]. intros [= <-] Hf.
    destruct (unhides m) eqn:Hu; [done|].
    unfold unhides in Hu. rewrite Hf, andb_true_r in Hu.
    apply bool_decide_eq_false in Hu. unfold isVisible.
    destruct (is_system m) as [[]|]; done.
  - unfold unhideMessagesForBranch. destruct chat as [|m chat]; [done|].
    cbn [fst]. set (g := fun m => if unhides m then setSystem false m else m).
    assert (∀ l, List.map g (List.map g l) = List.map g l) as Hmap.
    { induction l as [|x l IH]; [done|]. cbn [List.map]. rewrite IH.
      f_equal. unfold g. by rewrite unhides_after. }
    assert (∀ l, List.filter unhides (List.map g l) = []) as Hfil.
    { induction l as [|x l IH]; [done|]. cbn [List.map List.filter].
      replace (unhides (g x)) with false
        by (unfold g; by rewrite unhides_after).
      exact IH. }
    change (unhideMessagesForBranch (List.map g (m :: chat)))
      with (List.map g (List.map g (m :: chat)),
            {| unhiddenCount :=
                 length (List.filter unhides (List.map g (m :: chat)));
               rehiddenCount := 0 |}).
    by rewrite Hmap, Hfil.
Qed.



(* ===================================================================== *)
(** ** Secrets *)
(* ===================================================================== *)

Lemma values_insert_fresh {A} (m : gmap string A) k x :
  m !! k = None → values (<[k := x]> m) ≡ₚ x :: values m.
Proof.
  intros Hk. unfold values. by rewrite map_to_list_insert.
Qed.

Lemma values_delete {A} (m : gmap string A) k y :
  m !! k = Some y → values m ≡ₚ y :: values (delete k m).
Proof.
  intros Hk. unfold values.
  rewrite <- (insert_id m k y Hk) at 1.
  rewrite <- insert_delete_eq.
  by rewrite map_to_list_insert by apply lookup_delete_eq.
Qed.

Lemma values_insert_stored {A} (m : gmap string A) k x :
  values (<[k := x]> m) ≡ₚ x :: values (delete k m).
Proof.
  unfold values. rewrite <- insert_delete_eq.
  by rewrite map_to_list_insert by apply lookup_delete_eq.
Qed.


Lemma findSecret_Some data secretId secret :
  findSecret data secretId = Some secret →
  ∃ d s, data = Some d ∧ secrets d = Some s ∧ s !! secretId = Some secret.
Proof.
  unfold findSecret. destruct data as [d|]; [|done].
  destruct (secrets d) as [s|] eqn:Hs; [|done]. intros Hk. by exists d, s.
Qed.

Lemma findSecret_store data secretId k x :
  is_Some data →
  findSecret (storeSecret data secretId x) k
  = if decide (secretId = k) then Some x else findSecret data k.
Proof.
  intros [d ->]. unfold findSecret, storeSecret. simpl.
  destruct (decide (secretId = k)) as [->|Hne].
  - by rewrite lookup_insert_eq.
  - rewrite lookup_insert_ne by done. by destruct (secrets d).
Qed.



Lemma getSecrets_store d s secretId x :
  secrets d = Some s →
  getSecrets (storeSecret (Some d) secretId x) = <[secretId := x]> s.
Proof. intros Hs. unfold getSecrets, storeSecret. simpl. by rewrite Hs. Qed.

(** X10. Once [revealSecretPublicly] has put a time stamp other than 0 on a
    stored secret, [getSecretsKnownBy] and [getSecretsUnknownTo] answer, for
    every character, what they would answer had the secret been deleted;
    everything else of the secret is kept. *)
Theorem reveal_publicly_hides now data secretId secret :
  findSecret data secretId = Some secret →
  now ≠ 0 →
  let result := revealSecretPublicly now data secretId in
  result.2 = true ∧
  findSecret result.1 secretId
  = Some (Secret.setRevealedAt (Some now) secret) ∧
  ∀ characterName,
    getSecretsKnownBy result.1 characterName
    ≡ₚ getSecretsKnownBy (deleteSecret data secretId).1 characterName ∧
    getSecretsUnknownTo result.1 characterName
    ≡ₚ getSecretsUnknownTo (deleteSecret data secretId).1 characterName.
Proof.
  intros Hfind Hnow. cbv zeta.
  unfold revealSecretPublicly, deleteSecret. rewrite Hfind. cbn [fst snd].
  destruct (findSecret_Some _ _ _ Hfind) as (d & s & -> & Hs & Hk).
  split; [done|].
  rewrite findSecret_store by done. rewrite decide_True by done.
  split; [done|]. intros c.
  unfold getSecretsKnownBy, getSecretsUnknownTo.
  rewrite !(getSecrets_store d s) by done.
  assert (getSecrets
            ((fun d0 => setSecrets (delete secretId (default ∅ (secrets d0)))
                          d0) <$> Some d) = delete secretId s) as ->.
  { unfold getSecrets. simpl. by rewrite Hs. }
  rewrite !values_insert_stored, !filter_cons.
  rewrite !decide_False; [done| |].
  - intros [_ Hnot]. apply Hnot. exact Hnow.
  - intros [_ Hnot]. apply Hnot. exact Hnow.
Qed.

(** The secret of the letter becomes public: Alice's list is empty. *)
Lemma reveal_publicly_hides_witness :
  getSecretsKnownBy (revealSecretPublicly 200 letterStores "s1").1 "Alice"
  ≡ₚ [].
Proof.
  destruct (reveal_publicly_hides 200 letterStores "s1" _ eq_refl)
    as (_ & _ & Hlists); [done|].
  destruct (Hlists "Alice") as [Hknown _].
  rewrite Hknown. by vm_compute.
Defined.

(** X11. A secret created under an id that is not in use is stored under
    it, not revealed, and from then on [getSecretsKnownBy] lists it for
    exactly the characters of its [known_by] and [getSecretsUnknownTo] for
    all others, beside what they listed before. *)
Theorem create_secret_known newId now d secretData :
  findSecret (Some d) newId = None →
  let result := createSecret newId now (Some d) secretData in
  ∃ secret,
    result.2 = Some secret ∧
    findSecret result.1 newId = Some secret ∧
    Secret.known_by secret = default [] (Secret.d_known_by secretData) ∧
    Secret.revealed_at secret = None ∧
    ∀ characterName,
      getSecretsKnownBy result.1 characterName
      ≡ₚ (if decide (characterName ∈ Secret.known_by secret)
          then [secret] else [])
         ++ getSecretsKnownBy (Some d) characterName ∧
      getSecretsUnknownTo result.1 characterName
      ≡ₚ (if decide (characterName ∈ Secret.known_by secret)
          then [] else [secret])
         ++ getSecretsUnknownTo (Some d) characterName.
Proof.
  intros Hfresh. cbv zeta. unfold createSecret. cbn [fst snd].
  eexists. split; [done|]. split.
  { unfold findSecret. simpl. by rewrite lookup_insert_eq. }
  split; [done|]. split; [done|]. intros c.
  unfold getSecretsKnownBy, getSecretsUnknownTo, getSecrets. simpl.
  assert (default ∅ (secrets d) !! newId = None) as Hnone.
  { unfold findSecret in Hfresh. by destruct (secrets d). }
  rewrite !values_insert_fresh, !filter_cons by done. simpl.
  destruct (decide (c ∈ default [] (Secret.d_known_by secretData)))
    as [Hin|Hnot].
  - rewrite decide_True by (split; [done|tauto]).
    rewrite decide_False by tauto. done.
  - rewrite decide_False by tauto.
    rewrite decide_True by (split; [done|tauto]). done.
Qed.

(** The secret of the letter, created in empty stores. *)
Lemma create_secret_known_witness :
  ∃ secret,
    findSecret letterStores "s1" = Some secret ∧
    getSecretsKnownBy letterStores "Alice" ≡ₚ [secret] ∧
    getSecretsUnknownTo letterStores "Bob" ≡ₚ [secret].
Proof.
  destruct (create_secret_known "s1" 100 emptyStores letterSecret eq_refl)
    as (secret & Hret & Hfind & Hkb & _ & Hlists).
  exists secret. split; [exact Hfind|].
  destruct (Hlists "Alice") as [Ha _]. destruct (Hlists "Bob") as [_ Hb].
  injection Hret as <-. split.
  - unfold letterStores. rewrite Ha. by vm_compute.
  - unfold letterStores. rewrite Hb. by vm_compute.
Defined.

Lemma findMemory_Some memoryId memories : ∀ i m,
  findMemory memoryId memories = Some (i, m) →
  memories !! i = Some m ∧ mem_id m = memoryId ∧
  ∀ j mj, (j < i)%nat → memories !! j = Some mj → mem_id mj ≠ memoryId.
Proof.
  induction memories as [|m0 rest IH]; intros i m; simpl; [done|].
  destruct (String.eqb (mem_id m0) memoryId) eqn:Heq.
  - intros [= <- <-]. apply String.eqb_eq in Heq.
    split; [done|]. split; [done|]. intros j mj Hj. lia.
  - destruct (findMemory memoryId rest) as [[i' m']|] eqn:Hrest; [|done].
    simpl. intros [= <- <-].
    destruct (IH _ _ eq_refl) as (Hl & Hid & Hbefore).
    split; [done|]. split; [done|].
    intros [|j] mj Hj; simpl.
    + intros [= <-]. by apply String.eqb_neq.
    + apply Hbefore. lia.
Qed.

Lemma findMemory_insert memoryId memories i m m' :
  findMemory memoryId memories = Some (i, m) →
  mem_id m' = memoryId →
  findMemory memoryId (<[i := m']> memories) = Some (i, m').
Proof.
  revert i. induction memories as [|m0 rest IH]; intros i; simpl; [done|].
  destruct (String.eqb (mem_id m0) memoryId) eqn:Heq.
  - intros [= <- <-] Hid. simpl. by rewrite Hid, String.eqb_refl.
  - destruct (findMemory memoryId rest) as [[i' m1]|] eqn:Hrest; [|done].
    simpl. intros [= <- <-] Hid. simpl. rewrite Heq.
    by rewrite (IH i' eq_refl Hid).
Qed.

Lemma filter_knowledge_elem memories characterName memory :
  characterName ≠ "" →
  memory ∈ filterMemoriesByKnowledge memories (Some characterName)
  ↔ memory ∈ memories ∧ visibleTo characterName memory.
Proof.
  intros Hname. apply String.eqb_neq in Hname.
  unfold filterMemoriesByKnowledge. rewrite Hname.
  rewrite !list_elem_of_In, filter_In.
  apply and_iff_compat_l. unfold visibleTo.
  destruct (is_secret memory); simpl.
  - destruct (known_by memory) as [knowers|].
    + rewrite bool_decide_eq_true. split.
      * intros Hin. right. by exists knowers.
      * by intros [|(k & [= <-] & Hin)].
    + split; [done|]. by intros [|(k & ? & _)].
  - split; [by left|done].
Qed.

(** X12. [markMemoryAsSecret] changes the first memory with the given id,
    and only its [is_secret] and [known_by]; afterwards
    [filterMemoriesByKnowledge] keeps that memory for a point-of-view
    character exactly when the character is among [knownBy]. When the memory
    was no secret, [unmarkMemoryAsSecret] then gives back the vault as it
    was. *)
Theorem mark_memory_secret d memoryId knownBy (i : nat) m :
  findMemory memoryId (memories d) = Some (i, m) →
  let result := markMemoryAsSecret (Some d) memoryId knownBy in
  let marked := setSecrecy true (Some knownBy) m in
  result.2 = true ∧
  result.1 = Some (setMemories (<[i := marked]> (memories d)) d) ∧
  (∀ characterName,
     characterName ≠ "" →
     marked ∈ filterMemoriesByKnowledge (<[i := marked]> (memories d))
                (Some characterName)
     ↔ characterName ∈ knownBy) ∧
  (is_secret m = false → known_by m = None →
   unmarkMemoryAsSecret result.1 memoryId = (Some d, true)).
Proof.
  intros Hfind. cbv zeta.
  destruct (findMemory_Some _ _ _ _ Hfind) as (Hi & Hid & _).
  unfold markMemoryAsSecret. rewrite Hfind. cbn [fst snd].
  split; [done|]. split; [done|]. split.
  - intros c Hc. rewrite filter_knowledge_elem by done. split.
    + intros [_ [Hs|(k & [= <-] & Hk)]]; [done|done].
    + intros Hk. split.
      * apply list_elem_of_lookup_2 with i.
        apply list_lookup_insert_eq. by eapply lookup_lt_Some.
      * right. by exists knownBy.
  - intros Hs Hk. unfold unmarkMemoryAsSecret.
    cbn [memories setMemories].
    rewrite (findMemory_insert _ _ _ _ _ Hfind) by done.
    rewrite list_insert_insert_eq.
    assert (setSecrecy false None (setSecrecy true (Some knownBy) m) = m)
      as ->.
    { destruct m. cbn in *. by subst. }
    rewrite list_insert_id by done. by destruct d.
Qed.

(** The memory that is no secret becomes Alice's secret, and is freed. *)
Lemma mark_memory_secret_witness :
  (setSecrecy true (Some ["Alice"]) openMemory
   ∈ filterMemoriesByKnowledge
       (<[0%nat := setSecrecy true (Some ["Alice"]) openMemory]>
          (memories twoMemories)) (Some "Alice")) ∧
  unmarkMemoryAsSecret
    (markMemoryAsSecret (Some twoMemories) "m2" ["Alice"]).1 "m2"
  = (Some twoMemories, true).
Proof.
  destruct (mark_memory_secret twoMemories "m2" ["Alice"] 0%nat openMemory
              eq_refl) as (_ & _ & Hfilter & Hback).
  split.
  - apply (Hfilter "Alice"); [done|]. by left.
  - by apply Hback.
Defined.

(* ===================================================================== *)
(** ** Locations *)
(* ===================================================================== *)

Ltac each_char c := destruct c as [[] [] [] [] [] [] [] []]; try done.

Lemma lowerChar_twice c : Str.lowerChar (Str.lowerChar c) = Str.lowerChar c.
Proof. each_char c. Qed.

Lemma toLowerCase_twice s :
  Str.toLowerCase (Str.toLowerCase s) = Str.toLowerCase s.
Proof.
  induction s as [|c s IH]; [done|]. simpl. by rewrite lowerChar_twice, IH.
Qed.

Lemma kept_not_underscore c :
  Str.isSpace c = false →
  Str.isLower c || Str.isDigit c || Str.isSpace c = true →
  nameChar c = true ∧ Ascii.eqb c "_" = false.
Proof. each_char c. Qed.

Lemma includes_double c t :
  Str.includes (String c t) "__"
  = (Ascii.eqb c "_" && startsUnderscore t) || Str.includes t "__".
Proof.
  cbn [Str.includes String.prefix]. f_equal.
  destruct (Ascii.eqb_spec c "_") as [->|Hne].
  - destruct (ascii_dec "_" "_") as [_|]; [|done].
    destruct t as [|b t]; [done|]. cbn [String.prefix startsUnderscore andb].
    destruct (Ascii.eqb_spec b "_") as [->|Hb].
    + destruct (ascii_dec "_" "_"); [by destruct t|done].
    + destruct (ascii_dec "_" b) as [<-|]; done.
  - destruct (ascii_dec "_" c) as [<-|]; done.
Qed.

Lemma keepNameChars_chars s :
  Forall (fun c => Str.isLower c || Str.isDigit c || Str.isSpace c = true)
    (list_ascii_of_string (keepNameChars s)).
Proof.
  induction s as [|c s IH]; simpl; [constructor|].
  destruct (Str.isLower c || Str.isDigit c || Str.isSpace c) eqn:Hc;
    [|done].
  simpl. by constructor.
Qed.

Lemma underscoreRuns_format s : ∀ inRun,
  Forall (fun c => Str.isLower c || Str.isDigit c || Str.isSpace c = true)
    (list_ascii_of_string s) →
  Forall (fun c => nameChar c = true)
    (list_ascii_of_string (underscoreRuns inRun s)) ∧
  Str.includes (underscoreRuns inRun s) "__" = false ∧
  (inRun = true → startsUnderscore (underscoreRuns inRun s) = false).
Proof.
  induction s as [|c s IH]; intros inRun Hs.
  - simpl. by split; [constructor|].
  - simpl in Hs. apply Forall_cons in Hs as [Hc Hs].
    cbn [underscoreRuns]. destruct (Str.isSpace c) eqn:Hsp.
    + destruct (IH true Hs) as (Hchars & Hdouble & Hstart).
      destruct inRun; [by auto|].
      split; [by constructor|]. split; [|done].
      by rewrite includes_double, Hdouble, Hstart.
    + destruct (IH false Hs) as (Hchars & Hdouble & _).
      destruct (kept_not_underscore c Hsp) as [Hname Hnot];
        [by rewrite Hsp|].
      split; [by constructor|]. split; [|done].
      by rewrite includes_double, Hnot, Hdouble.
Qed.

(** X13. A normalized location name holds small letters, digits and
    underscores only, never two underscores in a row, and does not depend
    on the case of the letters of the name. *)
Theorem normalized_name_format name :
  let normalized := normalizeLocationName name in
  Forall (fun c => nameChar c = true) (list_ascii_of_string normalized) ∧
  Str.includes normalized "__" = false ∧
  normalizeLocationName (Str.toLowerCase name) = normalized.
Proof.
  cbv zeta. unfold normalizeLocationName.
  destruct (underscoreRuns_format
              (keepNameChars (Str.trim (Str.toLowerCase name))) false
              (keepNameChars_chars _)) as (Hchars & Hdouble & _).
  split; [done|]. split; [done|]. by rewrite toLowerCase_twice.
Qed.

Lemma upsert_memories now d name :
  ∃ d', (upsertLocation now (Some d) name).1 = Some d'
        ∧ memories d' = memories d.
Proof.
  unfold upsertLocation. cbv zeta.
  destruct (default ∅ (locations d) !! normalizeLocationName name);
    by eexists.
Qed.

Lemma link_memories now d d' memoryId locationName outcome' :
  linkMemoryToLocation now (Some d) memoryId locationName
  = (Some d', outcome') →
  memories d' = memories d.
Proof.
  unfold linkMemoryToLocation. cbv zeta.
  destruct (upsert_memories now d locationName) as (d1 & -> & Hd1).
  intros Hlink.
  assert (∀ d0, memories d0 = memories d →
    match locations d0 with
    | Some locs =>
        match locs !! normalizeLocationName locationName with
        | Some loc =>
            if bool_decide (memoryId ∈ memory_ids loc)
            then (Some d0, Returns true)
            else
              (Some (setLocations
                       (<[normalizeLocationName locationName
                          := pushMemoryId memoryId loc]> locs) d0),
               Returns true)
        | None => (Some d0, Throws)
        end
    | None => (Some d0, Throws)
    end = (Some d', outcome') → memories d' = memories d) as Hstep.
  { intros d0 Hd0 Heq. repeat case_match; by simplify_eq. }
  destruct (getLocation (Some d) locationName);
    [by apply (Hstep d)|by apply (Hstep d1)].
Qed.

(** X14. After a call of [linkMemoryToLocation] that returns,
    [getMemoriesAtLocation] for the same name answers the stored memories
    whose id the location lists, and every stored memory with the id linked
    is among them. *)
Theorem linked_memory_is_found now d memoryId locationName :
  let result := linkMemoryToLocation now (Some d) memoryId locationName in
  result.2 = Returns true →
  ∃ loc,
    getLocation result.1 locationName = Some loc ∧
    memoryId ∈ memory_ids loc ∧
    (∀ m, m ∈ getMemoriesAtLocation result.1 locationName
          ↔ m ∈ memories d ∧ mem_id m ∈ memory_ids loc) ∧
    ∀ m, m ∈ memories d → mem_id m = memoryId →
         m ∈ getMemoriesAtLocation result.1 locationName.
Proof.
  cbv zeta. intros Hret.
  destruct (link_cases now (Some d) memoryId locationName)
    as [[? _] | [[Hthrow _] | (d' & locs & loc & Hres & Hl & Hk & Hin)]].
  - done.
  - rewrite Hthrow in Hret. done.
  - pose proof (link_memories _ _ _ _ _ _ Hres) as Hmem.
    rewrite Hres. cbn [fst]. exists loc.
    pose proof (getLocation_direct _ _ _ _ Hl Hk) as Hget.
    split; [exact Hget|]. split; [exact Hin|].
    assert (∀ m, m ∈ getMemoriesAtLocation (Some d') locationName
                 ↔ m ∈ memories d ∧ mem_id m ∈ memory_ids loc) as Hiff.
    { intros m. unfold getMemoriesAtLocation. rewrite Hget, Hmem.
      rewrite !list_elem_of_In, filter_In.
      by rewrite bool_decide_eq_true, !list_elem_of_In. }
    split; [exact Hiff|].
    intros m Hm Hid. apply Hiff. split; [done|]. by rewrite Hid.
Qed.

(** Memory [m2] is linked to the inn and found there with [m1]. *)
Lemma linked_memory_is_found_witness :
  getMemoriesAtLocation
    (linkMemoryToLocation 30 (Some innMemoryVault) "m2" "The Inn").1
    "The Inn"
  = [aliceSecret; openMemory] ∧
  openMemory
  ∈ getMemoriesAtLocation
      (linkMemoryToLocation 30 (Some innMemoryVault) "m2" "The Inn").1
      "The Inn".
Proof.
  split; [by vm_compute|].
  destruct (linked_memory_is_found 30 innMemoryVault "m2" "The Inn")
    as (loc & _ & _ & _ & Hfound); [by vm_compute|].
  apply Hfound; [|done]. by right; left.
Defined.





Lemma upsert_cases now d name :
  let normalized := normalizeLocationName name in
  let locs := default ∅ (locations d) in
  ∃ loc,
    upsertLocation now (Some d) name
    = (Some (setLocations (<[normalized := loc]> locs) d), Some loc) ∧
    last_visit loc = now ∧
    match locs !! normalized with
    | Some existing =>
        visit_count loc = visit_count existing + 1 ∧
        first_visit loc = first_visit existing ∧
        loc_name loc = loc_name existing ∧
        memory_ids loc = memory_ids existing ∧
        aliases loc = aliases existing ∧
        parent_location loc = parent_location existing
    | None =>
        visit_count loc = 1 ∧ first_visit loc = now ∧
        loc_name loc = Str.trim name ∧ memory_ids loc = [] ∧
        aliases loc = [] ∧ parent_location loc = None
    end.
Proof.
  cbv zeta. unfold upsertLocation. cbv zeta.
  destruct (default ∅ (locations d) !! normalizeLocationName name);
    by eexists.
Qed.



Lemma hasAlias_pushAlias alias loc :
  hasAlias (normalizeLocationName alias) (pushAlias alias loc) = true.
Proof.
  unfold hasAlias, pushAlias. cbn [aliases].
  rewrite existsb_app. cbn [existsb].
  by rewrite String.eqb_refl, orb_true_r.
Qed.





(** X18. [deleteLocation] undoes the first visit of a location: a location
    that [upsertLocation] has created is deleted by its name, the call
    answers [true], and the vault has the locations it had before. A vault
    that had a store of locations is as it was; a vault that had none has
    an empty store afterwards, and is not as it was. *)
Theorem upsert_then_delete now d name :
  default ∅ (locations d) !! normalizeLocationName name = None →
  deleteLocation (upsertLocation now (Some d) name).1 name
  = (Some (setLocations (default ∅ (locations d)) d), true) ∧
  (∀ locs, locations d = Some locs →
     setLocations (default ∅ (locations d)) d = d) ∧
  (locations d = None →
     locations (setLocations (default ∅ (locations d)) d) = Some ∅ ∧
     setLocations (default ∅ (locations d)) d ≠ d).
Proof.
  intros Hnone. split; [|split].
  - destruct (upsert_cases now d name) as (loc & -> & _). cbn [fst].
    unfold deleteLocation. cbv zeta. cbn [locations setLocations].
    rewrite lookup_insert_eq.
    by rewrite delete_insert_eq, delete_id by done.
  - intros locs Hlocs. destruct d. cbn in *. by subst.
  - intros Hlocs. rewrite Hlocs. cbn [default from_option locations
      setLocations]. split; [done|]. intros Heq. rewrite <- Heq in Hlocs.
    discriminate Hlocs.
Qed.

(** The market is visited once and deleted, on a vault that knows the inn
    and on the empty vault. *)
Lemma upsert_then_delete_witness :
  deleteLocation (upsertLocation 30 (Some innVault) "Market").1 "market"
  = (Some innVault, true) ∧
  deleteLocation (upsertLocation 30 (Some emptyVault) "Market").1 "market"
  = (Some (setLocations ∅ emptyVault), true).
Proof.
  split.
  - destruct (upsert_then_delete 30 innVault "Market") as (Hdel & Hsame & _);
      [by vm_compute|].
    rewrite (Hsame _ eq_refl) in Hdel. exact Hdel.
  - destruct (upsert_then_delete 30 emptyVault "Market") as (Hdel & _);
      [by vm_compute|].
    exact Hdel.
Defined.





(* ===================================================================== *)
(** ** The stored relationships *)
(* ===================================================================== *)

Ltac keeps_frame := intros r; unfold bump, applyDelta; by repeat case_match.

Section FrameSteps.
Variables (up down : bool) (impact : jsval) (field : string).

Lemma frame_bump_trust : keepsFrame (bump up down trust_level Rel.setTrust).
Proof. keeps_frame. Qed.
Lemma frame_bump_tension :
  keepsFrame (bump up down tension_level Rel.setTension).
Proof. keeps_frame. Qed.
Lemma frame_bump_respect :
  keepsFrame (bump up down respect_level Rel.setRespect).
Proof. keeps_frame. Qed.
Lemma frame_bump_attraction :
  keepsFrame (bump up down attraction_level Rel.setAttraction).
Proof. keeps_frame. Qed.
Lemma frame_bump_fear : keepsFrame (bump up down fear_level Rel.setFear).
Proof. keeps_frame. Qed.
Lemma frame_bump_loyalty :
  keepsFrame (bump up down loyalty_level Rel.setLoyalty).
Proof. keeps_frame. Qed.
Lemma frame_bump_familiarity :
  keepsFrame (bump up down familiarity_level Rel.setFamiliarity).
Proof. keeps_frame. Qed.

Lemma frame_delta_trust :
  keepsFrame (applyDelta impact field trust_level Rel.setTrust).
Proof. keeps_frame. Qed.
Lemma frame_delta_tension :
  keepsFrame (applyDelta impact field tension_level Rel.setTension).
Proof. keeps_frame. Qed.
Lemma frame_delta_respect :
  keepsFrame (applyDelta impact field respect_level Rel.setRespect).
Proof. keeps_frame. Qed.
Lemma frame_delta_attraction :
  keepsFrame (applyDelta impact field attraction_level Rel.setAttraction).
Proof. keeps_frame. Qed.
Lemma frame_delta_fear :
  keepsFrame (applyDelta impact field fear_level Rel.setFear).
Proof. keeps_frame. Qed.
Lemma frame_delta_loyalty :
  keepsFrame (applyDelta impact field loyalty_level Rel.setLoyalty).
Proof. keeps_frame. Qed.
Lemma frame_delta_familiarity :
  keepsFrame (applyDelta impact field familiarity_level Rel.setFamiliarity).
Proof. keeps_frame. Qed.

End FrameSteps.

Lemma applyImpact_frame impact : keepsFrame (fun rel => applyImpact rel impact).
Proof.
  intros r. unfold applyImpact. destruct (JS.isObject impact).
  - unfold applyStructuredImpact. cbv zeta.
    by rewrite frame_delta_familiarity, frame_delta_loyalty, frame_delta_fear,
      frame_delta_attraction, frame_delta_respect, frame_delta_tension,
      frame_delta_trust.
  - rewrite applyLegacyImpact_steps. cbv zeta.
    by rewrite frame_bump_familiarity, frame_bump_loyalty, frame_bump_fear,
      frame_bump_attraction, frame_bump_respect, frame_bump_tension,
      frame_bump_trust.
Qed.

Lemma pushHistory_inRange entry rel :
  dimensionsInRange rel → dimensionsInRange (pushHistory entry rel).
Proof. done. Qed.

(** An invariant of the store that every relationship written by the loop
    body has goes through the loops. *)
Lemma foldl_recordImpact_inv (P : gmap string Relationship → Prop) now event
    (Hstep : ∀ rels entry, P rels → P (recordImpact now event rels entry))
    entries' : ∀ rels,
  P rels → P (foldl (recordImpact now event) rels entries').
Proof.
  induction entries' as [|entry rest IH]; intros rels Hrels; [done|].
  cbn [foldl]. by apply IH, Hstep.
Qed.

Lemma update_inv (P : gmap string Relationship → Prop) now
    (Hstep : ∀ event rels entry, P rels → P (recordImpact now event rels entry))
    events : ∀ rels,
  P rels → P (foldl (recordImpacts now) rels events).
Proof.
  induction events as [|event rest IH]; intros rels Hrels; [done|].
  cbn [foldl]. apply IH. unfold recordImpacts.
  destruct (JS.truthy _); [|done].
  by apply foldl_recordImpact_inv; [apply Hstep|].
Qed.

Lemma recordImpact_inRange now event rels entry :
  relationshipsInRange rels →
  relationshipsInRange (recordImpact now event rels entry).
Proof.
  intros Hrels. unfold recordImpact. cbv zeta.
  destruct (matchRelationKey entry.1) as [[charA charB]|]; [|done].
  intros key rel.
  destruct (decide (relationshipKey (sortedNames charA charB) = key))
    as [<-|Hne].
  - rewrite lookup_insert_eq. injection 1 as <-.
    apply pushHistory_inRange, applyImpact_inRange.
    destruct (rels !! _) as [stored|] eqn:Hstored; cbn.
    + by eapply Hrels.
    + apply newRelationship_inRange.
  - rewrite lookup_insert_ne by done. apply Hrels.
Qed.

(** X20. [updateRelationshipsFromEvents] keeps the range of the stored
    relationships: when the seven dimensions of every relationship of the
    store lie in 0..10 before the call, they do after it, for the
    relationships the call creates as for those it updates. *)
Theorem relationships_stay_in_range now events data :
  relationshipsInRange (default ∅ (relationships data)) →
  relationshipsInRange
    (default ∅ (relationships (updateRelationshipsFromEvents now events data))).
Proof.
  intros Hrels. unfold updateRelationshipsFromEvents.
  cbn [relationships setRelationships default from_option id].
  apply update_inv; [|done].
  intros event rels entry. apply recordImpact_inRange.
Qed.

(** The store after the two events of the quarrel, which ask for trust
    below 0 and tension above 10. *)
Lemma relationships_stay_in_range_witness :
  relationshipsInRange
    (default ∅ (relationships
                  (updateRelationshipsFromEvents 7 quarrelEvents emptyStores)))
  ∧ trust_level
      <$> default ∅ (relationships
                       (updateRelationshipsFromEvents 7 quarrelEvents
                          emptyStores)) !! "Alice<->Bob" = Some 0.
Proof.
  split; [|by vm_compute].
  apply (relationships_stay_in_range 7 quarrelEvents emptyStores).
  intros key rel Hnone. cbn in Hnone. by rewrite lookup_empty in Hnone.
Defined.

Lemma ltb_asym a b : String.ltb b a = true → String.ltb a b = false.
Proof.
  unfold String.ltb. rewrite (String.compare_antisym b a).
  by destruct (String.compare a b).
Qed.

Lemma sortedNames_sorted a b :
  String.ltb (sortedNames a b).2 (sortedNames a b).1 = false.
Proof.
  unfold sortedNames. destruct (String.ltb b a) eqn:Hlt; cbn [fst snd].
  - by apply ltb_asym.
  - done.
Qed.

Lemma sortedNames_sym a b : sortedNames a b = sortedNames b a.
Proof.
  unfold sortedNames.
  destruct (String.ltb b a) eqn:Hba.
  - by rewrite (ltb_asym _ _ Hba).
  - destruct (String.ltb a b) eqn:Hab; [done|].
    unfold String.ltb in Hba, Hab.
    destruct (String.compare a b) eqn:Hcmp; try done.
    + by apply String.compare_eq_iff in Hcmp as ->.
    + rewrite String.compare_antisym, Hcmp in Hba. done.
Qed.

Lemma recordImpact_keyed now event rels entry :
  keyedByNames rels → keyedByNames (recordImpact now event rels entry).
Proof.
  intros Hrels. unfold recordImpact. cbv zeta.
  destruct (matchRelationKey entry.1) as [[charA charB]|]; [|done].
  intros key rel.
  destruct (decide (relationshipKey (sortedNames charA charB) = key))
    as [<-|Hne].
  - rewrite lookup_insert_eq. injection 1 as <-.
    cbn [character_a character_b pushHistory].
    set (stored := default _ _).
    pose proof (applyImpact_frame entry.2 stored) as Hframe.
    unfold frame in Hframe. injection Hframe as -> -> _ _ _.
    subst stored.
    destruct (rels !! _) as [stored|] eqn:Hstored; cbn.
    + by destruct (Hrels _ _ Hstored) as [<- ?].
    + split; [by destruct (sortedNames charA charB)|].
      apply sortedNames_sorted.
  - rewrite lookup_insert_ne by done. apply Hrels.
Qed.

(** X21. [updateRelationshipsFromEvents] keeps the keys of the store: when
    every relationship is stored under the key [a<->b] of its two names,
    with [a] not after [b] in the order of the strings, this is so after the
    call. *)
Theorem relationship_keys now events data :
  keyedByNames (default ∅ (relationships data)) →
  keyedByNames
    (default ∅ (relationships (updateRelationshipsFromEvents now events data))).
Proof.
  intros Hrels. unfold updateRelationshipsFromEvents.
  cbn [relationships setRelationships default from_option id].
  apply update_inv; [|done].
  intros event rels entry. apply recordImpact_keyed.
Qed.

(** The store after the two events of the quarrel holds Alice before Bob. *)
Lemma relationship_keys_witness :
  keyedByNames
    (default ∅ (relationships
                  (updateRelationshipsFromEvents 7 quarrelEvents emptyStores)))
  ∧ dom (default ∅ (relationships
                      (updateRelationshipsFromEvents 7 quarrelEvents
                         emptyStores)))
    = {[ "Alice<->Bob" ]}.
Proof.
  split; [|by vm_compute].
  apply (relationship_keys 7 quarrelEvents emptyStores).
  intros key rel Hnone. cbn in Hnone. by rewrite lookup_empty in Hnone.
Defined.

Lemma recordImpact_matched now event rels relationKey impact charA charB :
  matchRelationKey relationKey = Some (charA, charB) →
  let key := relationshipKey (sortedNames charA charB) in
  let before :=
    default (newRelationship (sortedNames charA charB).1
               (sortedNames charA charB).2) (rels !! key) in
  let rels' := recordImpact now event rels (relationKey, impact) in
  (∀ k, k ≠ key → rels' !! k = rels !! k) ∧
  ∃ rel entry,
    rels' !! key = Some rel ∧
    history rel = history before ++ [entry] ∧
    rh_direction entry = charA +:+ "->" +:+ charB ∧
    rh_impact entry = impact ∧
    rh_event_id entry = ev_id event.
Proof.
  intros Hmatch. cbv zeta. unfold recordImpact. cbv zeta. cbn [fst snd].
  rewrite Hmatch. split.
  { intros k Hk. by rewrite lookup_insert_ne. }
  rewrite lookup_insert_eq. eexists _, _. split; [done|].
  cbn [history pushHistory].
  set (stored := default _ _).
  pose proof (applyImpact_frame impact stored) as Hframe.
  unfold frame in Hframe. injection Hframe as _ _ _ -> _. done.
Qed.

(** X22. The two directions of a pair of characters share one
    relationship: after an impact under a key that reads [charA -> charB]
    and one under a key that reads [charB -> charA], the relationship
    stored under the key of the sorted names has two entries more in its
    history, one for each direction and in this order, and every other
    relationship of the store is as before. *)
Theorem directions_share_relationship now now' event event' rels keyAB keyBA
    impact impact' charA charB :
  matchRelationKey keyAB = Some (charA, charB) →
  matchRelationKey keyBA = Some (charB, charA) →
  let key := relationshipKey (sortedNames charA charB) in
  let before :=
    default (newRelationship (sortedNames charA charB).1
               (sortedNames charA charB).2) (rels !! key) in
  let rels' :=
    recordImpact now' event'
      (recordImpact now event rels (keyAB, impact)) (keyBA, impact') in
  (∀ k, k ≠ key → rels' !! k = rels !! k) ∧
  ∃ rel,
    rels' !! key = Some rel ∧
    rh_direction <$> history rel
    = (rh_direction <$> history before)
      ++ [charA +:+ "->" +:+ charB; charB +:+ "->" +:+ charA] ∧
    rh_impact <$> history rel
    = (rh_impact <$> history before) ++ [impact; impact'].
Proof.
  intros HAB HBA. cbv zeta.
  destruct (recordImpact_matched now event rels keyAB impact _ _ HAB)
    as (Hothers & rel1 & entry1 & Hrel1 & Hhist1 & Hdir1 & Himp1 & _).
  set (rels1 := recordImpact now event rels (keyAB, impact)) in *.
  destruct (recordImpact_matched now' event' rels1 keyBA impact' _ _ HBA)
    as (Hothers' & rel2 & entry2 & Hrel2 & Hhist2 & Hdir2 & Himp2 & _).
  rewrite (sortedNames_sym charB charA) in Hothers', Hrel2, Hhist2.
  split.
  { intros k Hk. by rewrite Hothers', Hothers. }
  exists rel2. split; [done|].
  rewrite Hhist2, Hrel1. cbn [default from_option id].
  rewrite Hhist1, !fmap_app, <- !(assoc_L (++)). cbn.
  by rewrite Hdir1, Hdir2, Himp1, Himp2.
Qed.

(** Alice to Bob, then Bob to Alice, in an empty store. *)
Lemma directions_share_relationship_witness :
  ∃ rel,
    recordImpact 8 (plainEvent "e1" [5])
      (recordImpact 7 (plainEvent "e0" [3; 4]) ∅
         ("Alice->Bob", JStr "Trust deepens"))
      ("Bob -> Alice", JStr "Trust lost") !! "Alice<->Bob" = Some rel ∧
    rh_direction <$> history rel = ["Alice->Bob"; "Bob->Alice"].
Proof.
  destruct (directions_share_relationship 7 8
              (plainEvent "e0" [3; 4])
              (plainEvent "e1" [5]) ∅
              "Alice->Bob" "Bob -> Alice"
              (JStr "Trust deepens") (JStr "Trust lost") "Alice" "Bob")
    as (_ & rel & Hrel & Hdir & _); [by vm_compute|by vm_compute|].
  by exists rel.
Defined.

(* ===================================================================== *)
(** ** The pattern of the relationship keys *)
(* ===================================================================== *)

Lemma append_nil s : "" +:+ s = s.
Proof. done. Qed.

Lemma append_cons c s t : String c s +:+ t = String c (s +:+ t).
Proof. done. Qed.

Lemma append_nil_r s : s +:+ "" = s.
Proof.
  induction s as [|c s IH]; [done|]. by rewrite append_cons, IH.
Qed.

Section Backtracking.
Context {A : Type} (cls : ascii → bool) (k : string → option A).

Lemma greedy_sound s : ∀ taken a,
  Regex.greedy cls k s = Some (taken, a) →
  ∃ rest, s = taken +:+ rest ∧ allChars cls taken = true ∧ k rest = Some a.
Proof.
  assert (∀ s taken a, pair EmptyString <$> k s = Some (taken, a) →
    ∃ rest, s = taken +:+ rest ∧ allChars cls taken = true ∧ k rest = Some a)
    as Hstop.
  { intros s0 taken a H0. destruct (k s0) as [a0|] eqn:Hk; [|done].
    injection H0 as <- <-. by exists s0. }
  induction s as [|c s IH]; intros taken a; cbn [Regex.greedy];
    [apply Hstop|].
  destruct (cls c) eqn:Hc; [|apply Hstop].
  destruct (Regex.greedy cls k s) as [[taken' a']|] eqn:Hmore; [|apply Hstop].
  injection 1 as <- <-.
  destruct (IH _ _ eq_refl) as (rest & -> & Hall & Hk).
  exists rest. cbn. by rewrite Hc, Hall.
Qed.

Lemma lazy_sound s : ∀ taken a,
  Regex.lazy cls k s = Some (taken, a) →
  ∃ rest, s = taken +:+ rest ∧ allChars cls taken = true ∧ k rest = Some a.
Proof.
  induction s as [|c s IH]; intros taken a; cbn [Regex.lazy].
  - destruct (k EmptyString) as [a0|] eqn:Hk; [|done].
    injection 1 as <- <-. by exists EmptyString.
  - destruct (k (String c s)) as [a0|] eqn:Hk.
    { injection 1 as <- <-. by exists (String c s). }
    destruct (cls c) eqn:Hc; [|done].
    destruct (Regex.lazy cls k s) as [[taken' a']|] eqn:Hmore; [|done].
    injection 1 as <- <-.
    destruct (IH _ _ eq_refl) as (rest & -> & Hall & Hk').
    exists rest. cbn. by rewrite Hc, Hall.
Qed.

(** A run of the class that ends where the class does, before a rest that
    matches, is what the greedy star takes. *)
Lemma greedy_run rest a run :
  allChars cls run = true →
  match rest with String c _ => cls c = false | EmptyString => True end →
  k rest = Some a →
  Regex.greedy cls k (run +:+ rest) = Some (run, a).
Proof.
  intros Hrun Hrest Hk. induction run as [|c run IH].
  - rewrite append_nil. destruct rest as [|c rest]; cbn; [by rewrite Hk|].
    by rewrite Hrest, Hk.
  - cbn in Hrun. apply andb_true_iff in Hrun as [Hc Hrun].
    rewrite append_cons. cbn. by rewrite Hc, IH.
Qed.

End Backtracking.

Lemma oneThen_sound {A} cls (run : string → option (string * A)) s taken a :
  Regex.oneThen cls run s = Some (taken, a) →
  ∃ c s' taken',
    s = String c s' ∧ taken = String c taken' ∧ cls c = true ∧
    run s' = Some (taken', a).
Proof.
  unfold Regex.oneThen. destruct s as [|c s]; [done|].
  destruct (cls c) eqn:Hc; [|done].
  destruct (run s) as [[taken' a']|] eqn:Hrun; [|done].
  injection 1 as <- <-. by exists c, s, taken'.
Qed.

(** What a pattern matches is the text, cut into one piece for each item. *)
Lemma matchItems_sound items : ∀ s caps,
  Regex.matchItems items s = Some caps →
  Forall2 matchedBy items caps ∧ String.concat "" caps = s.
Proof.
  induction items as [|it rest IH]; intros s caps; cbn [Regex.matchItems].
  { destruct s; [|done]. injection 1 as <-. by split; [constructor|]. }
  unfold matchedBy.
  destruct (Regex.quant it) eqn:Hq; cbn.
  - destruct (Regex.oneThen _ _ s) as [[taken caps']|] eqn:Hone; [|done].
    injection 1 as <-.
    apply oneThen_sound in Hone as (c & s' & taken' & -> & -> & Hc & Hrun).
    destruct (Regex.matchItems rest s') as [caps0|] eqn:Hrest; [|done].
    injection Hrun as <- <-.
    destruct (IH _ _ Hrest) as [Hall <-].
    split; [constructor; [|done]|].
    + rewrite Hq. cbn. by rewrite Hc.
    + cbn [fst snd]. by destruct caps0.
  - destruct (Regex.greedy _ _ s) as [[taken caps']|] eqn:Hrun; [|done].
    injection 1 as <-.
    apply greedy_sound in Hrun as (s' & -> & Htaken & Hrest).
    destruct (IH _ _ Hrest) as [Hall <-].
    split; [constructor; [|done]|].
    + by rewrite Hq.
    + cbn [fst snd]. destruct caps'; cbn; [|done].
      by rewrite append_nil_r.
  - destruct (Regex.oneThen _ _ s) as [[taken caps']|] eqn:Hone; [|done].
    injection 1 as <-.
    apply oneThen_sound in Hone as (c & s' & taken' & -> & -> & Hc & Hrun).
    apply greedy_sound in Hrun as (s'' & -> & Htaken & Hrest).
    destruct (IH _ _ Hrest) as [Hall <-].
    split; [constructor; [|done]|].
    + rewrite Hq. cbn. by rewrite Hc, Htaken.
    + cbn [fst snd]. destruct caps'; cbn; [|done].
      by rewrite append_nil_r.
  - destruct (Regex.oneThen _ _ s) as [[taken caps']|] eqn:Hone; [|done].
    injection 1 as <-.
    apply oneThen_sound in Hone as (c & s' & taken' & -> & -> & Hc & Hrun).
    apply lazy_sound in Hrun as (s'' & -> & Htaken & Hrest).
    destruct (IH _ _ Hrest) as [Hall <-].
    split; [constructor; [|done]|].
    + rewrite Hq. cbn. by rewrite Hc, Htaken.
    + cbn [fst snd]. destruct caps'; cbn; [|done].
      by rewrite append_nil_r.
Qed.

Lemma plain_dot c : plainChar c = true → Regex.dot c = true.
Proof. each_char c. Qed.

Lemma plain_not_space c : plainChar c = true → Str.isSpace c = false.
Proof. unfold plainChar. by destruct (Str.isSpace c). Qed.

Lemma plain_not_hyphen c : plainChar c = true → Ascii.eqb "-" c = false.
Proof.
  unfold plainChar. destruct (Ascii.eqb "-" c); [|done].
  by rewrite andb_false_r.
Qed.

Lemma allChars_weaken (cls cls' : ascii → bool) s :
  (∀ c, cls c = true → cls' c = true) →
  allChars cls s = true → allChars cls' s = true.
Proof.
  intros Hcls. induction s as [|c s IH]; [done|]. cbn.
  intros [Hc Hs]%andb_true_iff. by rewrite (Hcls c Hc), IH.
Qed.

(** The pattern after its first group, [\s*->\s*(.+)$]. *)
Lemma after_first_group w1 w2 charB :
  plainName charB →
  allChars Str.isSpace w1 = true → allChars Str.isSpace w2 = true →
  Regex.matchItems (tail relationKeyPattern)
    (w1 +:+ "->" +:+ w2 +:+ charB)
  = Some [w1; "-"; ">"; w2; charB].
Proof.
  intros [Hnonempty Hplain] Hw1 Hw2.
  destruct charB as [|c b]; [done|]. clear Hnonempty.
  cbn in Hplain. apply andb_true_iff in Hplain as [Hc Hb].
  assert (Regex.matchItems
            [{| Regex.cls := Regex.dot; Regex.quant := Regex.PlusGreedy |}]
            (String c b) = Some [String c b]) as Hlast.
  { cbn. rewrite (plain_dot c Hc).
    rewrite <- (append_nil_r b) at 1.
    rewrite (greedy_run Regex.dot _ EmptyString [] b); [done| |done|done].
    apply (allChars_weaken plainChar); [apply plain_dot|done]. }
  assert (Regex.matchItems
            [{| Regex.cls := Str.isSpace; Regex.quant := Regex.StarGreedy |};
             {| Regex.cls := Regex.dot; Regex.quant := Regex.PlusGreedy |}]
            (w2 +:+ String c b) = Some [w2; String c b]) as Hgroup.
  { cbn [Regex.matchItems Regex.quant Regex.cls].
    rewrite (greedy_run Str.isSpace _ (String c b) [String c b] w2);
      [done|done| |done].
    by apply plain_not_space. }
  cbn [tail relationKeyPattern].
  cbn [Regex.matchItems Regex.quant Regex.cls] in *.
  rewrite (greedy_run Str.isSpace _ ("->" +:+ w2 +:+ String c b)
             ["-"; ">"; w2; String c b] w1); [done|done|done|].
  change ("->" +:+ w2 +:+ String c b)
    with (String "-" (String ">" (w2 +:+ String c b))).
  cbn [Regex.oneThen Ascii.eqb Bool.eqb andb fmap option_fmap option_map].
  cbn in Hgroup |- *. by rewrite Hgroup.
Qed.

(** No character of a plain name begins a match of the rest of the
    pattern. *)
Lemma after_first_group_plain c s :
  plainChar c = true →
  Regex.matchItems (tail relationKeyPattern) (String c s) = None.
Proof.
  intros Hc.
  cbn [tail relationKeyPattern Regex.matchItems Regex.quant Regex.cls
       Regex.greedy].
  rewrite (plain_not_space c Hc). cbn [Regex.oneThen Regex.cls].
  by rewrite (plain_not_hyphen c Hc).
Qed.

Lemma lazy_plain (k : string → option (list string)) name rest caps :
  (∀ c s, plainChar c = true → k (String c s) = None) →
  allChars plainChar name = true →
  k rest = Some caps →
  Regex.lazy Regex.dot k (name +:+ rest) = Some (name, caps).
Proof.
  intros Hplain Hname Hk. induction name as [|c name IH].
  - rewrite append_nil. destruct rest; cbn; by rewrite Hk.
  - cbn in Hname. apply andb_true_iff in Hname as [Hc Hname].
    rewrite append_cons. cbn [Regex.lazy].
    by rewrite (Hplain c _ Hc), (plain_dot c Hc), (IH Hname).
Qed.

(** X23. The pattern of the relationship keys. A key that matches is
    [charA], white space, the arrow [->], white space and [charB], with
    both names non-empty and without a line break. And a key made so of two
    plain names, names of one character at least that hold neither white
    space nor a hyphen, matches with these names as [charA] and [charB]. *)
Theorem relation_key_parse :
  (∀ relationKey charA charB,
     matchRelationKey relationKey = Some (charA, charB) →
     ∃ w1 w2,
       relationKey = charA +:+ w1 +:+ "->" +:+ w2 +:+ charB ∧
       charA ≠ EmptyString ∧ charB ≠ EmptyString ∧
       allChars Regex.dot charA = true ∧ allChars Regex.dot charB = true ∧
       allChars Str.isSpace w1 = true ∧ allChars Str.isSpace w2 = true) ∧
  (∀ charA charB w1 w2,
     plainName charA → plainName charB →
     allChars Str.isSpace w1 = true → allChars Str.isSpace w2 = true →
     matchRelationKey (charA +:+ w1 +:+ "->" +:+ w2 +:+ charB)
     = Some (charA, charB)).
Proof.
  split.
  - intros relationKey charA charB. unfold matchRelationKey.
    destruct (Regex.matchItems relationKeyPattern relationKey)
      as [caps|] eqn:Hmatch; [|done].
    apply matchItems_sound in Hmatch as [Hall <-].
    unfold relationKeyPattern in Hall.
    apply Forall2_cons_inv_l in Hall as (a & ? & [Ha Hne] & Hall & ->).
    apply Forall2_cons_inv_l in Hall as (w1 & ? & [Hw1 _] & Hall & ->).
    apply Forall2_cons_inv_l in Hall as (m & ? & [Hm Hm1] & Hall & ->).
    apply Forall2_cons_inv_l in Hall as (g & ? & [Hg Hg1] & Hall & ->).
    apply Forall2_cons_inv_l in Hall as (w2 & ? & [Hw2 _] & Hall & ->).
    apply Forall2_cons_inv_l in Hall as (b & ? & [Hb Hnb] & Hall & ->).
    apply Forall2_nil_inv_l in Hall as ->.
    injection 1 as <- <-.
    cbn [Regex.cls Regex.quant] in *.
    destruct m as [|m1 [|]]; try done. destruct g as [|g1 [|]]; try done.
    cbn [allChars] in Hm, Hg. rewrite andb_true_r in Hm, Hg.
    apply Ascii.eqb_eq in Hm as <-. apply Ascii.eqb_eq in Hg as <-.
    by exists w1, w2.
  - intros charA charB w1 w2 [HnonemptyA HplainA] HB Hw1 Hw2.
    destruct charA as [|c a]; [done|].
    cbn in HplainA. apply andb_true_iff in HplainA as [Hc Ha].
    unfold matchRelationKey.
    change relationKeyPattern
      with ({| Regex.cls := Regex.dot; Regex.quant := Regex.PlusLazy |}
            :: tail relationKeyPattern).
    cbn [Regex.matchItems Regex.quant Regex.cls].
    rewrite append_cons. cbn [Regex.oneThen].
    rewrite (plain_dot c Hc).
    rewrite (lazy_plain _ a _ [w1; "-"; ">"; w2; charB]); [done| |done|].
    + intros c' s Hc'. by apply after_first_group_plain.
    + by apply after_first_group.
Qed.

(* ===================================================================== *)
(** ** escapeHtml *)
(* ===================================================================== *)

Lemma append_assoc s t u : (s +:+ t) +:+ u = s +:+ t +:+ u.
Proof.
  induction s as [|c s IH]; [done|]. by rewrite !append_cons, IH.
Qed.

Lemma replaceChar_append c rep s t :
  replaceChar c rep (s +:+ t) = replaceChar c rep s +:+ replaceChar c rep t.
Proof.
  induction s as [|x s IH]; [done|].
  rewrite append_cons. cbn [replaceChar]. rewrite IH.
  destruct (Ascii.eqb x c); [by rewrite append_assoc|done].
Qed.

Lemma escape_one_char c :
  replaceChar "'" "&#039;"
    (replaceChar doubleQuote "&quot;"
       (replaceChar ">" "&gt;"
          (replaceChar "<" "&lt;"
             (replaceChar "&" "&amp;" (String c EmptyString)))))
  = escapeChar c.
Proof. each_char c. Qed.

Lemma escape_by_chars s :
  replaceChar "'" "&#039;"
    (replaceChar doubleQuote "&quot;"
       (replaceChar ">" "&gt;"
          (replaceChar "<" "&lt;" (replaceChar "&" "&amp;" s))))
  = escapeChars s.
Proof.
  induction s as [|c s IH]; [done|].
  change (String c s) with (String c EmptyString +:+ s).
  rewrite !replaceChar_append, IH, escape_one_char. done.
Qed.

Lemma escapeChar_inert c :
  allChars (fun x => negb (markupChar x)) (escapeChar c) = true.
Proof. each_char c. Qed.

Lemma allChars_append cls s t :
  allChars cls (s +:+ t) = allChars cls s && allChars cls t.
Proof.
  induction s as [|c s IH]; [done|].
  rewrite append_cons. cbn [allChars]. by rewrite IH, andb_assoc.
Qed.

Lemma escapeChar_same c :
  negb (markupChar c) && negb (Ascii.eqb c "&") = true →
  escapeChar c = String c EmptyString.
Proof. each_char c. Qed.

(** What [escapeChar] writes begins with a character that tells what was
    read: no two characters share what is written for them, and none is
    written as the beginning of what is written for another. *)
Lemma escapeChar_prefix_free c c' s s' :
  escapeChar c +:+ s = escapeChar c' +:+ s' → c = c' ∧ s = s'.
Proof.
  unfold escapeChar.
  destruct (Ascii.eqb_spec c "&") as [->|?];
    [|destruct (Ascii.eqb_spec c "<") as [->|?];
      [|destruct (Ascii.eqb_spec c ">") as [->|?];
        [|destruct (Ascii.eqb_spec c doubleQuote) as [->|?];
          [|destruct (Ascii.eqb_spec c "'") as [->|?]]]]];
  (destruct (Ascii.eqb_spec c' "&") as [->|?];
    [|destruct (Ascii.eqb_spec c' "<") as [->|?];
      [|destruct (Ascii.eqb_spec c' ">") as [->|?];
        [|destruct (Ascii.eqb_spec c' doubleQuote) as [->|?];
          [|destruct (Ascii.eqb_spec c' "'") as [->|?]]]]]);
  rewrite ?append_cons, ?append_nil; intros Heq;
  try (injection Heq as ?; subst; done); try done.
Qed.

Lemma escapeChars_injective s : ∀ t,
  escapeChars s = escapeChars t → s = t.
Proof.
  assert (∀ c u, escapeChar c +:+ u ≠ EmptyString) as Hnonempty.
  { intros c u. unfold escapeChar.
    repeat case_match; by rewrite append_cons. }
  induction s as [|c s IH]; intros [|c' t]; cbn [escapeChars]; intros Heq.
  - done.
  - symmetry in Heq. by apply Hnonempty in Heq.
  - by apply Hnonempty in Heq.
  - apply escapeChar_prefix_free in Heq as [-> Heq]. by rewrite (IH t Heq).
Qed.

(** X24. What [escapeHtml] answers holds none of the characters [<], [>],
    the double quote and the apostrophe, whatever value it is called with.
    A falsy value gives the empty string. A text without these characters
    and without [&] is answered as it is, and no two texts have the same
    answer. *)
Theorem escaped_html_is_inert :
  (∀ str, allChars (fun c => negb (markupChar c)) (escapeHtml str) = true) ∧
  (∀ str, JS.truthy str = false → escapeHtml str = EmptyString) ∧
  (∀ s,
     allChars (fun c => negb (markupChar c) && negb (Ascii.eqb c "&")) s
     = true →
     escapeHtml (JStr s) = s) ∧
  (∀ s t, escapeHtml (JStr s) = escapeHtml (JStr t) → s = t).
Proof.
  assert (∀ s, escapeHtml (JStr s) = escapeChars s) as Hstr.
  { intros s. unfold escapeHtml. cbn [JS.truthy JS.toString].
    destruct (String.eqb_spec s "") as [->|_]; [done|].
    apply escape_by_chars. }
  split; [|split; [|split]].
  - intros str. unfold escapeHtml.
    destruct (negb (JS.truthy str)); [done|].
    rewrite escape_by_chars.
    induction (JS.toString str) as [|c s IH]; [done|].
    cbn [escapeChars]. by rewrite allChars_append, escapeChar_inert, IH.
  - intros str Hfalsy. unfold escapeHtml. by rewrite Hfalsy.
  - intros s Hs. rewrite Hstr.
    induction s as [|c s IH]; [done|].
    cbn [allChars] in Hs. apply andb_true_iff in Hs as [Hc Hs].
    cbn [escapeChars]. by rewrite (escapeChar_same c Hc), (IH Hs).
  - intros s t. rewrite !Hstr. apply escapeChars_injective.
Qed.

(* ===================================================================== *)
(** ** Summaries *)
(* ===================================================================== *)









(* ===================================================================== *)
(** ** Promises *)
(* ===================================================================== *)





Lemma findPromise_Some data promiseId p :
  findPromise data promiseId = Some p →
  ∃ d ps, data = Some d ∧ promises d = Some ps ∧ ps !! promiseId = Some p.
Proof.
  unfold findPromise. destruct data as [d|]; [|done].
  destruct (promises d) as [ps|] eqn:Hps; [|done]. intros Hp.
  by exists d, ps.
Qed.

Lemma filter_permutation_head {A} (P : A → Prop) `{∀ x, Decision (P x)}
    (l l' : list A) x :
  l ≡ₚ x :: l' → filter P l ≡ₚ filter P [x] ++ filter P l'.
Proof.
  intros ->. rewrite filter_cons, (filter_cons _ x []), filter_nil.
  by destruct (decide (P x)).
Qed.

(** X26. A promise that is settled is pending no more.
    [updatePromiseStatus] with one of the five statuses, on a stored
    promise, answers [true], stores the promise with the new status and the
    time of the change, and leaves every other promise as it is. When the
    new status is not [pending], the pending promises of a character and
    the promises that need a reminder are afterwards those of before but
    for this promise. With a status that is none of the five the call
    answers [false] and changes nothing. *)
Theorem settled_promise_is_not_pending now data promiseId newStatus p :
  findPromise data promiseId = Some p →
  newStatus ∈ promiseStatuses →
  newStatus ≠ "pending" →
  let result := updatePromiseStatus now data promiseId newStatus in
  result.2 = true ∧
  findPromise result.1 promiseId
  = Some (Promise.setStatus newStatus now p) ∧
  (∀ other, other ≠ promiseId →
     findPromise result.1 other = findPromise data other) ∧
  (∀ characterName,
     getPendingPromisesFor data characterName
     ≡ₚ filter (pendingFor characterName) [p]
        ++ getPendingPromisesFor result.1 characterName) ∧
  (∀ currentMessage threshold,
     getPromisesNeedingReminder currentMessage data threshold
     ≡ₚ filter (needsReminder currentMessage threshold) [p]
        ++ getPromisesNeedingReminder currentMessage result.1 threshold) ∧
  (∀ other, other ∉ promiseStatuses →
     updatePromiseStatus now data promiseId other = (data, false)).
Proof.
  intros Hfind Hstatus Hsettled. cbv zeta.
  unfold updatePromiseStatus. rewrite Hfind.
  rewrite bool_decide_eq_true_2 by done. cbn [fst snd].
  apply findPromise_Some in Hfind as (d & ps & -> & Hps & Hp).
  cbn [fmap option_fmap option_map]. rewrite Hps. cbn [default from_option id].
  set (settled := Promise.setStatus newStatus now p).
  assert (getPromises (Some d) = ps) as Hbefore.
  { unfold getPromises. cbn. by rewrite Hps. }
  assert (getPromises (Some {| promises := Some (<[promiseId := settled]> ps) |})
          = <[promiseId := settled]> ps) as Hafter by done.
  split; [done|]. split.
  { cbn. apply lookup_insert_eq. }
  split.
  { intros other Hother. cbn. rewrite Hps. by apply lookup_insert_ne. }
  split; [|split].
  - intros c. unfold getPendingPromisesFor. rewrite Hbefore, Hafter.
    rewrite (filter_permutation_head _ _ _ _ (values_delete ps _ _ Hp)).
    rewrite (filter_permutation_head _ _ _ _
               (values_insert_stored ps promiseId settled)).
    rewrite (filter_cons _ settled []), filter_nil.
    rewrite decide_False; [done|]. by intros [? _].
  - intros cur thr. unfold getPromisesNeedingReminder.
    rewrite Hbefore, Hafter.
    rewrite (filter_permutation_head _ _ _ _ (values_delete ps _ _ Hp)).
    rewrite (filter_permutation_head _ _ _ _
               (values_insert_stored ps promiseId settled)).
    rewrite (filter_cons _ settled []), filter_nil.
    rewrite decide_False; [done|]. by intros [? _].
  - intros other Hother. by rewrite bool_decide_eq_false_2.
Qed.

(** The promise of Alice is fulfilled: Bob has no pending promise left. *)
Lemma settled_promise_is_not_pending_witness :
  getPendingPromisesFor (fulfillPromise 60 promiseStore "promise_0").1 "Bob"
  = [] ∧
  length (getPendingPromisesFor promiseStore "Bob") = 1%nat.
Proof.
  destruct (findPromise promiseStore "promise_0") as [p|] eqn:Hp;
    [|by vm_compute in Hp].
  destruct (settled_promise_is_not_pending 60 promiseStore "promise_0"
              "fulfilled" p Hp)
    as (_ & _ & _ & Hpending & _); [by right; left|done|].
  split; by vm_compute.
Defined.

Lemma storePromises_others newId now key events : ∀ index ps,
  (∀ j, key ≠ newId j) →
  storePromises newId now index events ps !! key = ps !! key.
Proof.
  induction events as [|e rest IH]; intros index ps Hkey; [done|].
  cbn [storePromises]. rewrite IH by done.
  destruct (carriesPromise e); [|done]. by rewrite lookup_insert_ne.
Qed.

Lemma storePromises_later newId now events : ∀ (index : nat) ps (k : nat),
  (∀ j j', newId j = newId j' → j = j') →
  (k < index)%nat →
  storePromises newId now index events ps !! newId k = ps !! newId k.
Proof.
  induction events as [|e rest IH]; intros index ps k Hinj Hk; [done|].
  cbn [storePromises]. rewrite IH by (done || lia).
  destruct (carriesPromise e); [|done].
  rewrite lookup_insert_ne; [done|]. intros Heq%Hinj. lia.
Qed.

Lemma storePromises_lookup newId now events : ∀ (index : nat) ps (i : nat) e,
  (∀ j j', newId j = newId j' → j = j') →
  events !! i = Some e →
  storePromises newId now index events ps !! newId (index + i)%nat
  = if carriesPromise e
    then Some (promiseOf (newId (index + i)%nat) now e)
    else ps !! newId (index + i)%nat.
Proof.
  induction events as [|e0 rest IH]; intros index ps i e Hinj Hi; [done|].
  cbn [storePromises]. destruct i as [|i].
  - injection Hi as ->. rewrite Nat.add_0_r.
    rewrite storePromises_later by (done || lia).
    destruct (carriesPromise e); [|done]. apply lookup_insert_eq.
  - cbn in Hi. replace (index + S i)%nat with (S index + i)%nat by lia.
    rewrite (IH _ _ _ _ Hinj Hi). destruct (carriesPromise e); [done|].
    destruct (carriesPromise e0); [|done].
    rewrite lookup_insert_ne; [done|]. intros Heq%Hinj. lia.
Qed.

Lemma enrichEvent_importance generateId now messageIds minId batchId i
    event e :
  enrichEvent generateId now messageIds minId batchId i event = Returns e →
  ev_importance e = NaN ∨ ∃ z, ev_importance e = Fin z ∧ 1 ≤ z ≤ 5.
Proof.
  unfold enrichEvent. destruct (JS.isNullish event); [done|].
  intros [= <-]. cbn [ev_importance].
  destruct (JS.toNumber _) as [| |z|]; cbn.
  - by left.
  - right. exists 1. split; [done|lia].
  - right. eexists. split; [done|lia].
  - right. exists 5. split; [done|lia].
Qed.

(** X28. [processPromisesFromEvents] stores a promise for an event exactly
    when the event has a promise with truthy [from], [to] and [content]:
    with distinct ids drawn, the promise of the event at index [i] is stored
    under the id drawn for it, and an event without such a promise leaves
    the entry of its id as it was. A stored promise is pending, and when
    the event comes from [parseExtractionResult] its importance is a number
    from 1 to 5 and never NaN: it is 3 when the importance of the event is
    NaN. *)
Theorem promises_from_events newId now events data (i : nat) e :
  (∀ j j', newId j = newId j' → j = j') →
  events !! i = Some e →
  let before := getPromises (Some data) in
  let stored :=
    getPromises (Some (processPromisesFromEvents newId now events data)) in
  let promise := promiseOf (newId i) now e in
  stored !! newId i
  = (if carriesPromise e then Some promise else before !! newId i) ∧
  Promise.status promise = "pending" ∧
  (∀ generateId now' messageIds minId batchId index event,
     enrichEvent generateId now' messageIds minId batchId index event
     = Returns e →
     ∃ z, Promise.importance promise = Fin z ∧ 1 ≤ z ≤ 5 ∧
          (ev_importance e = NaN → z = 3)) ∧
  (∀ key, (∀ j, key ≠ newId j) → stored !! key = before !! key).
Proof.
  intros Hinj Hi. cbv zeta. unfold getPromises, processPromisesFromEvents.
  cbn [mbind option_bind promises default from_option id].
  split.
  { by rewrite <- (storePromises_lookup newId now events 0 _ i e Hinj Hi). }
  split; [done|]. split.
  - intros generateId now' messageIds minId batchId index event Henrich.
    cbn [Promise.importance promiseOf].
    destruct (enrichEvent_importance _ _ _ _ _ _ _ _ Henrich)
      as [->|(z & -> & Hz)].
    + exists 3. split; [done|]. split; [lia|done].
    + exists z. split; [|by split]. cbn.
      destruct (z =? 0) eqn:Hz0; [lia|done].
  - intros key Hkey. by apply storePromises_others.
Qed.

Lemma ofZ_inj a b : Str.ofZ a = Str.ofZ b → a = b.
Proof.
  unfold Str.ofZ. intros Heq. apply DecimalZ.to_int_inj.
  assert (∀ z, NilZero.int_of_string (NilZero.string_of_int (Z.to_int z))
               = Some (Z.to_int z)) as Hread.
  { intros z. apply NilZero.isi; destruct z; cbn; try done;
      intros [= Hnil]; by apply DecimalPos.Unsigned.to_uint_nonnil in Hnil. }
  pose proof (Hread a) as Ha. rewrite Heq, Hread in Ha. by injection Ha.
Qed.

Lemma promiseId_inj j j' : promiseId j = promiseId j' → j = j'.
Proof.
  unfold promiseId. intros Heq. cbv [String.append] in Heq.
  injection Heq as Heq. apply ofZ_inj in Heq. lia.
Qed.

(** The promise of Alice, whose event rates its importance in words. *)
Lemma promises_from_events_witness :
  ∃ e promise,
    promiseEvents !! 0%nat = Some e ∧
    ev_importance e = NaN ∧
    getPromises promiseStore !! "promise_0" = Some promise ∧
    Promise.importance promise = Fin 3.
Proof.
  destruct (promiseEvents !! 0%nat) as [e|] eqn:He; [|by vm_compute in He].
  exists e, (promiseOf (promiseId 0) 50 e).
  destruct (promises_from_events promiseId 50 promiseEvents
              {| promises := None |} 0 e) as (Hstored & _ & _ & _).
  - apply promiseId_inj.
  - done.
  - vm_compute in He. injection He as <-. split; [done|]. split; [done|].
    split; by vm_compute.
Defined.

(* ===================================================================== *)
(** ** Goals of the events *)
(* ===================================================================== *)






